(** * Per-tenant search core of the ingester (modules/ingester/instance_search.go)

    A shallow embedding of the four query surfaces of [instance]
    ([Search], [SearchTags]/[SearchTagsV2], [SearchTagValues],
    [SearchTagValuesV2]) and of the inclusion filter [includeBlock],
    together with the properties stated about them. *)

From stdpp Require Import base numbers strings list gmap fin_maps sorting.

Local Open Scope Z_scope.

(** ** Go errors

    [error] values as the code produces and inspects them: the two
    sentinels the dispatcher tests for, the tenant-extraction failure,
    plain messages, and [fmt.Errorf("...%w", err)] wrappers. *)
Inductive error : Type :=
| ErrUnsupported                              (* common.ErrUnsupported *)
| Canceled                                    (* context.Canceled *)
| ErrNoOrgID                                  (* returned by user.ExtractOrgID *)
| ErrorString (msg : string)                  (* errors.New / fmt.Errorf without %w *)
| Errorf (msg : string) (wrapped : error).    (* fmt.Errorf("msg: %w", wrapped) *)

#[global] Instance error_eq_dec : EqDecision error.
Proof. solve_decision. Defined.

(** [errors.Is]: walks the [Unwrap] chain looking for [target]. *)
Fixpoint errors_Is (err target : error) : bool :=
  bool_decide (err = target) ||
  match err with
  | Errorf _ wrapped => errors_Is wrapped target
  | _ => false
  end.

(** [errors.Is(err, target)] on a possibly nil [err]. *)
Definition errors_Is_opt (err : option error) (target : error) : bool :=
  match err with
  | None => false
  | Some e => errors_Is e target
  end.

(** What a Go call yields: a value, a non-nil error, or a run-time panic
    (nil dereference). *)
Inductive outcome (A : Type) : Type :=
| Ok (a : A)
| Err (e : error)
| Panic.
Arguments Ok {A} a.
Arguments Err {A} e.
Arguments Panic {A}.

(** ** Fixed-width integers *)
Definition wrap_signed (bits : Z) (x : Z) : Z :=
  (x + 2 ^ (bits - 1)) `mod` 2 ^ bits - 2 ^ (bits - 1).
Definition wrap_unsigned (bits : Z) (x : Z) : Z := x `mod` 2 ^ bits.

Definition int32 (x : Z) : Z := wrap_signed 32 x.
Definition int64 (x : Z) : Z := wrap_signed 64 x.
Definition uint32 (x : Z) : Z := wrap_unsigned 32 x.
Definition uint64 (x : Z) : Z := wrap_unsigned 64 x.

Definition MaxInt32 : Z := 2 ^ 31 - 1.
Definition MaxInt64 : Z := 2 ^ 63 - 1.

(** ** Time and block metadata *)

(** [time.Time] as nanoseconds since the Unix epoch; [Unix] is the whole
    number of seconds (rounded towards minus infinity, as Go does). *)
Definition Time : Type := Z.
Definition Unix (t : Time) : Z := t `div` 1000000000.

Definition UUID : Type := string.

(** [backend.BlockMeta], the fields the search core reads. *)
Record BlockMeta : Type := mkBlockMeta {
  BlockID : UUID;
  StartTime : Time;
  EndTime : Time;
}.

(** ** Protocol messages (tempopb), the fields the search core reads.
    [Limit], [Start] and [End] are uint32 on the wire. *)
Record SearchRequest : Type := mkSearchRequest {
  req_Query : string;
  req_Limit : Z;
  req_Start : Z;
  req_End : Z;
}.

Record TraceSearchMetadata : Type := mkTraceSearchMetadata {
  TraceID : string;
  RootServiceName : string;
  StartTimeUnixNano : Z;
}.

Record SearchMetrics : Type := mkSearchMetrics {
  InspectedTraces : Z;   (* uint32 *)
  InspectedBytes : Z;    (* uint64 *)
}.

Record SearchResponse : Type := mkSearchResponse {
  Traces : list TraceSearchMetadata;
  Metrics : option SearchMetrics;
}.

(** ** Inclusion filter *)

(** includeBlock uses the provided time range to determine if the block
    should be included in the search. *)
Definition includeBlock (b : BlockMeta) (req : SearchRequest) : bool :=
  let start := int64 (req_Start req) in
  let end_ := int64 (req_End req) in
  if bool_decide (start = 0) || bool_decide (end_ = 0) then true
  else bool_decide (Unix (StartTime b) ≤ end_) && bool_decide (Unix (EndTime b) >= start).

(** A request as it comes off the wire: the three uint32 fields are in
    range. *)
Definition is_uint32 (x : Z) : Prop := 0 ≤ x < 2 ^ 32.

Record SearchRequest_wf (req : SearchRequest) : Prop := mkSearchRequest_wf {
  wf_Limit : is_uint32 (req_Limit req);
  wf_Start : is_uint32 (req_Start req);
  wf_End : is_uint32 (req_End req);
}.

(** ** Distinct collectors (pkg/collector) *)
Module collector.

(** Modelled from the spec: [DistinctString(limit)] of pkg/collector,
    whose code is not among the sources.  A distinct collector is a
    byte-size-bounded set with an [Exceeded] flag that latches on the
    first overflow; a limit of 0 means unlimited (instance_search.go,
    line 183: the flat tag-name surface creates its collector with
    limit 0 because "search tags v2 enforces the limit"). *)
Record DistinctString : Type := mkDistinctString {
  ds_values : gset string;
  ds_maxLen : Z;
  ds_currLen : Z;
  ds_limExceeded : bool;
}.

(** Modelled from the spec: an empty collector with the given byte
    limit. *)
Definition NewDistinctString (maxDataSize : Z) : DistinctString :=
  mkDistinctString ∅ maxDataSize 0 false.

(** [len(s)]: the length of a string in bytes. *)
Definition strlen (s : string) : Z := Z.of_nat (String.length s).

(** Modelled from the spec: [collect].  Once the flag is up nothing is
    taken; a value already held changes nothing; a value that does not
    fit raises the flag; any other value is added. *)
Definition Collect (d : DistinctString) (s : string) : DistinctString :=
  if ds_limExceeded d then d
  else if bool_decide (s ∈ ds_values d) then d
  else
    let valueLen := strlen s in
    if bool_decide (0 < ds_maxLen d) && bool_decide (ds_maxLen d < ds_currLen d + valueLen)
    then mkDistinctString (ds_values d) (ds_maxLen d) (ds_currLen d) true
    else mkDistinctString ({[s]} ∪ ds_values d) (ds_maxLen d) (ds_currLen d + valueLen) false.

(** A collector without a byte limit that has not overflowed. *)
Definition unlimited (d : DistinctString) : Prop :=
  ds_maxLen d ≤ 0 ∧ ds_limExceeded d = false.

(** Modelled from the spec: [exceeded()], [strings()] (in no particular
    order) and [totalDataSize()]. *)
Definition Exceeded (d : DistinctString) : bool := ds_limExceeded d.
Definition Strings (d : DistinctString) : list string := elements (ds_values d).
Definition TotalDataSize (d : DistinctString) : Z := ds_currLen d.

(** Modelled from the spec: [ScopedDistinctString(limit)], a mapping
    from scope name to a set of strings under one byte budget. *)
Record ScopedDistinctString : Type := mkScopedDistinctString {
  sds_cols : gmap string (gset string);
  sds_maxLen : Z;
  sds_currLen : Z;
  sds_limExceeded : bool;
}.

(** Modelled from the spec: an empty scoped collector. *)
Definition NewScopedDistinctString (maxDataSize : Z) : ScopedDistinctString :=
  mkScopedDistinctString ∅ maxDataSize 0 false.

(** Modelled from the spec: [collect(scope, value)]. *)
Definition ScopedCollect (d : ScopedDistinctString) (scope val : string)
  : ScopedDistinctString :=
  if sds_limExceeded d then d
  else
    let col := default ∅ (sds_cols d !! scope) in
    if bool_decide (val ∈ col) then d
    else
      let valueLen := strlen val in
      if bool_decide (0 < sds_maxLen d) && bool_decide (sds_maxLen d < sds_currLen d + valueLen)
      then mkScopedDistinctString (sds_cols d) (sds_maxLen d) (sds_currLen d) true
      else mkScopedDistinctString (<[scope := {[val]} ∪ col]> (sds_cols d))
             (sds_maxLen d) (sds_currLen d + valueLen) false.

(** Modelled from the spec: [exceeded()]. *)
Definition ScopedExceeded (d : ScopedDistinctString) : bool := sds_limExceeded d.
(** Modelled from the spec: [strings()] of the scoped collector, scope
    name to tag list. *)
Definition ScopedStrings (d : ScopedDistinctString) : gmap string (list string) :=
  elements <$> sds_cols d.

Section DistinctValue.
Context {T : Type} `{Countable T}.

(** Modelled from the spec: [DistinctValue[T](limit, sizeOf)], a
    byte-bounded set of typed values with a caller-supplied sizer. *)
Record DistinctValue : Type := mkDistinctValue {
  dv_values : gset T;
  dv_len : T → Z;
  dv_maxLen : Z;
  dv_currLen : Z;
  dv_limExceeded : bool;
}.

(** Modelled from the spec: an empty typed collector. *)
Definition NewDistinctValue (maxDataSize : Z) (len : T → Z) : DistinctValue :=
  mkDistinctValue ∅ len maxDataSize 0 false.

(** Modelled from the spec: [collect(value)]. *)
Definition ValueCollect (d : DistinctValue) (v : T) : DistinctValue :=
  if dv_limExceeded d then d
  else if bool_decide (v ∈ dv_values d) then d
  else
    let valueLen := dv_len d v in
    if bool_decide (0 < dv_maxLen d) && bool_decide (dv_maxLen d < dv_currLen d + valueLen)
    then mkDistinctValue (dv_values d) (dv_len d) (dv_maxLen d) (dv_currLen d) true
    else mkDistinctValue ({[v]} ∪ dv_values d) (dv_len d) (dv_maxLen d)
           (dv_currLen d + valueLen) false.

(** Modelled from the spec: [exceeded()], [values()] (in no particular
    order) and [totalDataSize()]. *)
Definition ValueExceeded (d : DistinctValue) : bool := dv_limExceeded d.
Definition Values (d : DistinctValue) : list T := elements (dv_values d).
Definition ValueTotalDataSize (d : DistinctValue) : Z := dv_currLen d.
End DistinctValue.
Arguments DistinctValue T {_ _}.

End collector.

(** ** Trace metadata combiner (pkg/traceql) *)
Module traceql.

(** Modelled from the spec: the metadata combiner of pkg/traceql, whose
    code is not among the sources.  It "maintains a most-recent-first
    ordered set keyed by trace identifier; add is idempotent per key;
    count() returns the current number of distinct traces". *)
Record MetadataCombiner : Type := mkMetadataCombiner {
  trs : gmap string TraceSearchMetadata;
}.

(** Modelled from the spec: the empty combiner. *)
Definition NewMetadataCombiner : MetadataCombiner := mkMetadataCombiner ∅.

(** Modelled from the spec: [add], idempotent per trace identifier. *)
Definition AddMetadata (c : MetadataCombiner) (new : TraceSearchMetadata)
  : MetadataCombiner :=
  match trs c !! TraceID new with
  | Some _ => c
  | None => mkMetadataCombiner (<[TraceID new := new]> (trs c))
  end.

(** Modelled from the spec: [count()], the number of distinct traces. *)
Definition Count (c : MetadataCombiner) : Z := Z.of_nat (size (trs c)).

Definition more_recent (a b : TraceSearchMetadata) : Prop :=
  StartTimeUnixNano b ≤ StartTimeUnixNano a.
#[global] Instance more_recent_dec a b : Decision (more_recent a b).
Proof. unfold more_recent. apply _. Defined.

(** Modelled from the spec: the traces held, most recent first. *)
Definition Metadata (c : MetadataCombiner) : list TraceSearchMetadata :=
  merge_sort more_recent (snd <$> map_to_list (trs c)).

End traceql.

(** ** Tag protocol messages *)
Record TagValue : Type := mkTagValue {
  tv_Type : string;
  tv_Value : string;
}.

#[global] Instance TagValue_eq_dec : EqDecision TagValue.
Proof. solve_decision. Defined.

#[global] Instance TagValue_countable : Countable TagValue.
Proof.
  refine (inj_countable' (λ v, (tv_Type v, tv_Value v))
            (λ p, mkTagValue p.1 p.2) _).
  by intros [].
Defined.

Record SearchTagsRequest : Type := mkSearchTagsRequest {
  tags_Scope : string;
  tags_Query : string;
}.

Record SearchTagsV2Scope : Type := mkSearchTagsV2Scope {
  scope_Name : string;
  scope_Tags : list string;
}.

Record SearchTagsV2Response : Type := mkSearchTagsV2Response {
  Scopes : list SearchTagsV2Scope;
}.

Record SearchTagsResponse : Type := mkSearchTagsResponse {
  TagNames : list string;
}.

Record SearchTagValuesRequest : Type := mkSearchTagValuesRequest {
  tvr_TagName : string;
  tvr_Query : string;
}.

Record SearchTagValuesResponse : Type := mkSearchTagValuesResponse {
  TagValues : list string;
}.

Record SearchTagValuesV2Response : Type := mkSearchTagValuesV2Response {
  TagValuesV2 : list TagValue;
}.

(** ** Request context

    The part of [context.Context] the search core depends on: the tenant
    id that [user.ExtractOrgID] reads, and whether the context is
    cancelled. *)
Record Context : Type := mkContext {
  ctx_orgID : option string;
  ctx_cancelled : bool;
}.

Definition ExtractOrgID (ctx : Context) : string * option error :=
  match ctx_orgID ctx with
  | Some userID => (userID, None)
  | None => (""%string, Some ErrNoOrgID)
  end.

(** Modelled from the spec: api.ParamScopeIntrinsic, the scope sentinel,
    "the literal intrinsic string". *)
Definition ParamScopeIntrinsic : string := "intrinsic".

(** ** External collaborators

    The TraceQL vocabulary and evaluator and the intrinsic tag list are
    consumed through their entry points only; they are parameters of the
    development. A callback-driven call is represented by the sequence of
    arguments it hands to its callback, together with the error it
    returns. *)
Class Externals : Type := mkExternals {
  (* traceql.AttributeScope *)
  AttributeScope : Type;
  AttributeScope_eq_dec :: EqDecision AttributeScope;
  AttributeScopeNone : AttributeScope;
  AttributeScopeUnknown : AttributeScope;
  AttributeScopeFromString : string → AttributeScope;
  AttributeScope_String : AttributeScope → string;
  (* traceql.Attribute and the four ID intrinsics *)
  Attribute : Type;
  Attribute_eq_dec :: EqDecision Attribute;
  IntrinsicLinkTraceIDAttribute : Attribute;
  IntrinsicLinkSpanIDAttribute : Attribute;
  IntrinsicSpanIDAttribute : Attribute;
  IntrinsicTraceIDAttribute : Attribute;
  ParseIdentifier : string → Attribute * option error;
  (* matchers extracted from the request string *)
  Matchers : Type;
  ExtractMatchers : string → Matchers;
  IsEmptyQuery : Matchers → bool;
  (* api.IsTraceQLQuery *)
  IsTraceQLQuery : SearchRequest → bool;
  (* search.GetVirtualIntrinsicValues *)
  GetVirtualIntrinsicValues : list string;
  (* evaluator-facing fetch requests and responses *)
  FetchSpansRequest : Type;
  FetchSpansResponse : Type;
  FetchTagsRequest : Type;
  FetchTagValuesRequest : Type;
  (* traceql.Engine *)
  ExecuteSearch :
    Context → SearchRequest →
    (Context → FetchSpansRequest → FetchSpansResponse * option error) →
    option SearchResponse * option error;
  ExecuteTagNames :
    Context → AttributeScope → Matchers →
    (Context → FetchTagsRequest → list (string * AttributeScope) * option error) →
    list (string * AttributeScope) * option error;
  ExecuteTagValues :
    Context → Attribute → Matchers →
    (Context → FetchTagValuesRequest → list TagValue * option error) →
    list TagValue * option error;
}.

(** ** Events observable on a call: lock operations on the two registry
    mutexes, calls into a block's Searcher, and log lines. *)
Inductive lock : Type := headBlockMtx | blocksMtx.

Inductive searcher_op : Type :=
| OpSearch | OpFetch
| OpSearchTags | OpFetchTagNames
| OpSearchTagValues
| OpSearchTagValuesV2 | OpFetchTagValues.

Inductive log_level : Type := LevelWarn | LevelError.

Inductive event : Type :=
| EvRLock (m : lock)
| EvRUnlock (m : lock)
| EvLock (m : lock)
| EvUnlock (m : lock)
| EvCall (blockID : UUID) (op : searcher_op)
| EvLog (lvl : log_level) (msg : string).

#[global] Instance lock_eq_dec : EqDecision lock.
Proof. solve_decision. Defined.
#[global] Instance searcher_op_eq_dec : EqDecision searcher_op.
Proof. solve_decision. Defined.
#[global] Instance log_level_eq_dec : EqDecision log_level.
Proof. solve_decision. Defined.
#[global] Instance event_eq_dec : EqDecision event.
Proof. solve_decision. Defined.

Definition is_call (e : event) : bool :=
  match e with EvCall _ _ => true | _ => false end.

(** Number of Searcher calls in a trace. *)
Definition calls (tr : list event) : nat := length (filter (λ e, is_call e = true) tr).

(** Read locks on [m] taken and not yet given back along a trace. *)
Fixpoint held (m : lock) (tr : list event) : Z :=
  match tr with
  | [] => 0
  | EvRLock m' :: tr' => (if bool_decide (m' = m) then 1 else 0) + held m tr'
  | EvRUnlock m' :: tr' => (if bool_decide (m' = m) then -1 else 0) + held m tr'
  | _ :: tr' => held m tr'
  end.

(** ** Lock discipline on a trace

    [blocks_held] counts the read locks on [blocksMtx] that are held at
    the current point of the trace. *)

(** The head lock is never acquired while the blocks lock is held. *)
Fixpoint acquire_order (blocks_held : nat) (tr : list event) : bool :=
  match tr with
  | [] => true
  | EvRLock headBlockMtx :: tr' | EvLock headBlockMtx :: tr' =>
    bool_decide (blocks_held = 0%nat) && acquire_order blocks_held tr'
  | EvRLock blocksMtx :: tr' | EvLock blocksMtx :: tr' => acquire_order (S blocks_held) tr'
  | EvRUnlock blocksMtx :: tr' | EvUnlock blocksMtx :: tr' =>
    acquire_order (pred blocks_held) tr'
  | _ :: tr' => acquire_order blocks_held tr'
  end.

(** The head lock is never released while the blocks lock is held: where
    both are held, the blocks lock goes first. *)
Fixpoint release_order (blocks_held : nat) (tr : list event) : bool :=
  match tr with
  | [] => true
  | EvRUnlock headBlockMtx :: tr' | EvUnlock headBlockMtx :: tr' =>
    bool_decide (blocks_held = 0%nat) && release_order blocks_held tr'
  | EvRLock blocksMtx :: tr' | EvLock blocksMtx :: tr' => release_order (S blocks_held) tr'
  | EvRUnlock blocksMtx :: tr' | EvUnlock blocksMtx :: tr' =>
    release_order (pred blocks_held) tr'
  | _ :: tr' => release_order blocks_held tr'
  end.

(** No exclusive lock operation: nothing is upgraded. *)
Definition shared_only (tr : list event) : bool :=
  forallb (λ e, match e with EvLock _ | EvUnlock _ => false | _ => true end) tr.

(** Invariant L on the trace of one call. *)
Definition lock_order (tr : list event) : bool :=
  acquire_order 0 tr && release_order 0 tr && shared_only tr.

Definition is_lock_op (e : event) : bool :=
  match e with
  | EvRLock _ | EvRUnlock _ | EvLock _ | EvUnlock _ => true
  | _ => false
  end.

(** A stretch of a trace without lock operations. *)
Definition no_locks (ev : list event) : Prop := Forall (λ e, is_lock_op e = false) ev.

(** The blocks whose Searcher is called along a trace, in the order of
    the calls. *)
Fixpoint call_ids (tr : list event) : list UUID :=
  match tr with
  | [] => []
  | EvCall id _ :: tr' => id :: call_ids tr'
  | _ :: tr' => call_ids tr'
  end.

Section Ingester.
Context `{E : Externals}.

(** Modelled from the spec: the Searcher capability set of a block
    (section 6.1).  Implementations are opaque to the search core. *)
Record Searcher : Type := mkSearcher {
  Meta : BlockMeta;
  Search_ : Context → SearchRequest → option SearchResponse * option error;
  Fetch : Context → FetchSpansRequest → FetchSpansResponse * option error;
  SearchTags_ : Context → AttributeScope → list (string * AttributeScope) * option error;
  FetchTagNames : Context → FetchTagsRequest → list (string * AttributeScope) * option error;
  SearchTagValues_ : Context → string → list string * option error;
  SearchTagValuesV2_ : Context → Attribute → list TagValue * option error;
  FetchTagValues : Context → FetchTagValuesRequest → list TagValue * option error;
}.

(** Per-tenant limits read through [i.limiter.limits]. *)
Record Limits : Type := mkLimits {
  MaxBytesPerTagValuesQuery : string → Z;
  MaxBlocksPerTagValuesQuery : string → Z;
}.

(** The tenant instance: the head block (nil when absent) and the two
    block sequences. *)
Record instance : Type := mkInstance {
  limits : Limits;
  headBlock : option Searcher;
  completingBlocks : list Searcher;
  completeBlocks : list Searcher;
}.

Import collector.

Definition blockID (s : Searcher) : UUID := BlockID (Meta s).

(** All the blocks of the registry, head first. *)
Definition allBlocks (i : instance) : list Searcher :=
  option_list (headBlock i) ++ completingBlocks i ++ completeBlocks i.

(** *** Tag-name search (typed): [instance.SearchTagsV2] *)

Definition collectTags (dv : ScopedDistinctString)
    (tags : list (string * AttributeScope)) : ScopedDistinctString :=
  foldl (λ d '(t, scope), ScopedCollect d (AttributeScope_String scope) t) dv tags.

(** The [searchBlock] closure of [SearchTagsV2]; [s] is nil for an absent
    head block.  It yields the error it returns, the collector it
    leaves behind and the events it produces. *)
Definition SearchTagsV2_searchBlock (ctx : Context) (attributeScope : AttributeScope)
    (query : Matchers) (s : option Searcher) (distinctValues : ScopedDistinctString)
  : option error * ScopedDistinctString * list event :=
  match s with
  | None => (None, distinctValues, [])
  | Some s =>
    if ScopedExceeded distinctValues then (None, distinctValues, [])
    else if IsEmptyQuery query then
      (* if the query is empty, use the old search *)
      let '(tags, err) := SearchTags_ s ctx attributeScope in
      let dv := collectTags distinctValues tags in
      let ev := [EvCall (blockID s) OpSearchTags] in
      match err with
      | Some e =>
        if negb (errors_Is e ErrUnsupported)
        then (Some (Errorf "unexpected error searching tags" e), dv, ev)
        else (None, dv, ev)
      | None => (None, dv, ev)
      end
    else
      (* otherwise use the filtered search *)
      let '(tags, err) := ExecuteTagNames ctx attributeScope query (FetchTagNames s) in
      (err, collectTags distinctValues tags, [EvCall (blockID s) OpFetchTagNames])
  end.

(** [for _, b := range blocks { if err = searchBlock(...); err != nil { return ... } }] *)
Fixpoint SearchTagsV2_range (ctx : Context) (attributeScope : AttributeScope)
    (query : Matchers) (kind : string) (blocks : list Searcher)
    (distinctValues : ScopedDistinctString)
  : option error * ScopedDistinctString * list event :=
  match blocks with
  | [] => (None, distinctValues, [])
  | b :: rest =>
    let '(err, dv, ev) :=
      SearchTagsV2_searchBlock ctx attributeScope query (Some b) distinctValues in
    match err with
    | Some e =>
      (Some (Errorf ("unexpected error searching " +:+ kind +:+ " block (" +:+ blockID b +:+ ")") e),
       dv, ev)
    | None =>
      let '(err', dv', ev') := SearchTagsV2_range ctx attributeScope query kind rest dv in
      (err', dv', ev ++ ev')
    end
  end.

Definition tagsWarning : event :=
  EvLog LevelWarn "size of tags in instance exceeded limit, reduce cardinality or size of tags".

Definition SearchTagsV2_response (attributeScope : AttributeScope)
    (distinctValues : ScopedDistinctString) : SearchTagsV2Response :=
  let collected := ScopedStrings distinctValues in
  let scopes := (λ kv, mkSearchTagsV2Scope kv.1 kv.2) <$> map_to_list collected in
  (* add intrinsic tags if scope is none *)
  if bool_decide (attributeScope = AttributeScopeNone)
  then mkSearchTagsV2Response
         (scopes ++ [mkSearchTagsV2Scope ParamScopeIntrinsic GetVirtualIntrinsicValues])
  else mkSearchTagsV2Response scopes.

(** The part of [SearchTagsV2] that runs under the locks (from the head
    lock to the return), with the collector it ends with. *)
Definition SearchTagsV2_locked (ctx : Context) (attributeScope : AttributeScope)
    (query : Matchers) (limit : Z) (i : instance)
  : outcome SearchTagsV2Response * ScopedDistinctString * list event :=
  let distinctValues := NewScopedDistinctString limit in
  let '(err, dv, evHead) :=
    SearchTagsV2_searchBlock ctx attributeScope query (headBlock i) distinctValues in
  let trHead := [EvRLock headBlockMtx] ++ evHead ++ [EvRUnlock headBlockMtx] in
  match err with
  | Some e =>
    match headBlock i with
    | None => (Panic, dv, trHead)
    | Some h =>
      (Err (Errorf ("unexpected error searching head block (" +:+ blockID h +:+ ")") e),
       dv, trHead)
    end
  | None =>
    let '(err1, dv1, ev1) :=
      SearchTagsV2_range ctx attributeScope query "completing" (completingBlocks i) dv in
    match err1 with
    | Some e => (Err e, dv1, trHead ++ [EvRLock blocksMtx] ++ ev1 ++ [EvRUnlock blocksMtx])
    | None =>
      let '(err2, dv2, ev2) :=
        SearchTagsV2_range ctx attributeScope query "complete" (completeBlocks i) dv1 in
      match err2 with
      | Some e =>
        (Err e, dv2, trHead ++ [EvRLock blocksMtx] ++ ev1 ++ ev2 ++ [EvRUnlock blocksMtx])
      | None =>
        let warn := if ScopedExceeded dv2 then [tagsWarning] else [] in
        (Ok (SearchTagsV2_response attributeScope dv2), dv2,
         trHead ++ [EvRLock blocksMtx] ++ ev1 ++ ev2 ++ warn ++ [EvRUnlock blocksMtx])
      end
    end
  end.

(** SearchTagsV2 calls SearchTags for each scope and returns the results. *)
Definition SearchTagsV2 (ctx : Context) (req : SearchTagsRequest) (i : instance)
  : outcome SearchTagsV2Response * list event :=
  let '(userID, err) := ExtractOrgID ctx in
  match err with
  | Some e => (Err e, [])
  | None =>
    let scope := tags_Scope req in
    (* check if it's the special intrinsic scope *)
    if bool_decide (scope = ParamScopeIntrinsic) then
      (Ok (mkSearchTagsV2Response
             [mkSearchTagsV2Scope ParamScopeIntrinsic GetVirtualIntrinsicValues]), [])
    else
      (* parse for normal scopes *)
      let attributeScope := AttributeScopeFromString scope in
      if bool_decide (attributeScope = AttributeScopeUnknown) then
        (Err (ErrorString ("unknown scope: " +:+ scope)), [])
      else
        let limit := MaxBytesPerTagValuesQuery (limits i) userID in
        let query := ExtractMatchers (tags_Query req) in
        let '(r, _, tr) := SearchTagsV2_locked ctx attributeScope query limit i in
        (r, tr)
  end.

(** *** Tag-name search (flat): [instance.SearchTags] *)

(** The flattening loop over the scopes of the typed response. *)
Definition SearchTags_flatten (scope : string) (scopes : list SearchTagsV2Scope)
  : DistinctString :=
  foldl (λ distinctValues s,
           (* SearchTags does not include intrinsics on an empty scope, but v2 does. *)
           if bool_decide (scope = ""%string) && bool_decide (scope_Name s = ParamScopeIntrinsic)
           then distinctValues
           else foldl Collect distinctValues (scope_Tags s))
        (NewDistinctString 0) scopes.

Definition SearchTags (ctx : Context) (scope : string) (i : instance)
  : outcome SearchTagsResponse * list event :=
  let '(v2Response, tr) := SearchTagsV2 ctx (mkSearchTagsRequest scope "") i in
  match v2Response with
  | Err e => (Err e, tr)
  | Panic => (Panic, tr)
  | Ok v2 => (Ok (mkSearchTagsResponse (Strings (SearchTags_flatten scope (Scopes v2)))), tr)
  end.

(** *** Tag-value search (flat): [instance.SearchTagValues] *)

(** The variables captured by the [search] closure. *)
Record TagValuesState : Type := mkTagValuesState {
  inspectedBlocks : Z;
  distinctValues : DistinctString;
}.

Definition SearchTagValues_search (ctx : Context) (tagName : string) (maxBlocks : Z)
    (s : option Searcher) (st : TagValuesState)
  : option error * TagValuesState * list event :=
  if bool_decide (maxBlocks > 0) && bool_decide (inspectedBlocks st >= maxBlocks)
  then (None, st, [])
  else
    match s with
    | None => (None, st, [])
    | Some s =>
      if Exceeded (distinctValues st) then (None, st, [])
      else
        let inspected := int64 (inspectedBlocks st + 1) in
        let '(vals, err) := SearchTagValues_ s ctx tagName in
        let st' := mkTagValuesState inspected (foldl Collect (distinctValues st) vals) in
        let ev := [EvCall (blockID s) OpSearchTagValues] in
        match err with
        | Some e =>
          if negb (errors_Is e ErrUnsupported)
          then (Some (Errorf ("unexpected error searching tag values (" +:+ tagName +:+ ")") e),
                st', ev)
          else (None, st', ev)
        | None => (None, st', ev)
        end
    end.

Fixpoint SearchTagValues_range (ctx : Context) (tagName : string) (maxBlocks : Z)
    (kind : string) (blocks : list Searcher) (st : TagValuesState)
  : option error * TagValuesState * list event :=
  match blocks with
  | [] => (None, st, [])
  | b :: rest =>
    let '(err, st', ev) := SearchTagValues_search ctx tagName maxBlocks (Some b) st in
    match err with
    | Some e =>
      (Some (Errorf ("unexpected error searching " +:+ kind +:+ " block (" +:+ blockID b +:+ ")") e),
       st', ev)
    | None =>
      let '(err', st'', ev') := SearchTagValues_range ctx tagName maxBlocks kind rest st' in
      (err', st'', ev ++ ev')
    end
  end.

Definition tagValuesWarning : event :=
  EvLog LevelWarn
    "size of tag values in instance exceeded limit, reduce cardinality or size of tags".

(** The part of [SearchTagValues] after the limits are read, with the
    closure state it ends with. *)
Definition SearchTagValues_locked (ctx : Context) (tagName : string)
    (limit maxBlocks : Z) (i : instance)
  : outcome SearchTagValuesResponse * TagValuesState * list event :=
  let st0 := mkTagValuesState 0 (NewDistinctString limit) in
  let '(err, st, evHead) := SearchTagValues_search ctx tagName maxBlocks (headBlock i) st0 in
  let trHead := [EvRLock headBlockMtx] ++ evHead ++ [EvRUnlock headBlockMtx] in
  match err with
  | Some e =>
    match headBlock i with
    | None => (Panic, st, trHead)
    | Some h =>
      (Err (Errorf ("unexpected error searching head block (" +:+ blockID h +:+ ")") e),
       st, trHead)
    end
  | None =>
    let '(err1, st1, ev1) :=
      SearchTagValues_range ctx tagName maxBlocks "completing" (completingBlocks i) st in
    match err1 with
    | Some e => (Err e, st1, trHead ++ [EvRLock blocksMtx] ++ ev1 ++ [EvRUnlock blocksMtx])
    | None =>
      let '(err2, st2, ev2) :=
        SearchTagValues_range ctx tagName maxBlocks "complete" (completeBlocks i) st1 in
      match err2 with
      | Some e =>
        (Err e, st2, trHead ++ [EvRLock blocksMtx] ++ ev1 ++ ev2 ++ [EvRUnlock blocksMtx])
      | None =>
        let warn := if Exceeded (distinctValues st2) then [tagValuesWarning] else [] in
        (Ok (mkSearchTagValuesResponse (Strings (distinctValues st2))), st2,
         trHead ++ [EvRLock blocksMtx] ++ ev1 ++ ev2 ++ warn ++ [EvRUnlock blocksMtx])
      end
    end
  end.

(** [maxBlocks] as the two tag-value surfaces compute it from the
    limiter, before any width conversion. *)
Definition maxBlocksOf (limit : Z) : Z := if bool_decide (limit > 0) then limit else 0.

Definition SearchTagValues (ctx : Context) (tagName : string) (i : instance)
  : outcome SearchTagValuesResponse * list event :=
  let '(userID, err) := ExtractOrgID ctx in
  match err with
  | Some e => (Err e, [])
  | None =>
    let limit := MaxBytesPerTagValuesQuery (limits i) userID in
    let maxBlocks := maxBlocksOf (MaxBlocksPerTagValuesQuery (limits i) userID) in
    let '(r, _, tr) := SearchTagValues_locked ctx tagName limit maxBlocks i in
    (r, tr)
  end.

(** *** Trace search: [instance.Search] *)

(** The variables the [search] closure shares between tasks: the
    combiner and metrics (under [resultsMtx]), the [anyErr] slot, and
    whether [cancel] has been called on the derived context. *)
Record SearchState : Type := mkSearchState {
  combiner : traceql.MetadataCombiner;
  metrics : SearchMetrics;
  anyErr : option error;
  cancelled : bool;
}.

Definition addMetrics (m : SearchMetrics) (r : option SearchMetrics) : SearchMetrics :=
  match r with
  | Some rm =>
    mkSearchMetrics (uint32 (InspectedTraces m + InspectedTraces rm))
                    (uint64 (InspectedBytes m + InspectedBytes rm))
  | None => m
  end.

(** [for _, tr := range resp.Traces { combiner.AddMetadata(tr); if
    combiner.Count() >= maxResults { cancel(); return } }]: the combiner
    afterwards and whether [cancel] was called. *)
Fixpoint addTraces (maxResults : Z) (traces : list TraceSearchMetadata)
    (c : traceql.MetadataCombiner) : traceql.MetadataCombiner * bool :=
  match traces with
  | [] => (c, false)
  | tr :: rest =>
    let c' := traceql.AddMetadata c tr in
    if bool_decide (traceql.Count c' >= maxResults) then (c', true)
    else addTraces maxResults rest c'
  end.

(** The per-block call: the evaluator for a TraceQL query, the block's
    native search otherwise. *)
Definition Search_block (ctx : Context) (req : SearchRequest) (block : Searcher)
  : option SearchResponse * option error :=
  if IsTraceQLQuery req then ExecuteSearch ctx req (Fetch block)
  else Search_ block ctx req.

(** The derived context a block call runs under: cancelled when the
    caller's context is, or when [cancel] has been called and the call
    observes it ([sees_cancel]). *)
Definition Search_ctx (ctx : Context) (sees_cancel : bool) (st : SearchState) : Context :=
  mkContext (ctx_orgID ctx) (ctx_cancelled ctx || (sees_cancel && cancelled st)).

(** The [search] closure. *)
Definition Search_search (ctx : Context) (req : SearchRequest) (maxResults : Z)
    (sees_cancel : bool) (block : Searcher) (st : SearchState)
  : SearchState * list event :=
  let '(resp, err) := Search_block (Search_ctx ctx sees_cancel st) req block in
  let call := EvCall (blockID block) (if IsTraceQLQuery req then OpFetch else OpSearch) in
  if errors_Is_opt err ErrUnsupported then
    (st, [call; EvLog LevelWarn "block does not support search"])
  else if errors_Is_opt err Canceled then
    (* Ignore *)
    (st, [call])
  else
    match err with
    | Some e =>
      (mkSearchState (combiner st) (metrics st) (Some e) (cancelled st),
       [call; EvLog LevelError "error searching block"])
    | None =>
      match resp with
      | None => (st, [call])
      | Some resp =>
        let metrics' := addMetrics (metrics st) (Metrics resp) in
        if bool_decide (traceql.Count (combiner st) >= maxResults) then
          (mkSearchState (combiner st) metrics' (anyErr st) (cancelled st), [call])
        else
          let '(c, cancel) := addTraces maxResults (Traces resp) (combiner st) in
          (* Cancel all other tasks *)
          (mkSearchState c metrics' (anyErr st) (cancelled st || cancel), [call])
      end
    end.

(** The blocks searched concurrently: the included completing blocks,
    then the included complete blocks, one task each. *)
Definition Search_tasks (req : SearchRequest) (i : instance) : list Searcher :=
  filter (λ b, includeBlock (Meta b) req = true) (completingBlocks i) ++
  filter (λ b, includeBlock (Meta b) req = true) (completeBlocks i).

(** The fan-out.  Each task has one effect on the shared state (a store
    to [anyErr], or a merge under [resultsMtx]); [sched] lists the tasks
    in the order in which their effects take place, each with its
    cancellation observation. *)
Fixpoint Search_fanout (ctx : Context) (req : SearchRequest) (maxResults : Z)
    (tasks : list Searcher) (sched : list (nat * bool)) (st : SearchState)
  : SearchState * list event :=
  match sched with
  | [] => (st, [])
  | (k, sees_cancel) :: rest =>
    match tasks !! k with
    | None => Search_fanout ctx req maxResults tasks rest st
    | Some b =>
      let '(st', ev) := Search_search ctx req maxResults sees_cancel b st in
      let '(st'', ev') := Search_fanout ctx req maxResults tasks rest st' in
      (st'', ev ++ ev')
    end
  end.

(** A schedule of the fan-out runs every task exactly once. *)
Definition Search_schedule (req : SearchRequest) (i : instance)
    (sched : list (nat * bool)) : Prop :=
  sched.*1 ≡ₚ seq 0 (length (Search_tasks req i)).


Definition Search_response (st : SearchState) : SearchResponse :=
  mkSearchResponse (traceql.Metadata (combiner st)) (Some (metrics st)).

Definition Search_maxResults (req : SearchRequest) : Z :=
  let maxResults := int64 (req_Limit req) in
  (* if limit is not set, use a safe default *)
  if bool_decide (maxResults = 0) then 20 else maxResults.

(** [Search] with the shared state it ends with. *)
Definition Search_run (ctx : Context) (req : SearchRequest) (i : instance)
    (sched : list (nat * bool))
  : outcome SearchResponse * SearchState * list event :=
  let maxResults := Search_maxResults req in
  let st0 := mkSearchState traceql.NewMetadataCombiner (mkSearchMetrics 0 0) None false in
  (* Search headblock (synchronously) *)
  match headBlock i with
  | None => (Panic, st0, [EvRLock headBlockMtx])
  | Some h =>
    let '(st1, evHead) :=
      if includeBlock (Meta h) req then Search_search ctx req maxResults false h st0
      else (st0, []) in
    let trHead := [EvRLock headBlockMtx] ++ evHead ++ [EvRUnlock headBlockMtx] in
    match anyErr st1 with
    | Some e => (Err e, st1, trHead)
    | None =>
      if bool_decide (traceql.Count (combiner st1) >= maxResults) then
        (Ok (Search_response st1), st1, trHead)
      else
        (* Search all other blocks (concurrently) *)
        let '(st2, ev) := Search_fanout ctx req maxResults (Search_tasks req i) sched st1 in
        let tr := trHead ++ [EvRLock blocksMtx] ++ ev ++ [EvRUnlock blocksMtx] in
        match anyErr st2 with
        | Some e => (Err e, st2, tr)
        | None => (Ok (Search_response st2), st2, tr)
        end
    end
  end.

Definition Search (ctx : Context) (req : SearchRequest) (i : instance)
    (sched : list (nat * bool)) : outcome SearchResponse * list event :=
  let '(r, _, tr) := Search_run ctx req i sched in (r, tr).

(** *** Tag-value search (typed): [instance.SearchTagValuesV2]

    The head block and every complete and completing block are searched
    by a task of their own under a bounded wait group of width 20.  The
    call is modelled as a state machine: the caller and each task
    advance by one shared-memory operation at a time, in the order a
    schedule dictates. *)

Inductive task_kind : Type := HeadTask | CompleteTask | CompletingTask.

Inductive task_pc : Type :=
| TLoadErr                        (* if anyErr.Load() != nil { return nil } *)
| TCap                            (* maxBlocks > 0 && inspectedBlocks.Inc() > maxBlocks *)
| TCall                           (* s.SearchTagValuesV2 / engine.ExecuteTagValues *)
| TCollect (vals : list TagValue) (err : option error)
                                  (* valueCollector.Collect for each value handed over *)
| TStore (e : error)              (* anyErr.Store(fmt.Errorf(...)) *)
| TDone                           (* deferred wg.Done() *)
| TUnlock                         (* deferred i.headBlockMtx.RUnlock(), head task only *)
| TExit.

Record task : Type := mkTask {
  t_kind : task_kind;
  t_block : Searcher;
  t_pc : task_pc;
}.

Inductive main_pc : Type :=
| MLockHead                                   (* i.headBlockMtx.RLock() *)
| MSpawnHead (h : Searcher)                   (* wg.Add(1); go func() {...}() *)
| MLockBlocks                                 (* i.blocksMtx.RLock() *)
| MSpawnComplete (rest : list Searcher)       (* range i.completeBlocks *)
| MSpawnCompleting (rest : list Searcher)     (* range i.completingBlocks *)
| MWait                                       (* wg.Wait() *)
| MFinish                                     (* anyErr.Load() ... return *)
| MReturned (r : outcome SearchTagValuesV2Response).

Record V2State : Type := mkV2State {
  v_main : main_pc;
  v_tasks : list task;
  v_anyErr : option error;
  v_inspectedBlocks : Z;
  v_valueCollector : DistinctValue TagValue;
  v_wg : nat;
  v_trace : list event;
}.

(** What the concurrent part of the call is run with. *)
Record V2Params : Type := mkV2Params {
  p_ctx : Context;
  p_tag : Attribute;
  p_query : Matchers;
  p_maxBlocks : Z;
  p_instance : instance;
}.

(** Width of the bounded wait group: [boundedwaitgroup.New(20)]. *)
Definition poolWidth : nat := 20.

Definition kindName (k : task_kind) : string :=
  match k with
  | HeadTask => "head"
  | CompleteTask => "complete"
  | CompletingTask => "completing"
  end.

(** [wg.Add(1); go func() {...}()]: the wait group counts one more task,
    which starts at the top of its body.  The wait group is the bounded
    one of pkg/boundedwaitgroup, of which the spec says that it is a
    bounded semaphore of width 20: [Add] blocks while 20 tasks are
    outstanding, [Done] frees a slot, [Wait] returns when none is
    outstanding. *)
Definition spawned (k : task_kind) (b : Searcher) (next : main_pc) (st : V2State)
  : V2State :=
  mkV2State next (v_tasks st ++ [mkTask k b TLoadErr]) (v_anyErr st)
    (v_inspectedBlocks st) (v_valueCollector st) (S (v_wg st)) (v_trace st).

Definition spawn (k : task_kind) (b : Searcher) (next : main_pc) (st : V2State)
  : option V2State :=
  if bool_decide (v_wg st < poolWidth)%nat then Some (spawned k b next st) else None.

Definition set_main (pc : main_pc) (ev : list event) (st : V2State) : V2State :=
  mkV2State pc (v_tasks st) (v_anyErr st) (v_inspectedBlocks st) (v_valueCollector st)
    (v_wg st) (v_trace st ++ ev).

Definition V2_response (c : DistinctValue TagValue) : SearchTagValuesV2Response :=
  mkSearchTagValuesV2Response (Values c).

(** One step of the caller; [None] when it is blocked or has returned. *)
Definition main_step (p : V2Params) (st : V2State) : option V2State :=
  match v_main st with
  | MLockHead =>
    Some (set_main (match headBlock (p_instance p) with
                    | Some h => MSpawnHead h
                    | None => MLockBlocks
                    end) [EvRLock headBlockMtx] st)
  | MSpawnHead h => spawn HeadTask h MLockBlocks st
  | MLockBlocks =>
    Some (set_main (MSpawnComplete (completeBlocks (p_instance p))) [EvRLock blocksMtx] st)
  | MSpawnComplete [] =>
    Some (set_main (MSpawnCompleting (completingBlocks (p_instance p))) [] st)
  | MSpawnComplete (b :: rest) => spawn CompleteTask b (MSpawnComplete rest) st
  | MSpawnCompleting [] => Some (set_main MWait [] st)
  | MSpawnCompleting (b :: rest) => spawn CompletingTask b (MSpawnCompleting rest) st
  | MWait => if bool_decide (v_wg st = 0%nat) then Some (set_main MFinish [] st) else None
  | MFinish =>
    match v_anyErr st with
    | Some e => Some (set_main (MReturned (Err e)) [EvRUnlock blocksMtx] st)
    | None =>
      let warn := if ValueExceeded (v_valueCollector st) then [tagValuesWarning] else [] in
      Some (set_main (MReturned (Ok (V2_response (v_valueCollector st))))
              (warn ++ [EvRUnlock blocksMtx]) st)
    end
  | MReturned _ => None
  end.

Definition set_task (k : nat) (t : task) (pc : task_pc) (st : V2State) : V2State :=
  mkV2State (v_main st) (<[k := mkTask (t_kind t) (t_block t) pc]> (v_tasks st))
    (v_anyErr st) (v_inspectedBlocks st) (v_valueCollector st) (v_wg st) (v_trace st).

(** The per-block call of [searchBlock]. *)
Definition V2_block (p : V2Params) (s : Searcher) : list TagValue * option error :=
  if IsEmptyQuery (p_query p) then SearchTagValuesV2_ s (p_ctx p) (p_tag p)
  else ExecuteTagValues (p_ctx p) (p_tag p) (p_query p) (FetchTagValues s).

Definition V2_call_event (p : V2Params) (s : Searcher) : event :=
  EvCall (blockID s) (if IsEmptyQuery (p_query p) then OpSearchTagValuesV2 else OpFetchTagValues).

(** The shared variables after a task's operation. *)
Definition set_inspectedBlocks (n : Z) (st : V2State) : V2State :=
  mkV2State (v_main st) (v_tasks st) (v_anyErr st) n (v_valueCollector st)
    (v_wg st) (v_trace st).
Definition set_valueCollector (c : DistinctValue TagValue) (st : V2State) : V2State :=
  mkV2State (v_main st) (v_tasks st) (v_anyErr st) (v_inspectedBlocks st) c
    (v_wg st) (v_trace st).
Definition set_anyErr (e : error) (st : V2State) : V2State :=
  mkV2State (v_main st) (v_tasks st) (Some e) (v_inspectedBlocks st)
    (v_valueCollector st) (v_wg st) (v_trace st).
Definition wg_Done (st : V2State) : V2State :=
  mkV2State (v_main st) (v_tasks st) (v_anyErr st) (v_inspectedBlocks st)
    (v_valueCollector st) (pred (v_wg st)) (v_trace st).
Definition emit (ev : list event) (st : V2State) : V2State :=
  mkV2State (v_main st) (v_tasks st) (v_anyErr st) (v_inspectedBlocks st)
    (v_valueCollector st) (v_wg st) (v_trace st ++ ev).

Definition V2_wrapped (t : task) (e : error) : error :=
  Errorf ("unexpected error searching " +:+ kindName (t_kind t) +:+ " block ("
          +:+ blockID (t_block t) +:+ ")") e.

(** One step of task [k]; [None] when it has exited or does not exist. *)
Definition task_step (p : V2Params) (k : nat) (st : V2State) : option V2State :=
  match v_tasks st !! k with
  | None => None
  | Some t =>
    match t_pc t with
    | TLoadErr =>
      (* Early exit if any error has occurred *)
      Some (set_task k t (match v_anyErr st with Some _ => TDone | None => TCap end) st)
    | TCap =>
      if bool_decide (p_maxBlocks p > 0) then
        let n := int32 (v_inspectedBlocks st + 1) in
        Some (set_task k t (if bool_decide (n > p_maxBlocks p) then TDone else TCall)
                (set_inspectedBlocks n st))
      else Some (set_task k t TCall st)
    | TCall =>
      let '(vals, err) := V2_block p (t_block t) in
      Some (set_task k t (TCollect vals err) (emit [V2_call_event p (t_block t)] st))
    | TCollect (v :: vals) err =>
      Some (set_task k t (TCollect vals err)
              (set_valueCollector (ValueCollect (v_valueCollector st) v) st))
    | TCollect [] None => Some (set_task k t TDone st)
    | TCollect [] (Some e) => Some (set_task k t (TStore e) st)
    | TStore e => Some (set_task k t TDone (set_anyErr (V2_wrapped t e) st))
    | TDone =>
      Some (set_task k t (match t_kind t with HeadTask => TUnlock | _ => TExit end)
              (wg_Done st))
    | TUnlock => Some (set_task k t TExit (emit [EvRUnlock headBlockMtx] st))
    | TExit => None
    end
  end.

(** A schedule names, step by step, who moves next: 0 is the caller,
    [S k] the task spawned k-th.  A choice that cannot move is skipped. *)
Definition V2_step (p : V2Params) (tid : nat) (st : V2State) : option V2State :=
  match tid with
  | O => main_step p st
  | S k => task_step p k st
  end.

Definition V2_run (p : V2Params) (sched : list nat) (st : V2State) : V2State :=
  foldl (λ st tid, default st (V2_step p tid st)) st sched.

Definition V2_init (limit : Z) : V2State :=
  mkV2State MLockHead [] None 0
    (NewDistinctValue limit (λ v : TagValue, strlen (tv_Type v) + strlen (tv_Value v)))
    0 [].

Definition V2_result (st : V2State) : option (outcome SearchTagValuesV2Response) :=
  match v_main st with
  | MReturned r => Some r
  | _ => None
  end.

Definition is_ID_intrinsic (tag : Attribute) : bool :=
  bool_decide (tag = IntrinsicLinkTraceIDAttribute) ||
  bool_decide (tag = IntrinsicLinkSpanIDAttribute) ||
  bool_decide (tag = IntrinsicSpanIDAttribute) ||
  bool_decide (tag = IntrinsicTraceIDAttribute).

(** *** The steps as relations

    The same steps, case by case: [task_moves p st t pc' st'] says that
    task [t], in state [st], moves to [pc'] and leaves the shared
    variables as in [st']; [main_moves] is the caller's. *)
Inductive task_moves (p : V2Params) (st : V2State) (t : task) : task_pc → V2State → Prop :=
| moves_load_exit e :
    t_pc t = TLoadErr → v_anyErr st = Some e → task_moves p st t TDone st
| moves_load_go :
    t_pc t = TLoadErr → v_anyErr st = None → task_moves p st t TCap st
| moves_cap_over :
    t_pc t = TCap → p_maxBlocks p > 0 →
    int32 (v_inspectedBlocks st + 1) > p_maxBlocks p →
    task_moves p st t TDone (set_inspectedBlocks (int32 (v_inspectedBlocks st + 1)) st)
| moves_cap_pass :
    t_pc t = TCap → p_maxBlocks p > 0 →
    ¬ int32 (v_inspectedBlocks st + 1) > p_maxBlocks p →
    task_moves p st t TCall (set_inspectedBlocks (int32 (v_inspectedBlocks st + 1)) st)
| moves_cap_open :
    t_pc t = TCap → ¬ p_maxBlocks p > 0 → task_moves p st t TCall st
| moves_call :
    t_pc t = TCall →
    task_moves p st t (TCollect (V2_block p (t_block t)).1 (V2_block p (t_block t)).2)
      (emit [V2_call_event p (t_block t)] st)
| moves_collect v vals err :
    t_pc t = TCollect (v :: vals) err →
    task_moves p st t (TCollect vals err)
      (set_valueCollector (ValueCollect (v_valueCollector st) v) st)
| moves_collected :
    t_pc t = TCollect [] None → task_moves p st t TDone st
| moves_failed e :
    t_pc t = TCollect [] (Some e) → task_moves p st t (TStore e) st
| moves_store e :
    t_pc t = TStore e → task_moves p st t TDone (set_anyErr (V2_wrapped t e) st)
| moves_done_head :
    t_pc t = TDone → t_kind t = HeadTask → task_moves p st t TUnlock (wg_Done st)
| moves_done_other :
    t_pc t = TDone → t_kind t ≠ HeadTask → task_moves p st t TExit (wg_Done st)
| moves_unlock :
    t_pc t = TUnlock → task_moves p st t TExit (emit [EvRUnlock headBlockMtx] st).

Inductive main_moves (p : V2Params) (st : V2State) : V2State → Prop :=
| moves_lock_head :
    v_main st = MLockHead →
    main_moves p st
      (set_main (match headBlock (p_instance p) with
                 | Some h => MSpawnHead h
                 | None => MLockBlocks
                 end) [EvRLock headBlockMtx] st)
| moves_spawn_head h :
    v_main st = MSpawnHead h → (v_wg st < poolWidth)%nat →
    main_moves p st (spawned HeadTask h MLockBlocks st)
| moves_lock_blocks :
    v_main st = MLockBlocks →
    main_moves p st
      (set_main (MSpawnComplete (completeBlocks (p_instance p))) [EvRLock blocksMtx] st)
| moves_complete_done :
    v_main st = MSpawnComplete [] →
    main_moves p st (set_main (MSpawnCompleting (completingBlocks (p_instance p))) [] st)
| moves_spawn_complete b rest :
    v_main st = MSpawnComplete (b :: rest) → (v_wg st < poolWidth)%nat →
    main_moves p st (spawned CompleteTask b (MSpawnComplete rest) st)
| moves_completing_done :
    v_main st = MSpawnCompleting [] → main_moves p st (set_main MWait [] st)
| moves_spawn_completing b rest :
    v_main st = MSpawnCompleting (b :: rest) → (v_wg st < poolWidth)%nat →
    main_moves p st (spawned CompletingTask b (MSpawnCompleting rest) st)
| moves_wait :
    v_main st = MWait → v_wg st = 0%nat → main_moves p st (set_main MFinish [] st)
| moves_finish_err e :
    v_main st = MFinish → v_anyErr st = Some e →
    main_moves p st (set_main (MReturned (Err e)) [EvRUnlock blocksMtx] st)
| moves_finish_ok :
    v_main st = MFinish → v_anyErr st = None →
    main_moves p st
      (set_main (MReturned (Ok (V2_response (v_valueCollector st))))
         ((if ValueExceeded (v_valueCollector st) then [tagValuesWarning] else [])
          ++ [EvRUnlock blocksMtx]) st).

(** A step of the whole call. *)
Inductive V2_moves (p : V2Params) (st : V2State) : V2State → Prop :=
| moves_main st' : main_moves p st st' → V2_moves p st st'
| moves_task k t pc' st' :
    v_tasks st !! k = Some t → task_moves p st t pc' st' →
    V2_moves p st (set_task k t pc' st').

(** *** Counting tasks by where they stand *)
Definition count_tasks (f : task → bool) (ts : list task) : nat :=
  sum_list_with (λ t, Nat.b2n (f t)) ts.

(** Has not reached the block cap check yet. *)
Definition before_cap (t : task) : bool :=
  match t_pc t with TLoadErr | TCap => true | _ => false end.
(** Has passed the checks and is about to call the Searcher. *)
Definition at_call (t : task) : bool :=
  match t_pc t with TCall => true | _ => false end.
(** Is past the point of the Searcher call. *)
Definition past_call (t : task) : bool :=
  match t_pc t with TLoadErr | TCap | TCall => false | _ => true end.
(** Has not called [wg.Done] yet. *)
Definition live (t : task) : bool :=
  match t_pc t with TUnlock | TExit => false | _ => true end.
Definition is_head (t : task) : bool :=
  match t_kind t with HeadTask => true | _ => false end.
(** The head task after its deferred unlock. *)
Definition head_unlocked (t : task) : bool :=
  is_head t && match t_pc t with TExit => true | _ => false end.

(** The number of tasks the caller has still to start. *)
Definition to_spawn (p : V2Params) (pc : main_pc) : nat :=
  match pc with
  | MLockHead => length (allBlocks (p_instance p))
  | MSpawnHead _ =>
    S (length (completeBlocks (p_instance p)) + length (completingBlocks (p_instance p)))
  | MLockBlocks =>
    length (completeBlocks (p_instance p)) + length (completingBlocks (p_instance p))
  | MSpawnComplete rest => length rest + length (completingBlocks (p_instance p))
  | MSpawnCompleting rest => length rest
  | _ => 0
  end.

(** *** A measure of the work left, for termination *)
Definition block_steps (p : V2Params) (b : Searcher) : nat := length (V2_block p b).1.

Definition task_measure (p : V2Params) (t : task) : nat :=
  match t_pc t with
  | TLoadErr => block_steps p (t_block t) + 7
  | TCap => block_steps p (t_block t) + 6
  | TCall => block_steps p (t_block t) + 5
  | TCollect vals _ => length vals + 4
  | TStore _ => 3
  | TDone => 2
  | TUnlock => 1
  | TExit => 0
  end.

Definition blocks_measure (p : V2Params) (bs : list Searcher) : nat :=
  sum_list_with (λ b, block_steps p b + 8)%nat bs.

Definition main_measure (p : V2Params) (pc : main_pc) : nat :=
  let i := p_instance p in
  match pc with
  | MLockHead =>
    7 + blocks_measure p (option_list (headBlock i)) +
    blocks_measure p (completeBlocks i) + blocks_measure p (completingBlocks i)
  | MSpawnHead h =>
    6 + blocks_measure p [h] +
    blocks_measure p (completeBlocks i) + blocks_measure p (completingBlocks i)
  | MLockBlocks =>
    5 + blocks_measure p (completeBlocks i) + blocks_measure p (completingBlocks i)
  | MSpawnComplete rest => 4 + blocks_measure p rest + blocks_measure p (completingBlocks i)
  | MSpawnCompleting rest => 3 + blocks_measure p rest
  | MWait => 2
  | MFinish => 1
  | MReturned _ => 0
  end.

Definition V2_measure (p : V2Params) (st : V2State) : nat :=
  main_measure p (v_main st) + sum_list_with (task_measure p) (v_tasks st).

(** The entry of [SearchTagValuesV2], up to the locks: either the call
    returns at once, or it goes on with a byte limit and the parameters
    of its concurrent part. *)
Definition SearchTagValuesV2_entry (ctx : Context) (req : SearchTagValuesRequest)
    (i : instance) : outcome SearchTagValuesV2Response + Z * V2Params :=
  let '(userID, err) := ExtractOrgID ctx in
  match err with
  | Some e => inl (Err e)
  | None =>
    let limit := MaxBytesPerTagValuesQuery (limits i) userID in
    let maxBlocks :=
      let limit := MaxBlocksPerTagValuesQuery (limits i) userID in
      if bool_decide (limit > 0) then int32 limit else 0 in
    let '(tag, err) := ParseIdentifier (tvr_TagName req) in
    match err with
    | Some e => inl (Err e)
    | None =>
      if is_ID_intrinsic tag then
        (* do not return tag values for IDs *)
        inl (Ok (mkSearchTagValuesV2Response []))
      else
        inr (limit, mkV2Params ctx tag (ExtractMatchers (tvr_Query req)) maxBlocks i)
    end
  end.

(** [SearchTagValuesV2] under a schedule: what the call returns, if the
    schedule brings it to its return, and the events up to there. *)
Definition SearchTagValuesV2 (ctx : Context) (req : SearchTagValuesRequest)
    (i : instance) (sched : list nat)
  : option (outcome SearchTagValuesV2Response) * list event :=
  match SearchTagValuesV2_entry ctx req i with
  | inl r => (Some r, [])
  | inr (limit, p) =>
    let st := V2_run p sched (V2_init limit) in
    (V2_result st, v_trace st)
  end.

(** *** Blocks that raise no fatal error *)

(** An error the sequential tag surfaces skip: nil or an
    [ErrUnsupported]. *)
Definition nil_or_unsupported (err : option error) : Prop :=
  match err with
  | None => True
  | Some e => errors_Is e ErrUnsupported = true
  end.

(** The block raises no error that stops the typed tag-name search: on
    the native path [ErrUnsupported] is tolerated, on the evaluator
    path no error is. *)
Definition SearchTagsV2_quiet (ctx : Context) (attributeScope : AttributeScope)
    (query : Matchers) (b : Searcher) : Prop :=
  if IsEmptyQuery query then nil_or_unsupported (SearchTags_ b ctx attributeScope).2
  else (ExecuteTagNames ctx attributeScope query (FetchTagNames b)).2 = None.

(** The block raises no error that stops the flat tag-value search. *)
Definition SearchTagValues_quiet (ctx : Context) (tagName : string) (b : Searcher) : Prop :=
  nil_or_unsupported (SearchTagValues_ b ctx tagName).2.

(** The block raises no error in the typed tag-value search (which
    latches every error, [ErrUnsupported] included). *)
Definition V2_quiet (p : V2Params) (b : Searcher) : Prop := (V2_block p b).2 = None.

(** *** The flat tag-name response with the intrinsic scope always
    dropped, whatever the caller's scope (the reading under which
    intrinsics never appear in the flat output). *)
Definition flatten_without_intrinsic (scopes : list SearchTagsV2Scope) : DistinctString :=
  foldl (λ distinctValues s,
           if bool_decide (scope_Name s = ParamScopeIntrinsic) then distinctValues
           else foldl Collect distinctValues (scope_Tags s))
        (NewDistinctString 0) scopes.

(** *** Invariants of the typed tag-value search *)

(** The wait group counts the tasks that have not called [Done]; it is
    at zero once the caller is past [Wait]; as many tasks are started,
    in the end, as there are blocks. *)
Definition wg_inv (p : V2Params) (st : V2State) : Prop :=
  v_wg st = count_tasks live (v_tasks st) ∧
  (match v_main st with MFinish | MReturned _ => v_wg st = 0%nat | _ => True end) ∧
  (length (v_tasks st) + to_spawn p (v_main st) = length (allBlocks (p_instance p)))%nat.

(** The head lock is held from the caller's first step until the head
    task's deferred unlock; only a head task unlocks, and there is one
    exactly when the head block is not nil. *)
Definition head_inv (p : V2Params) (st : V2State) : Prop :=
  held headBlockMtx (v_trace st) + Z.of_nat (count_tasks head_unlocked (v_tasks st)) =
    (match v_main st with MLockHead => 0 | _ => 1 end) ∧
  Forall (λ t, t_pc t = TUnlock → is_head t = true) (v_tasks st) ∧
  count_tasks is_head (v_tasks st) =
    (match v_main st with
     | MLockHead | MSpawnHead _ => 0%nat
     | _ => length (option_list (headBlock (p_instance p)))
     end) ∧
  (∀ h, v_main st = MSpawnHead h → headBlock (p_instance p) = Some h).

(** Events other than an acquisition of the head lock or an exclusive
    lock operation. *)
Definition benign (e : event) : bool :=
  match e with
  | EvRLock headBlockMtx | EvLock _ | EvUnlock _ => false
  | _ => true
  end.

(** The head lock is the first thing taken, once. *)
Definition order_inv (st : V2State) : Prop :=
  match v_main st with
  | MLockHead => v_trace st = []
  | _ => ∃ tr, v_trace st = EvRLock headBlockMtx :: tr ∧ Forall (λ e, benign e = true) tr
  end.

(** Searcher calls are made by tasks that are past the call. *)
Definition calls_inv (st : V2State) : Prop :=
  (calls (v_trace st) ≤ count_tasks past_call (v_tasks st))%nat.

(** Under a positive cap: the tasks let through are counted by
    [inspectedBlocks] and do not exceed the cap. *)
Definition cap_inv (p : V2Params) (st : V2State) : Prop :=
  0 ≤ v_inspectedBlocks st ∧
  v_inspectedBlocks st + Z.of_nat (count_tasks before_cap (v_tasks st))
    ≤ Z.of_nat (length (v_tasks st)) ∧
  Z.of_nat (calls (v_trace st) + count_tasks at_call (v_tasks st)) ≤ v_inspectedBlocks st ∧
  Z.of_nat (calls (v_trace st) + count_tasks at_call (v_tasks st)) ≤ p_maxBlocks p.

(** The blocks the caller has still to start tasks for. *)
Definition pending_blocks (pc : main_pc) : list Searcher :=
  match pc with
  | MSpawnHead h => [h]
  | MSpawnComplete rest | MSpawnCompleting rest => rest
  | _ => []
  end.

(** When no block raises an error, none is ever latched. *)
Definition quiet_inv (p : V2Params) (st : V2State) : Prop :=
  v_anyErr st = None ∧
  Forall (V2_quiet p) (pending_blocks (v_main st)) ∧
  Forall (λ t, V2_quiet p (t_block t) ∧
               match t_pc t with
               | TStore _ | TCollect _ (Some _) => False
               | _ => True
               end) (v_tasks st).

(** What the caller returns is decided by [anyErr] alone; an overflown
    collector only adds the warning. *)
Definition result_inv (st : V2State) : Prop :=
  match v_main st with
  | MReturned r =>
    r = match v_anyErr st with
        | Some e => Err e
        | None => Ok (V2_response (v_valueCollector st))
        end ∧
    (v_anyErr st = None → ValueExceeded (v_valueCollector st) = true →
     tagValuesWarning ∈ v_trace st)
  | _ => True
  end.

(** Without a cap and without errors every task that got past the call
    has made it. *)
Definition uncapped_inv (st : V2State) : Prop :=
  calls (v_trace st) = count_tasks past_call (v_tasks st).

(** *** The blocks by the role they are searched in *)

(** The blocks a task of the given kind is started for; the same three
    names appear in the messages of the wrapped errors. *)
Definition kind_blocks (i : instance) (k : task_kind) : list Searcher :=
  match k with
  | HeadTask => option_list (headBlock i)
  | CompleteTask => completeBlocks i
  | CompletingTask => completingBlocks i
  end.

(** [fmt.Errorf("unexpected error searching %s block (%s): %w", ...)]. *)
Definition block_error (k : task_kind) (b : Searcher) (e : error) : error :=
  Errorf ("unexpected error searching " +:+ kindName k +:+ " block (" +:+ blockID b +:+ ")") e.

(** What the typed tag-name search does with the error of one block:
    on the native path an error other than [ErrUnsupported] is wrapped,
    on the evaluator path every error is handed on as it is. *)
Definition SearchTagsV2_block_error (ctx : Context) (attributeScope : AttributeScope)
    (query : Matchers) (b : Searcher) (e : error) : Prop :=
  if IsEmptyQuery query then
    ∃ e0, (SearchTags_ b ctx attributeScope).2 = Some e0 ∧
          errors_Is e0 ErrUnsupported = false ∧
          e = Errorf "unexpected error searching tags" e0
  else (ExecuteTagNames ctx attributeScope query (FetchTagNames b)).2 = Some e.

(** *** Further invariants of the typed tag-value search *)

(** The lock a task's block is protected by. *)
Definition lock_of (t : task) : lock :=
  match t_kind t with
  | HeadTask => headBlockMtx
  | _ => blocksMtx
  end.

(** The head task up to its deferred unlock. *)
Definition head_locked (t : task) : bool :=
  is_head t && match t_pc t with TExit => false | _ => true end.

(** Is through with its block: only the deferred calls are left. *)
Definition finished (t : task) : bool :=
  match t_pc t with TDone | TUnlock | TExit => true | _ => false end.

(** Never more tasks outstanding than the wait group is wide. *)
Definition pool_inv (st : V2State) : Prop := (v_wg st ≤ poolWidth)%nat.

(** The blocks lock is held from the caller's second lock operation to
    its return, and before that only the head task exists. *)
Definition blocks_lock_inv (st : V2State) : Prop :=
  held blocksMtx (v_trace st) =
    (match v_main st with
     | MLockHead | MSpawnHead _ | MLockBlocks | MReturned _ => 0
     | _ => 1
     end) ∧
  (match v_main st with
   | MLockHead | MSpawnHead _ | MLockBlocks => Forall (λ t, is_head t = true) (v_tasks st)
   | _ => True
   end).

(** A task searches a block of the registry, of its own kind, and what
    it carries after the call is what the call on that block gave. *)
Definition task_wf (p : V2Params) (t : task) : Prop :=
  t_block t ∈ kind_blocks (p_instance p) (t_kind t) ∧
  match t_pc t with
  | TCollect vals err =>
    err = (V2_block p (t_block t)).2 ∧ vals ⊆ (V2_block p (t_block t)).1
  | TStore e => (V2_block p (t_block t)).2 = Some e
  | _ => True
  end.

(** The blocks the caller has still to start tasks for are blocks of
    the registry. *)
Definition pending_wf (p : V2Params) (pc : main_pc) : Prop :=
  match pc with
  | MSpawnHead h => headBlock (p_instance p) = Some h
  | MSpawnComplete rest => rest ⊆ completeBlocks (p_instance p)
  | MSpawnCompleting rest => rest ⊆ completingBlocks (p_instance p)
  | _ => True
  end.

(** Where the latched error and the collected values come from. *)
Definition origin_inv (p : V2Params) (st : V2State) : Prop :=
  Forall (task_wf p) (v_tasks st) ∧
  pending_wf p (v_main st) ∧
  (∀ e, v_anyErr st = Some e →
     ∃ k b e0, b ∈ kind_blocks (p_instance p) k ∧ (V2_block p b).2 = Some e0 ∧
               e = block_error k b e0) ∧
  (∀ v, v ∈ dv_values (v_valueCollector st) →
     ∃ b, b ∈ allBlocks (p_instance p) ∧ v ∈ (V2_block p b).1).

(** All the blocks the caller has still to start tasks for, in the
    order in which it starts them. *)
Definition remaining (p : V2Params) (pc : main_pc) : list Searcher :=
  let i := p_instance p in
  match pc with
  | MLockHead => option_list (headBlock i) ++ completeBlocks i ++ completingBlocks i
  | MSpawnHead h => h :: completeBlocks i ++ completingBlocks i
  | MLockBlocks => completeBlocks i ++ completingBlocks i
  | MSpawnComplete rest => rest ++ completingBlocks i
  | MSpawnCompleting rest => rest
  | _ => []
  end.

(** Every block of the registry has a task or is still to get one. *)
Definition cover_inv (p : V2Params) (st : V2State) : Prop :=
  ∀ b, b ∈ allBlocks (p_instance p) →
       b ∈ t_block <$> v_tasks st ∨ b ∈ remaining p (v_main st).

(** Without a cap, as long as no error is latched, a task that is
    through with its block has searched a block that raised no error. *)
Definition strict_inv (p : V2Params) (st : V2State) : Prop :=
  v_anyErr st = None →
  Forall (λ t, finished t = true → V2_quiet p (t_block t)) (v_tasks st).

(** A typed collector without a byte limit that has not overflowed. *)
Definition unlimited_values (d : DistinctValue TagValue) : Prop :=
  dv_maxLen d ≤ 0 ∧ dv_limExceeded d = false.

(** Without a cap and a byte limit, as long as no error is latched,
    every value of a block is in the collector or still in the hands of
    the block's task. *)
Definition full_inv (p : V2Params) (st : V2State) : Prop :=
  unlimited_values (v_valueCollector st) ∧
  (v_anyErr st = None →
   Forall (λ t, match t_pc t with
                | TLoadErr | TCap | TCall => True
                | TCollect vals _ =>
                  ∀ v, v ∈ (V2_block p (t_block t)).1 →
                       v ∈ vals ∨ v ∈ dv_values (v_valueCollector st)
                | _ =>
                  ∀ v, v ∈ (V2_block p (t_block t)).1 →
                       v ∈ dv_values (v_valueCollector st)
                end) (v_tasks st)).

(** *** What the typed tag-name search collects *)

(** The tags the call on one block hands to the collector, each with
    the scope it is reported under. *)
Definition SearchTagsV2_block_tags (ctx : Context) (attributeScope : AttributeScope)
    (query : Matchers) (b : Searcher) : list (string * AttributeScope) :=
  if IsEmptyQuery query then (SearchTags_ b ctx attributeScope).1
  else (ExecuteTagNames ctx attributeScope query (FetchTagNames b)).1.

(** The scoped collector holds tag [t] under the scope named [name]. *)
Definition holds (d : ScopedDistinctString) (name t : string) : Prop :=
  ∃ col, sds_cols d !! name = Some col ∧ t ∈ col.

(** A scoped collector without a byte limit that has not overflowed. *)
Definition unlimited_scoped (d : ScopedDistinctString) : Prop :=
  sds_maxLen d ≤ 0 ∧ sds_limExceeded d = false.

(** Some block of the list reports tag [t] under the scope named
    [name]. *)
Definition reported (ctx : Context) (attributeScope : AttributeScope) (query : Matchers)
    (blocks : list Searcher) (name t : string) : Prop :=
  ∃ b scope, b ∈ blocks ∧
             (t, scope) ∈ SearchTagsV2_block_tags ctx attributeScope query b ∧
             AttributeScope_String scope = name.

(** *** The order of the two locks on a trace, further *)

(** The head lock is the first thing taken, and it is taken once:
    whatever else a trace does comes after the acquisition of the head
    lock, and the head lock is not acquired again. *)
Definition head_taken_first (tr : list event) : bool :=
  match tr with
  | [] => true
  | e :: tr' => bool_decide (e = EvRLock headBlockMtx) && forallb benign tr'
  end.

(** The blocks lock is never acquired while the head lock is held:
    where both are taken, the head lock has been given back before the
    blocks lock is acquired.  [head_held] counts the locks on
    [headBlockMtx] held at the current point of the trace. *)
Fixpoint head_released_first (head_held : nat) (tr : list event) : bool :=
  match tr with
  | [] => true
  | EvRLock blocksMtx :: tr' | EvLock blocksMtx :: tr' =>
    bool_decide (head_held = 0%nat) && head_released_first head_held tr'
  | EvRLock headBlockMtx :: tr' | EvLock headBlockMtx :: tr' =>
    head_released_first (S head_held) tr'
  | EvRUnlock headBlockMtx :: tr' | EvUnlock headBlockMtx :: tr' =>
    head_released_first (pred head_held) tr'
  | _ :: tr' => head_released_first head_held tr'
  end.

(** *** What the collectors are fed *)

(** The blocks the flat tag-value search gets to under a block cap: the
    first [maxBlocks] of the registry, all of them without a cap. *)
Definition searched_blocks (maxBlocks : Z) (blocks : list Searcher) : list Searcher :=
  if bool_decide (maxBlocks > 0) then take (Z.to_nat maxBlocks) blocks else blocks.

(** The flat tag-value search has gone from the closure state [st] to the
    state [st'] by going through [blocks]: the collector of [st'] is the
    collector of [st] fed the values of the blocks the cap still allows,
    and the counter has gone up by their number unless the collector
    overflowed on the way. *)
Definition fed (ctx : Context) (tagName : string) (maxBlocks : Z)
    (st : TagValuesState) (blocks : list Searcher) (st' : TagValuesState) : Prop :=
  if bool_decide (maxBlocks > 0) then
    let allowed := take (Z.to_nat (maxBlocks - inspectedBlocks st)) blocks in
    distinctValues st' =
      foldl Collect (distinctValues st)
        (concat ((λ b, (SearchTagValues_ b ctx tagName).1) <$> allowed)) ∧
    inspectedBlocks st ≤ inspectedBlocks st' ≤ maxBlocks ∧
    (Exceeded (distinctValues st') = true ∨
     inspectedBlocks st' = inspectedBlocks st + Z.of_nat (length allowed))
  else
    distinctValues st' =
      foldl Collect (distinctValues st)
        (concat ((λ b, (SearchTagValues_ b ctx tagName).1) <$> blocks)).

(** The order in which the typed tag-value search starts its tasks. *)
Definition V2_order (i : instance) : list Searcher :=
  option_list (headBlock i) ++ completeBlocks i ++ completingBlocks i.

(** The values a task has still to hand to the collector. *)
Definition pending_values (t : task) : list TagValue :=
  match t_pc t with TCollect vals _ => vals | _ => [] end.

(** The values the call of a task has produced, once it is made. *)
Definition called_values (p : V2Params) (t : task) : list TagValue :=
  if past_call t then (V2_block p (t_block t)).1 else [].

(** The typed collector is its initial state fed the sequence [vs], each
    value of which comes from the call on a block of the registry;
    without a cap, as long as no error is latched, the values fed and the
    values still in the hands of the tasks are, together, the values of
    the calls made. *)
Definition fed_by (p : V2Params) (limit : Z) (st : V2State) (vs : list TagValue) : Prop :=
  v_valueCollector st = foldl ValueCollect (v_valueCollector (V2_init limit)) vs ∧
  (∀ v, v ∈ vs → ∃ b, b ∈ allBlocks (p_instance p) ∧ v ∈ (V2_block p b).1) ∧
  (¬ p_maxBlocks p > 0 → v_anyErr st = None →
   vs ++ concat (pending_values <$> v_tasks st) ≡ₚ
     concat (called_values p <$> v_tasks st)).

Definition fed_inv (p : V2Params) (limit : Z) (st : V2State) : Prop :=
  ∃ vs, fed_by p limit st vs.

(** The tasks are started in the order of [V2_order]. *)
Definition spawn_inv (p : V2Params) (st : V2State) : Prop :=
  (t_block <$> v_tasks st) ++ remaining p (v_main st) = V2_order (p_instance p).

(** The values a block reports to the typed tag-value search: those of
    its own search when the query is empty, those of the evaluator run
    over it otherwise. *)
Definition SearchTagValuesV2_block_values (ctx : Context) (tag : Attribute)
    (query : Matchers) (b : Searcher) : list TagValue :=
  if IsEmptyQuery query then (SearchTagValuesV2_ b ctx tag).1
  else (ExecuteTagValues ctx tag query (FetchTagValues b)).1.

End Ingester.

Arguments Searcher {E}.
Arguments instance {E}.

(** ** A small instantiation, used to run the model on concrete inputs *)
Module Fixture.

Inductive Scope : Type := ScopeNone | ScopeResource | ScopeSpan | ScopeUnknown.
#[global] Instance Scope_eq_dec : EqDecision Scope.
Proof. solve_decision. Defined.

Definition scopeFromString (s : string) : Scope :=
  if bool_decide (s = ""%string) then ScopeNone
  else if bool_decide (s = "none"%string) then ScopeNone
  else if bool_decide (s = "resource"%string) then ScopeResource
  else if bool_decide (s = "span"%string) then ScopeSpan
  else ScopeUnknown.

Definition scopeString (s : Scope) : string :=
  match s with
  | ScopeNone => "none"
  | ScopeResource => "resource"
  | ScopeSpan => "span"
  | ScopeUnknown => "unknown"
  end.

Inductive Attr : Type :=
| LinkTraceID | LinkSpanID | SpanID | TraceIDAttr
| Named (name : string).
#[global] Instance Attr_eq_dec : EqDecision Attr.
Proof. solve_decision. Defined.

Definition parseIdentifier (s : string) : Attr * option error :=
  if bool_decide (s = ""%string) then (Named "", Some (ErrorString "empty identifier"))
  else if bool_decide (s = "trace:id"%string) then (TraceIDAttr, None)
  else if bool_decide (s = "span:id"%string) then (SpanID, None)
  else if bool_decide (s = "link:traceID"%string) then (LinkTraceID, None)
  else if bool_decide (s = "link:spanID"%string) then (LinkSpanID, None)
  else (Named s, None).

#[global] Instance externals : Externals := {|
  AttributeScope := Scope;
  AttributeScopeNone := ScopeNone;
  AttributeScopeUnknown := ScopeUnknown;
  AttributeScopeFromString := scopeFromString;
  AttributeScope_String := scopeString;
  Attribute := Attr;
  IntrinsicLinkTraceIDAttribute := LinkTraceID;
  IntrinsicLinkSpanIDAttribute := LinkSpanID;
  IntrinsicSpanIDAttribute := SpanID;
  IntrinsicTraceIDAttribute := TraceIDAttr;
  ParseIdentifier := parseIdentifier;
  Matchers := string;
  ExtractMatchers := λ q, q;
  IsEmptyQuery := λ q, bool_decide (q = ""%string);
  IsTraceQLQuery := λ req, negb (bool_decide (req_Query req = ""%string));
  GetVirtualIntrinsicValues := ["duration"; "status"]%string;
  FetchSpansRequest := unit;
  FetchSpansResponse := unit;
  FetchTagsRequest := unit;
  FetchTagValuesRequest := unit;
  ExecuteSearch := λ ctx req fetch, (None, (fetch ctx ()).2);
  ExecuteTagNames := λ ctx scope q fetch, fetch ctx ();
  ExecuteTagValues := λ ctx tag q fetch, fetch ctx ();
|}.

Definition tenant : Context := mkContext (Some "tenant-1"%string) false.

Definition trace (id : string) (start : Z) : TraceSearchMetadata :=
  mkTraceSearchMetadata id "svc" start.

(** A block holding the given traces, tags and tag values; every call
    on it succeeds. *)
Definition block (id : string) (traces : list TraceSearchMetadata)
    (tags : list string) (values : list string) : Searcher :=
  {| Meta := mkBlockMeta id 100000000000 200000000000;
     Search_ := λ _ _, (Some (mkSearchResponse traces (Some (mkSearchMetrics 1 10))), None);
     Fetch := λ _ _, ((), None);
     SearchTags_ := λ _ scope, ((λ t, (t, ScopeSpan)) <$> tags, None);
     FetchTagNames := λ _ _, ((λ t, (t, ScopeSpan)) <$> tags, None);
     SearchTagValues_ := λ _ _, (values, None);
     SearchTagValuesV2_ := λ _ _, (mkTagValue "string" <$> values, None);
     FetchTagValues := λ _ _, (mkTagValue "string" <$> values, None) |}.

(** A block on which every call fails with [e]. *)
Definition failing (id : string) (e : error) : Searcher :=
  {| Meta := mkBlockMeta id 100000000000 200000000000;
     Search_ := λ _ _, (None, Some e);
     Fetch := λ _ _, ((), Some e);
     SearchTags_ := λ _ _, ([], Some e);
     FetchTagNames := λ _ _, ([], Some e);
     SearchTagValues_ := λ _ _, ([], Some e);
     SearchTagValuesV2_ := λ _ _, ([], Some e);
     FetchTagValues := λ _ _, ([], Some e) |}.

Definition limitsOf (maxBytes maxBlocks : Z) : Limits :=
  mkLimits (λ _, maxBytes) (λ _, maxBlocks).

Definition head : Searcher :=
  block "head" [trace "t1" 5; trace "t2" 7; trace "t3" 9] ["a"; "b"] ["x"; "y"].
Definition wal : Searcher := block "wal-1" [trace "t3" 9; trace "t4" 11] ["c"] ["z"].
Definition blk : Searcher := block "blk-1" [trace "t5" 13] ["d"] ["w"].

(** A registry with a head block, one completing and one complete
    block, under the given limits. *)
Definition registry (maxBytes maxBlocks : Z) : instance :=
  mkInstance (limitsOf maxBytes maxBlocks) (Some head) [wal] [blk].

(** The same registry with a nil head block. *)
Definition headless (maxBytes maxBlocks : Z) : instance :=
  mkInstance (limitsOf maxBytes maxBlocks) None [wal] [blk].

(** A registry without any block. *)
Definition empty : instance := mkInstance (limitsOf 0 0) None [] [].

(** A registry whose head block does not support search. *)
Definition unsupported_head : instance :=
  mkInstance (limitsOf 0 0) (Some (failing "head" ErrUnsupported)) [] [blk].

(** A registry with two complete blocks that fail. *)
Definition two_failing : instance :=
  mkInstance (limitsOf 0 0) (Some head) []
    [failing "blk-a" (ErrorString "disk"); failing "blk-b" (ErrorString "index")].

(** A registry on which every call ends in an error that the trace
    search skips. *)
Definition all_skipped : instance :=
  mkInstance (limitsOf 0 0) (Some (failing "head" ErrUnsupported))
    [failing "wal-1" Canceled] [failing "blk-1" (Errorf "not yet" ErrUnsupported)].

(** A registry whose head block fails. *)
Definition failing_head : instance :=
  mkInstance (limitsOf 0 0) (Some (failing "head" (ErrorString "disk"))) [wal] [blk].

(** A context without a tenant. *)
Definition anonymous : Context := mkContext None false.

(** A schedule of the typed tag-value search on [registry]: the caller
    starts its three tasks and waits, the tasks run one after the other,
    the caller returns. *)
Definition in_turn : list nat :=
  replicate 8 0%nat ++ replicate 8 1%nat ++ replicate 8 2%nat ++ replicate 8 3%nat
  ++ replicate 2 0%nat.

(** A schedule on [registry] in which the head task, after [wg.Done],
    is overtaken by the caller's return and unlocks last. *)
Definition head_unlocks_last : list nat :=
  replicate 8 0%nat ++ replicate 7 1%nat ++ replicate 8 2%nat ++ replicate 8 3%nat
  ++ replicate 2 0%nat ++ [1%nat].

End Fixture.

(** * Properties *)

Lemma int64_of_uint32 (x : Z) : is_uint32 x → int64 x = x.
Proof.
  unfold is_uint32, int64, wrap_signed. intros [Hlo Hhi].
  rewrite Z.mod_small; lia.
Qed.

(** C3. For a block with bounds [bs, be] and a request window [rs, re]:
    when rs = 0 or re = 0 the block is included; otherwise it is included
    exactly when bs <= re and be >= rs, both bounds taken in whole
    seconds ([Unix]). *)
Theorem includeBlock_window (b : BlockMeta) (req : SearchRequest) :
  SearchRequest_wf req →
  (req_Start req = 0 ∨ req_End req = 0 → includeBlock b req = true) ∧
  (req_Start req ≠ 0 → req_End req ≠ 0 →
   (includeBlock b req = true ↔
    Unix (StartTime b) ≤ req_End req ∧ Unix (EndTime b) >= req_Start req)).
Proof.
  intros [_ Hs He]. unfold includeBlock.
  rewrite !int64_of_uint32 by done.
  split.
  - intros [-> | ->]; [done |].
    by destruct (bool_decide (req_Start req = 0)).
  - intros Hs0 He0.
    rewrite !bool_decide_false by done. simpl.
    rewrite andb_true_iff, !bool_decide_eq_true. done.
Qed.

Section Properties.
Context `{E : Externals}.
Import collector.

#[local] Arguments SearchTagsV2_searchBlock : simpl never.
#[local] Arguments SearchTagValues_search : simpl never.
#[local] Arguments Search_search : simpl never.
(** ** The metadata combiner *)

Lemma Count_NewMetadataCombiner : traceql.Count traceql.NewMetadataCombiner = 0.
Proof. unfold traceql.Count. simpl. by rewrite map_size_empty. Qed.

Lemma Count_AddMetadata (c : traceql.MetadataCombiner) (tr : TraceSearchMetadata) :
  traceql.Count c ≤ traceql.Count (traceql.AddMetadata c tr) ≤ traceql.Count c + 1.
Proof.
  unfold traceql.Count, traceql.AddMetadata.
  destruct (traceql.trs c !! TraceID tr) eqn:Hl; simpl; [lia |].
  rewrite map_size_insert_None by done. lia.
Qed.

Lemma length_Metadata (c : traceql.MetadataCombiner) :
  Z.of_nat (length (traceql.Metadata c)) = traceql.Count c.
Proof.
  unfold traceql.Metadata, traceql.Count.
  rewrite (Permutation_length (merge_sort_Permutation _ _)).
  by rewrite length_fmap, length_map_to_list.
Qed.

(** ** Trace search: the result limit *)

Lemma addTraces_Count (maxResults : Z) (traces : list TraceSearchMetadata)
    (c : traceql.MetadataCombiner) :
  traceql.Count c < maxResults →
  traceql.Count (addTraces maxResults traces c).1 ≤ maxResults.
Proof.
  revert c. induction traces as [| tr rest IH]; intros c Hc; simpl; [lia |].
  pose proof (Count_AddMetadata c tr) as Hadd.
  case_bool_decide as Hfull; simpl; [lia |].
  apply IH. lia.
Qed.

Lemma Search_search_Count ctx req maxResults sees b (st : SearchState) :
  traceql.Count (combiner st) ≤ maxResults →
  traceql.Count (combiner (Search_search ctx req maxResults sees b st).1) ≤ maxResults.
Proof.
  intros Hc. unfold Search_search.
  destruct (Search_block _ req b) as [resp err].
  destruct (errors_Is_opt err ErrUnsupported); [done |].
  destruct (errors_Is_opt err Canceled); [done |].
  destruct err as [e |]; [done |].
  destruct resp as [resp |]; [| done].
  case_bool_decide as Hfull; [done |].
  pose proof (addTraces_Count maxResults (Traces resp) (combiner st)) as Hadd.
  destruct (addTraces maxResults (Traces resp) (combiner st)) as [c cancel].
  simpl in *. lia.
Qed.

Lemma Search_fanout_Count ctx req maxResults tasks sched (st : SearchState) :
  traceql.Count (combiner st) ≤ maxResults →
  traceql.Count (combiner (Search_fanout ctx req maxResults tasks sched st).1) ≤ maxResults.
Proof.
  revert st. induction sched as [| [k sees] rest IH]; intros st Hc; simpl; [done |].
  destruct (tasks !! k) as [b |]; [| by apply IH].
  pose proof (Search_search_Count ctx req maxResults sees b st Hc) as Hs.
  destruct (Search_search ctx req maxResults sees b st) as [st' ev].
  specialize (IH st' Hs).
  destruct (Search_fanout ctx req maxResults tasks rest st') as [st'' ev'].
  done.
Qed.

Lemma Search_maxResults_wf (req : SearchRequest) :
  SearchRequest_wf req →
  Search_maxResults req = (if bool_decide (req_Limit req = 0) then 20 else req_Limit req)
  ∧ 0 < Search_maxResults req.
Proof.
  intros [Hl _ _]. unfold Search_maxResults.
  rewrite int64_of_uint32 by done.
  unfold is_uint32 in Hl. case_bool_decide; lia.
Qed.

(** The combiner never holds more than [maxResults] traces. *)
Lemma Search_run_Count ctx req i sched :
  SearchRequest_wf req →
  traceql.Count (combiner (Search_run ctx req i sched).1.2) ≤ Search_maxResults req.
Proof.
  intros Hwf. destruct (Search_maxResults_wf req Hwf) as [_ Hpos].
  unfold Search_run.
  pose proof Count_NewMetadataCombiner as H0.
  destruct (headBlock i) as [h |]; simpl; [| lia].
  set (st0 := mkSearchState _ _ _ _).
  assert (traceql.Count (combiner st0) ≤ Search_maxResults req) as Hst0
    by (simpl; lia).
  set (head := if includeBlock (Meta h) req then _ else _).
  assert (traceql.Count (combiner head.1) ≤ Search_maxResults req) as Hhead.
  { subst head. destruct (includeBlock (Meta h) req); [| done].
    by apply Search_search_Count. }
  destruct head as [st1 evHead]. simpl in Hhead.
  destruct (anyErr st1); [done |].
  case_bool_decide; [done |].
  pose proof (Search_fanout_Count ctx req (Search_maxResults req)
                (Search_tasks req i) sched st1 Hhead) as Hfan.
  destruct (Search_fanout _ _ _ _ _ _) as [st2 ev].
  by destruct (anyErr st2).
Qed.

(** In every outcome of [Search_run] the result is decided by the
    [anyErr] slot alone. *)
Lemma Search_run_result ctx req i sched :
  is_Some (headBlock i) →
  (Search_run ctx req i sched).1.1 =
    match anyErr (Search_run ctx req i sched).1.2 with
    | Some e => Err e
    | None => Ok (Search_response (Search_run ctx req i sched).1.2)
    end.
Proof.
  intros [h Hh]. unfold Search_run. rewrite Hh.
  destruct (if includeBlock (Meta h) req then _ else _) as [st1 evHead].
  destruct (anyErr st1) eqn:He1; simpl; [by rewrite He1 |].
  case_bool_decide; simpl; [by rewrite He1 |].
  destruct (Search_fanout _ _ _ _ _ _) as [st2 ev].
  destruct (anyErr st2) eqn:He2; simpl; by rewrite He2.
Qed.

(** C4. A successful trace search returns at most [limit] traces when
    the request's limit is positive, and at most 20 when it is 0. *)
Theorem Search_limit ctx req i sched resp :
  SearchRequest_wf req →
  (Search ctx req i sched).1 = Ok resp →
  Z.of_nat (length (Traces resp)) ≤
    (if bool_decide (req_Limit req = 0) then 20 else req_Limit req).
Proof.
  intros Hwf Hok.
  destruct (Search_maxResults_wf req Hwf) as [<- _].
  pose proof (Search_run_Count ctx req i sched Hwf) as Hcount.
  unfold Search in Hok.
  destruct (headBlock i) as [h |] eqn:Hh.
  - pose proof (Search_run_result ctx req i sched) as Hres.
    rewrite Hh in Hres. specialize (Hres (mk_is_Some _ _ eq_refl)).
    destruct (Search_run ctx req i sched) as [[r st] tr]. simpl in *.
    subst r. destruct (anyErr st); simplify_eq.
    simpl. by rewrite length_Metadata.
  - unfold Search_run in Hok. rewrite Hh in Hok. done.
Qed.

(** ** Trace search: the error policy *)

Lemma Search_search_ignored ctx req maxResults sees b (st : SearchState) err :
  (Search_block (Search_ctx ctx sees st) req b).2 = Some err →
  errors_Is err ErrUnsupported = true ∨ errors_Is err Canceled = true →
  (Search_search ctx req maxResults sees b st).1 = st.
Proof.
  intros Herr Hign. unfold Search_search.
  destruct (Search_block _ req b) as [resp err']. simpl in Herr. subst err'.
  simpl. destruct (errors_Is err ErrUnsupported); [done |].
  destruct Hign as [? | ->]; done.
Qed.





(** ** Traces *)

Lemma calls_app (tr1 tr2 : list event) : calls (tr1 ++ tr2) = (calls tr1 + calls tr2)%nat.
Proof. unfold calls. by rewrite filter_app, length_app. Qed.

Lemma held_app (m : lock) (tr1 tr2 : list event) :
  held m (tr1 ++ tr2) = held m tr1 + held m tr2.
Proof.
  induction tr1 as [| e tr1 IH]; simpl; [done |].
  destruct e; rewrite ?IH; lia.
Qed.

Lemma no_locks_nil : no_locks [].
Proof. constructor. Qed.

Lemma no_locks_app (ev1 ev2 : list event) : no_locks ev1 → no_locks ev2 → no_locks (ev1 ++ ev2).
Proof. apply Forall_app_2. Qed.

Lemma acquire_order_skip (n : nat) (ev tr : list event) :
  no_locks ev → acquire_order n (ev ++ tr) = acquire_order n tr.
Proof.
  induction 1 as [| e ev He _ IH]; simpl; [done |].
  destruct e; simpl in He; done.
Qed.

Lemma release_order_skip (n : nat) (ev tr : list event) :
  no_locks ev → release_order n (ev ++ tr) = release_order n tr.
Proof.
  induction 1 as [| e ev He _ IH]; simpl; [done |].
  destruct e; simpl in He; done.
Qed.

Lemma shared_only_skip (ev tr : list event) :
  no_locks ev → shared_only (ev ++ tr) = shared_only tr.
Proof.
  unfold shared_only. induction 1 as [| e ev He _ IH]; simpl; [done |].
  destruct e; simpl in He; done.
Qed.

Lemma held_skip (m : lock) (ev : list event) : no_locks ev → held m ev = 0.
Proof.
  induction 1 as [| e ev He _ IH]; simpl; [done |].
  destruct e; simpl in He; done.
Qed.

(** The trace of a sequential surface: the head lock around the head
    block's events, then possibly the blocks lock around the others. *)
Lemma lock_order_head_only (evH : list event) :
  no_locks evH →
  lock_order ([EvRLock headBlockMtx] ++ evH ++ [EvRUnlock headBlockMtx]) = true.
Proof.
  intros HH. unfold lock_order. simpl.
  by rewrite acquire_order_skip, release_order_skip, shared_only_skip.
Qed.

Lemma lock_order_head_then_blocks (evH ev : list event) :
  no_locks evH → no_locks ev →
  lock_order (([EvRLock headBlockMtx] ++ evH ++ [EvRUnlock headBlockMtx]) ++
              [EvRLock blocksMtx] ++ ev ++ [EvRUnlock blocksMtx]) = true.
Proof.
  intros HH Hev. unfold lock_order. simpl. rewrite <- !app_assoc. simpl.
  rewrite !acquire_order_skip, !release_order_skip, !shared_only_skip by done.
  simpl.
  by rewrite !acquire_order_skip, !release_order_skip, !shared_only_skip by done.
Qed.

(** ** Tag-name search (typed) *)

Lemma SearchTagsV2_searchBlock_no_locks ctx a q s dv :
  no_locks (SearchTagsV2_searchBlock ctx a q s dv).2.
Proof.
  unfold SearchTagsV2_searchBlock.
  destruct s as [s |]; [| apply no_locks_nil].
  destruct (ScopedExceeded dv); [apply no_locks_nil |].
  destruct (IsEmptyQuery q).
  - destruct (SearchTags_ s ctx a) as [tags [e |]]; simpl.
    + destruct (negb _); by repeat constructor.
    + by repeat constructor.
  - destruct (ExecuteTagNames _ _ _ _) as [tags err]. by repeat constructor.
Qed.

Lemma SearchTagsV2_range_no_locks ctx a q kind blocks dv :
  no_locks (SearchTagsV2_range ctx a q kind blocks dv).2.
Proof.
  revert dv. induction blocks as [| b rest IH]; intros dv; simpl; [apply no_locks_nil |].
  pose proof (SearchTagsV2_searchBlock_no_locks ctx a q (Some b) dv) as Hb.
  destruct (SearchTagsV2_searchBlock ctx a q (Some b) dv) as [[err dv'] ev].
  simpl in Hb.
  destruct err as [e |]; [done |].
  specialize (IH dv').
  destruct (SearchTagsV2_range ctx a q kind rest dv') as [[err' dv''] ev'].
  by apply no_locks_app.
Qed.

Lemma SearchTagsV2_searchBlock_quiet ctx a q b dv :
  SearchTagsV2_quiet ctx a q b →
  (SearchTagsV2_searchBlock ctx a q (Some b) dv).1.1 = None.
Proof.
  unfold SearchTagsV2_quiet, SearchTagsV2_searchBlock, nil_or_unsupported.
  destruct (ScopedExceeded dv); [done |].
  destruct (IsEmptyQuery q).
  - destruct (SearchTags_ b ctx a) as [tags [e |]]; simpl; [| done].
    by intros ->.
  - destruct (ExecuteTagNames _ _ _ _) as [tags err]. simpl. by intros ->.
Qed.

Lemma SearchTagsV2_range_quiet ctx a q kind blocks dv :
  Forall (SearchTagsV2_quiet ctx a q) blocks →
  (SearchTagsV2_range ctx a q kind blocks dv).1.1 = None.
Proof.
  intros Hq. revert dv. induction Hq as [| b rest Hb _ IH]; intros dv; simpl; [done |].
  apply (SearchTagsV2_searchBlock_quiet ctx a q b dv) in Hb.
  destruct (SearchTagsV2_searchBlock ctx a q (Some b) dv) as [[err dv'] ev].
  simpl in Hb. subst err.
  specialize (IH dv').
  by destruct (SearchTagsV2_range ctx a q kind rest dv') as [[err' dv''] ev'].
Qed.

Lemma SearchTagsV2_locked_lock_order ctx a q limit i :
  lock_order (SearchTagsV2_locked ctx a q limit i).2 = true.
Proof.
  unfold SearchTagsV2_locked.
  pose proof (SearchTagsV2_searchBlock_no_locks ctx a q (headBlock i)
                (NewScopedDistinctString limit)) as HH.
  destruct (SearchTagsV2_searchBlock ctx a q (headBlock i) _) as [[err dv] evH].
  simpl in HH.
  destruct err as [e |].
  { destruct (headBlock i); by apply lock_order_head_only. }
  pose proof (SearchTagsV2_range_no_locks ctx a q "completing" (completingBlocks i) dv) as H1.
  destruct (SearchTagsV2_range ctx a q "completing" _ dv) as [[err1 dv1] ev1].
  simpl in H1.
  destruct err1 as [e |]; [by apply lock_order_head_then_blocks |].
  pose proof (SearchTagsV2_range_no_locks ctx a q "complete" (completeBlocks i) dv1) as H2.
  destruct (SearchTagsV2_range ctx a q "complete" _ dv1) as [[err2 dv2] ev2].
  simpl in H2.
  destruct err2 as [e |]; simpl snd.
  - rewrite (app_assoc ev1 ev2).
    apply lock_order_head_then_blocks; [done | by apply no_locks_app].
  - rewrite (app_assoc ev2), (app_assoc ev1).
    apply lock_order_head_then_blocks; [done |].
    repeat apply no_locks_app; try done.
    destruct (ScopedExceeded dv2); by repeat constructor.
Qed.

(** With no block raising a fatal error the typed tag-name search
    succeeds with what its collector holds, overflown or not, and logs
    the warning when the collector overflowed. *)
Lemma SearchTagsV2_locked_quiet ctx a q limit i :
  Forall (SearchTagsV2_quiet ctx a q) (allBlocks i) →
  let '(r, dv, tr) := SearchTagsV2_locked ctx a q limit i in
  r = Ok (SearchTagsV2_response a dv) ∧
  (ScopedExceeded dv = true → tagsWarning ∈ tr).
Proof.
  unfold allBlocks. rewrite !Forall_app. intros (Hh & H1 & H2).
  unfold SearchTagsV2_locked.
  assert ((SearchTagsV2_searchBlock ctx a q (headBlock i)
             (NewScopedDistinctString limit)).1.1 = None) as Hhead.
  { destruct (headBlock i) as [h |]; [| done].
    simpl in Hh. rewrite Forall_singleton in Hh. by apply SearchTagsV2_searchBlock_quiet. }
  destruct (SearchTagsV2_searchBlock ctx a q (headBlock i) _) as [[err dv] evH].
  simpl in Hhead. subst err.
  pose proof (SearchTagsV2_range_quiet ctx a q "completing" _ dv H1) as Hr1.
  destruct (SearchTagsV2_range ctx a q "completing" _ dv) as [[err1 dv1] ev1].
  simpl in Hr1. subst err1.
  pose proof (SearchTagsV2_range_quiet ctx a q "complete" _ dv1 H2) as Hr2.
  destruct (SearchTagsV2_range ctx a q "complete" _ dv1) as [[err2 dv2] ev2].
  simpl in Hr2. subst err2.
  split; [done |]. intros ->. set_solver.
Qed.

(** A nil head block never makes the typed tag-name search panic. *)
Lemma SearchTagsV2_locked_no_panic ctx a q limit i :
  (SearchTagsV2_locked ctx a q limit i).1.1 ≠ Panic.
Proof.
  unfold SearchTagsV2_locked.
  destruct (headBlock i) as [h |] eqn:Hh.
  - destruct (SearchTagsV2_searchBlock ctx a q (Some h) _) as [[err dv] evH].
    destruct err as [e |]; [done |].
    destruct (SearchTagsV2_range ctx a q "completing" _ dv) as [[err1 dv1] ev1].
    destruct err1 as [e |]; [done |].
    destruct (SearchTagsV2_range ctx a q "complete" _ dv1) as [[err2 dv2] ev2].
    by destruct err2.
  - simpl.
    destruct (SearchTagsV2_range ctx a q "completing" _ _) as [[err1 dv1] ev1].
    destruct err1 as [e |]; [done |].
    destruct (SearchTagsV2_range ctx a q "complete" _ dv1) as [[err2 dv2] ev2].
    by destruct err2.
Qed.

(** ** Tag-value search (flat) *)

Lemma int64_small (x : Z) : - 2 ^ 63 ≤ x ≤ MaxInt64 → int64 x = x.
Proof.
  unfold int64, wrap_signed, MaxInt64. intros Hx.
  rewrite Z.mod_small; lia.
Qed.

Lemma int32_small (x : Z) : - 2 ^ 31 ≤ x ≤ MaxInt32 → int32 x = x.
Proof.
  unfold int32, wrap_signed, MaxInt32. intros Hx.
  rewrite Z.mod_small; lia.
Qed.

Lemma int32_range (x : Z) : - 2 ^ 31 ≤ int32 x ≤ MaxInt32.
Proof.
  unfold int32, wrap_signed, MaxInt32.
  pose proof (Z.mod_pos_bound (x + 2 ^ (32 - 1)) (2 ^ 32) ltac:(lia)). lia.
Qed.

Lemma int32_le_pos (x : Z) : 0 < x → int32 x ≤ x.
Proof.
  intros Hx. destruct (decide (x ≤ MaxInt32)) as [Hle | Hgt].
  - rewrite int32_small; [done |]. unfold MaxInt32 in *. lia.
  - pose proof (int32_range x). lia.
Qed.

Lemma calls_nil : calls [] = 0%nat.
Proof. done. Qed.

Lemma calls_cons_other (e : event) (tr : list event) :
  is_call e = false → calls (e :: tr) = calls tr.
Proof.
  intros He. unfold calls. rewrite filter_cons.
  destruct (decide (is_call e = true)); [congruence | done].
Qed.

Lemma calls_cons_call (id : UUID) (op : searcher_op) (tr : list event) :
  calls (EvCall id op :: tr) = S (calls tr).
Proof. unfold calls. by rewrite filter_cons. Qed.

Ltac count_calls :=
  repeat first
    [ rewrite calls_app
    | rewrite calls_nil
    | rewrite calls_cons_call
    | rewrite calls_cons_other by done ].

Lemma calls_call_event (id : UUID) (op : searcher_op) : calls [EvCall id op] = 1%nat.
Proof. done. Qed.

(** One block of the flat tag-value search: at most one Searcher call,
    counted by [inspectedBlocks], which the cap bounds. *)
Lemma SearchTagValues_search_calls ctx tagName maxBlocks s (st : TagValuesState) :
  let '(err, st', ev) := SearchTagValues_search ctx tagName maxBlocks s st in
  no_locks ev ∧
  (0 < maxBlocks ≤ MaxInt64 → 0 ≤ inspectedBlocks st ≤ maxBlocks →
   inspectedBlocks st' = inspectedBlocks st + Z.of_nat (calls ev) ∧
   inspectedBlocks st' ≤ maxBlocks).
Proof.
  unfold SearchTagValues_search.
  destruct (bool_decide (maxBlocks > 0) && bool_decide (inspectedBlocks st >= maxBlocks))
    eqn:Hcapped.
  { split; [apply no_locks_nil |]. rewrite calls_nil. lia. }
  destruct s as [s |]; [| split; [apply no_locks_nil | rewrite calls_nil; lia]].
  destruct (Exceeded (distinctValues st));
    [split; [apply no_locks_nil | rewrite calls_nil; lia] |].
  destruct (SearchTagValues_ s ctx tagName) as [vals err].
  assert (0 < maxBlocks ≤ MaxInt64 → 0 ≤ inspectedBlocks st ≤ maxBlocks →
          int64 (inspectedBlocks st + 1) = inspectedBlocks st + 1 ∧
          inspectedBlocks st + 1 ≤ maxBlocks) as Hinc.
  { intros Hmax Hin.
    apply andb_false_iff in Hcapped as [Hg | Hg]; apply bool_decide_eq_false in Hg; [lia |].
    split; [| lia]. apply int64_small. unfold MaxInt64 in *. lia. }
  destruct err as [e |]; [destruct (negb _) |]; simpl;
    (split; [by repeat constructor |]); intros Hmax Hin;
    destruct (Hinc Hmax Hin) as [-> ?]; rewrite calls_call_event; lia.
Qed.

Lemma SearchTagValues_range_calls ctx tagName maxBlocks kind blocks (st : TagValuesState) :
  let '(err, st', ev) := SearchTagValues_range ctx tagName maxBlocks kind blocks st in
  no_locks ev ∧
  (0 < maxBlocks ≤ MaxInt64 → 0 ≤ inspectedBlocks st ≤ maxBlocks →
   inspectedBlocks st' = inspectedBlocks st + Z.of_nat (calls ev) ∧
   inspectedBlocks st' ≤ maxBlocks).
Proof.
  revert st. induction blocks as [| b rest IH]; intros st; simpl.
  { split; [apply no_locks_nil |]. rewrite calls_nil. lia. }
  pose proof (SearchTagValues_search_calls ctx tagName maxBlocks (Some b) st) as Hb.
  destruct (SearchTagValues_search ctx tagName maxBlocks (Some b) st) as [[err st'] ev].
  destruct Hb as [Hn Hb].
  destruct err as [e |]; [done |].
  specialize (IH st').
  destruct (SearchTagValues_range ctx tagName maxBlocks kind rest st') as [[err' st''] ev'].
  destruct IH as [Hn' IH].
  split; [by apply no_locks_app |].
  intros Hmax Hin. destruct (Hb Hmax Hin) as [Heq Hle].
  pose proof (Nat2Z.is_nonneg (calls ev)).
  destruct (IH Hmax ltac:(lia)) as [Heq' Hle'].
  rewrite calls_app. lia.
Qed.

Lemma calls_skip_locks (tr : list event) :
  Forall (λ e, is_call e = false) tr → calls tr = 0%nat.
Proof.
  unfold calls. induction 1 as [| e tr He _ IH]; [done |].
  rewrite filter_cons. destruct (decide (is_call e = true)); [congruence | done].
Qed.

(** The flat tag-value search under the locks: its trace respects the
    lock order, and with a positive cap the Searcher calls do not exceed
    it. *)
Lemma SearchTagValues_locked_trace ctx tagName limit maxBlocks i :
  let '(r, st, tr) := SearchTagValues_locked ctx tagName limit maxBlocks i in
  lock_order tr = true ∧
  (0 < maxBlocks ≤ MaxInt64 → Z.of_nat (calls tr) ≤ maxBlocks).
Proof.
  unfold SearchTagValues_locked.
  set (st0 := mkTagValuesState 0 (NewDistinctString limit)).
  pose proof (SearchTagValues_search_calls ctx tagName maxBlocks (headBlock i) st0) as HH.
  destruct (SearchTagValues_search ctx tagName maxBlocks (headBlock i) st0)
    as [[err st] evH].
  destruct HH as [HnH HH].
  assert (0 < maxBlocks ≤ MaxInt64 →
          inspectedBlocks st = Z.of_nat (calls evH) ∧ inspectedBlocks st ≤ maxBlocks) as HH'.
  { intros Hmax. subst st0. simpl in HH. destruct (HH Hmax ltac:(lia)) as [-> ?]. lia. }
  clear HH.
  destruct err as [e |].
  { assert (lock_order ([EvRLock headBlockMtx] ++ evH ++ [EvRUnlock headBlockMtx]) = true
            ∧ (0 < maxBlocks ≤ MaxInt64 →
               Z.of_nat (calls ([EvRLock headBlockMtx] ++ evH ++ [EvRUnlock headBlockMtx]))
               ≤ maxBlocks)) as Hgoal.
    { split; [by apply lock_order_head_only |].
      intros Hmax. simpl app. count_calls. destruct (HH' Hmax). lia. }
    by destruct (headBlock i). }
  pose proof (SearchTagValues_range_calls ctx tagName maxBlocks "completing"
                (completingBlocks i) st) as H1.
  destruct (SearchTagValues_range ctx tagName maxBlocks "completing" _ st)
    as [[err1 st1] ev1].
  destruct H1 as [Hn1 H1].
  assert (0 < maxBlocks ≤ MaxInt64 →
          inspectedBlocks st1 = Z.of_nat (calls evH + calls ev1) ∧
          inspectedBlocks st1 ≤ maxBlocks) as H1'.
  { intros Hmax. destruct (HH' Hmax) as [Heq Hle].
    pose proof (Nat2Z.is_nonneg (calls evH)).
    destruct (H1 Hmax ltac:(lia)). lia. }
  clear H1.
  destruct err1 as [e |].
  { split; [by apply lock_order_head_then_blocks |].
    intros Hmax. simpl app. count_calls. destruct (H1' Hmax). lia. }
  pose proof (SearchTagValues_range_calls ctx tagName maxBlocks "complete"
                (completeBlocks i) st1) as H2.
  destruct (SearchTagValues_range ctx tagName maxBlocks "complete" _ st1)
    as [[err2 st2] ev2].
  destruct H2 as [Hn2 H2].
  assert (0 < maxBlocks ≤ MaxInt64 →
          Z.of_nat (calls evH + calls ev1 + calls ev2) ≤ maxBlocks) as H2'.
  { intros Hmax. destruct (H1' Hmax) as [Heq Hle].
    pose proof (Nat2Z.is_nonneg (calls evH + calls ev1)).
    destruct (H2 Hmax ltac:(lia)). lia. }
  clear H2.
  destruct err2 as [e |].
  - split.
    + rewrite (app_assoc ev1 ev2).
      apply lock_order_head_then_blocks; [done | by apply no_locks_app].
    + intros Hmax. simpl app. count_calls. specialize (H2' Hmax). lia.
  - split.
    + rewrite (app_assoc ev2), (app_assoc ev1).
      apply lock_order_head_then_blocks; [done |].
      repeat apply no_locks_app; try done.
      destruct (Exceeded (distinctValues st2)); by repeat constructor.
    + intros Hmax. simpl app. count_calls. specialize (H2' Hmax).
      destruct (Exceeded (distinctValues st2)); count_calls; lia.
Qed.

Lemma SearchTagValues_search_quiet ctx tagName maxBlocks b st :
  SearchTagValues_quiet ctx tagName b →
  (SearchTagValues_search ctx tagName maxBlocks (Some b) st).1.1 = None.
Proof.
  unfold SearchTagValues_quiet, SearchTagValues_search, nil_or_unsupported.
  destruct (_ && _); [done |].
  destruct (Exceeded (distinctValues st)); [done |].
  destruct (SearchTagValues_ b ctx tagName) as [vals [e |]]; simpl; [| done].
  by intros ->.
Qed.

Lemma SearchTagValues_range_quiet ctx tagName maxBlocks kind blocks st :
  Forall (SearchTagValues_quiet ctx tagName) blocks →
  (SearchTagValues_range ctx tagName maxBlocks kind blocks st).1.1 = None.
Proof.
  intros Hq. revert st. induction Hq as [| b rest Hb _ IH]; intros st; simpl; [done |].
  apply (SearchTagValues_search_quiet ctx tagName maxBlocks b st) in Hb.
  destruct (SearchTagValues_search ctx tagName maxBlocks (Some b) st) as [[err st'] ev].
  simpl in Hb. subst err.
  specialize (IH st').
  by destruct (SearchTagValues_range ctx tagName maxBlocks kind rest st') as [[err' st''] ev'].
Qed.

(** With no block raising a fatal error the flat tag-value search
    succeeds with what its collector holds, overflown or not, and logs
    the warning when the collector overflowed. *)
Lemma SearchTagValues_locked_quiet ctx tagName limit maxBlocks i :
  Forall (SearchTagValues_quiet ctx tagName) (allBlocks i) →
  let '(r, st, tr) := SearchTagValues_locked ctx tagName limit maxBlocks i in
  r = Ok (mkSearchTagValuesResponse (Strings (distinctValues st))) ∧
  (Exceeded (distinctValues st) = true → tagValuesWarning ∈ tr).
Proof.
  unfold allBlocks. rewrite !Forall_app. intros (Hh & H1 & H2).
  unfold SearchTagValues_locked.
  set (st0 := mkTagValuesState 0 (NewDistinctString limit)).
  assert ((SearchTagValues_search ctx tagName maxBlocks (headBlock i) st0).1.1 = None)
    as Hhead.
  { destruct (headBlock i) as [h |].
    - simpl in Hh. rewrite Forall_singleton in Hh. by apply SearchTagValues_search_quiet.
    - unfold SearchTagValues_search. by destruct (_ && _). }
  destruct (SearchTagValues_search ctx tagName maxBlocks (headBlock i) st0)
    as [[err st] evH].
  simpl in Hhead. subst err.
  pose proof (SearchTagValues_range_quiet ctx tagName maxBlocks "completing" _ st H1) as Hr1.
  destruct (SearchTagValues_range ctx tagName maxBlocks "completing" _ st)
    as [[err1 st1] ev1].
  simpl in Hr1. subst err1.
  pose proof (SearchTagValues_range_quiet ctx tagName maxBlocks "complete" _ st1 H2) as Hr2.
  destruct (SearchTagValues_range ctx tagName maxBlocks "complete" _ st1)
    as [[err2 st2] ev2].
  simpl in Hr2. subst err2.
  split; [done |]. intros ->. set_solver.
Qed.

(** A nil head block never makes the flat tag-value search panic. *)
Lemma SearchTagValues_locked_no_panic ctx tagName limit maxBlocks i :
  (SearchTagValues_locked ctx tagName limit maxBlocks i).1.1 ≠ Panic.
Proof.
  unfold SearchTagValues_locked.
  set (st0 := mkTagValuesState 0 (NewDistinctString limit)).
  assert (headBlock i = None →
          (SearchTagValues_search ctx tagName maxBlocks (headBlock i) st0).1.1 = None)
    as Hnil.
  { intros ->. unfold SearchTagValues_search. by destruct (_ && _). }
  destruct (SearchTagValues_search ctx tagName maxBlocks (headBlock i) st0)
    as [[err st] evH].
  destruct err as [e |].
  { destruct (headBlock i); [done |]. by specialize (Hnil eq_refl). }
  destruct (SearchTagValues_range ctx tagName maxBlocks "completing" _ st)
    as [[err1 st1] ev1].
  destruct err1 as [e |]; [done |].
  destruct (SearchTagValues_range ctx tagName maxBlocks "complete" _ st1)
    as [[err2 st2] ev2].
  by destruct err2.
Qed.

(** *** Without a block cap every block is searched *)

Lemma Collect_unlimited (d : DistinctString) (s : string) :
  unlimited d → unlimited (Collect d s).
Proof.
  intros [Hmax Hex]. unfold Collect. rewrite Hex.
  case_bool_decide; [done |].
  rewrite (bool_decide_false (0 < ds_maxLen d)) by lia. done.
Qed.

Lemma foldl_Collect_unlimited (vals : list string) (d : DistinctString) :
  unlimited d → unlimited (foldl Collect d vals).
Proof.
  revert d. induction vals as [| v vals IH]; intros d Hd; simpl; [done |].
  by apply IH, Collect_unlimited.
Qed.

Lemma SearchTagValues_search_uncapped ctx tagName b (st : TagValuesState) :
  unlimited (distinctValues st) →
  let '(err, st', ev) := SearchTagValues_search ctx tagName 0 (Some b) st in
  unlimited (distinctValues st') ∧ calls ev = 1%nat.
Proof.
  intros Hd. unfold SearchTagValues_search.
  rewrite (bool_decide_false (0 > 0)) by lia. simpl.
  destruct Hd as [Hmax Hex]. unfold Exceeded. rewrite Hex.
  destruct (SearchTagValues_ b ctx tagName) as [vals err].
  assert (unlimited (foldl Collect (distinctValues st) vals)) as Hd'
    by by apply foldl_Collect_unlimited.
  destruct err as [e |]; [destruct (negb _) |]; done.
Qed.

Lemma SearchTagValues_range_uncapped ctx tagName kind blocks (st : TagValuesState) :
  Forall (SearchTagValues_quiet ctx tagName) blocks →
  unlimited (distinctValues st) →
  let '(err, st', ev) := SearchTagValues_range ctx tagName 0 kind blocks st in
  unlimited (distinctValues st') ∧ calls ev = length blocks.
Proof.
  intros Hq. revert st. induction Hq as [| b rest Hb _ IH]; intros st Hd; simpl; [done |].
  apply (SearchTagValues_search_quiet ctx tagName 0 b st) in Hb.
  pose proof (SearchTagValues_search_uncapped ctx tagName b st Hd) as Hs.
  destruct (SearchTagValues_search ctx tagName 0 (Some b) st) as [[err st'] ev].
  simpl in Hb. subst err. destruct Hs as [Hd' Hc].
  specialize (IH st' Hd').
  destruct (SearchTagValues_range ctx tagName 0 kind rest st') as [[err' st''] ev'].
  destruct IH as [Hd'' Hc']. split; [done |].
  rewrite calls_app. lia.
Qed.

Lemma SearchTagValues_locked_uncapped ctx tagName limit i :
  limit ≤ 0 →
  Forall (SearchTagValues_quiet ctx tagName) (allBlocks i) →
  calls (SearchTagValues_locked ctx tagName limit 0 i).2 = length (allBlocks i).
Proof.
  intros Hlimit. unfold allBlocks. rewrite !Forall_app. intros (Hh & H1 & H2).
  rewrite !length_app.
  unfold SearchTagValues_locked.
  set (st0 := mkTagValuesState 0 (NewDistinctString limit)).
  assert (unlimited (distinctValues st0)) as Hd0 by done.
  assert (let '(err, st', ev) := SearchTagValues_search ctx tagName 0 (headBlock i) st0 in
          err = None ∧ unlimited (distinctValues st') ∧
          calls ev = length (option_list (headBlock i))) as Hhead.
  { destruct (headBlock i) as [h |].
    - simpl in Hh. rewrite Forall_singleton in Hh. apply (SearchTagValues_search_quiet ctx tagName 0 h st0) in Hh.
      pose proof (SearchTagValues_search_uncapped ctx tagName h st0 Hd0) as Hs.
      destruct (SearchTagValues_search ctx tagName 0 (Some h) st0) as [[err st'] ev].
      by destruct Hs.
    - unfold SearchTagValues_search. by destruct (_ && _). }
  destruct (SearchTagValues_search ctx tagName 0 (headBlock i) st0) as [[err st] evH].
  destruct Hhead as (-> & Hd & Hc).
  pose proof (SearchTagValues_range_quiet ctx tagName 0 "completing" _ st H1) as Hr1.
  pose proof (SearchTagValues_range_uncapped ctx tagName "completing" _ st H1 Hd) as Hu1.
  destruct (SearchTagValues_range ctx tagName 0 "completing" _ st) as [[err1 st1] ev1].
  simpl in Hr1. subst err1. destruct Hu1 as [Hd1 Hc1].
  pose proof (SearchTagValues_range_quiet ctx tagName 0 "complete" _ st1 H2) as Hr2.
  pose proof (SearchTagValues_range_uncapped ctx tagName "complete" _ st1 H2 Hd1) as Hu2.
  destruct (SearchTagValues_range ctx tagName 0 "complete" _ st1) as [[err2 st2] ev2].
  simpl in Hr2. subst err2. destruct Hu2 as [Hd2 Hc2].
  simpl snd. simpl app. count_calls.
  destruct (Exceeded (distinctValues st2)); count_calls; lia.
Qed.

(** ** Trace search: locks and the nil head block *)

Lemma Search_search_no_locks ctx req maxResults sees b (st : SearchState) :
  no_locks (Search_search ctx req maxResults sees b st).2.
Proof.
  unfold Search_search.
  destruct (Search_block _ req b) as [resp err].
  destruct (errors_Is_opt err ErrUnsupported); [by repeat constructor |].
  destruct (errors_Is_opt err Canceled); [by repeat constructor |].
  destruct err as [e |]; [by repeat constructor |].
  destruct resp as [resp |]; [| by repeat constructor].
  case_bool_decide; [by repeat constructor |].
  destruct (addTraces _ _ _). by repeat constructor.
Qed.

Lemma Search_fanout_no_locks ctx req maxResults tasks sched (st : SearchState) :
  no_locks (Search_fanout ctx req maxResults tasks sched st).2.
Proof.
  revert st. induction sched as [| [k sees] rest IH]; intros st; simpl;
    [apply no_locks_nil |].
  destruct (tasks !! k) as [b |]; [| by apply IH].
  pose proof (Search_search_no_locks ctx req maxResults sees b st) as Hs.
  destruct (Search_search ctx req maxResults sees b st) as [st' ev].
  specialize (IH st').
  destruct (Search_fanout ctx req maxResults tasks rest st') as [st'' ev'].
  by apply no_locks_app.
Qed.

Lemma Search_run_lock_order ctx req i sched :
  lock_order (Search_run ctx req i sched).2 = true.
Proof.
  unfold Search_run.
  destruct (headBlock i) as [h |]; [| done].
  set (st0 := mkSearchState _ _ _ _).
  assert (no_locks (if includeBlock (Meta h) req
                    then Search_search ctx req (Search_maxResults req) false h st0
                    else (st0, [])).2) as HH.
  { destruct (includeBlock (Meta h) req);
      [apply Search_search_no_locks | apply no_locks_nil]. }
  destruct (if includeBlock (Meta h) req then _ else _) as [st1 evHead].
  simpl in HH.
  destruct (anyErr st1); [by apply lock_order_head_only |].
  case_bool_decide; [by apply lock_order_head_only |].
  pose proof (Search_fanout_no_locks ctx req (Search_maxResults req)
                (Search_tasks req i) sched st1) as Hfan.
  destruct (Search_fanout _ _ _ _ _ _) as [st2 ev]. simpl in Hfan.
  destruct (anyErr st2); by apply lock_order_head_then_blocks.
Qed.

(** With a nil head block the trace search panics, the head lock in
    hand. *)
Lemma Search_nil_head ctx req i sched :
  headBlock i = None → Search ctx req i sched = (Panic, [EvRLock headBlockMtx]).
Proof. intros Hh. unfold Search, Search_run. by rewrite Hh. Qed.

(** ** Tag-name search (flat) *)

Lemma Collect_values_unlimited (d : DistinctString) (s : string) :
  unlimited d → ds_values (Collect d s) = {[s]} ∪ ds_values d.
Proof.
  intros [Hmax Hex]. unfold Collect. rewrite Hex.
  case_bool_decide as Hin.
  - symmetry. apply subseteq_union_1_L. by apply singleton_subseteq_l.
  - by rewrite (bool_decide_false (0 < ds_maxLen d)) by lia.
Qed.

Lemma foldl_Collect_values_unlimited (vals : list string) (d : DistinctString) :
  unlimited d → ds_values (foldl Collect d vals) = list_to_set vals ∪ ds_values d.
Proof.
  revert d. induction vals as [| v vals IH]; intros d Hd; simpl.
  { by rewrite (left_id_L ∅ (∪)). }
  rewrite IH by by apply Collect_unlimited.
  rewrite Collect_values_unlimited by done.
  by rewrite (assoc_L (∪)), (comm_L (∪) (list_to_set vals)).
Qed.

(** On an empty caller scope the flat surface drops the intrinsic
    scope. *)
Lemma SearchTags_flatten_empty_scope (scopes : list SearchTagsV2Scope) :
  SearchTags_flatten "" scopes = flatten_without_intrinsic scopes.
Proof. done. Qed.

(** On any other caller scope it keeps every scope of the typed
    response. *)
Lemma SearchTags_flatten_nonempty_scope (scope : string) (scopes : list SearchTagsV2Scope) :
  scope ≠ ""%string →
  SearchTags_flatten scope scopes =
    foldl (λ dv s, foldl Collect dv (scope_Tags s)) (NewDistinctString 0) scopes.
Proof.
  intros Hne. unfold SearchTags_flatten.
  by rewrite (bool_decide_false (scope = ""%string)) by done.
Qed.

(** ** Tag-value search (typed): the ID intrinsics *)

(** C7. When the tag name of a [SearchTagValuesV2] request parses to one
    of the four ID intrinsics, the call makes no Searcher call (its
    trace is empty: nothing is called and no lock is taken), whatever
    the schedule, and for a tenant it returns the empty response. *)
Theorem SearchTagValuesV2_ID_intrinsics ctx req i sched tag :
  ParseIdentifier (tvr_TagName req) = (tag, None) →
  tag = IntrinsicTraceIDAttribute ∨ tag = IntrinsicSpanIDAttribute ∨
  tag = IntrinsicLinkTraceIDAttribute ∨ tag = IntrinsicLinkSpanIDAttribute →
  (SearchTagValuesV2 ctx req i sched).2 = [] ∧
  (is_Some (ctx_orgID ctx) →
   (SearchTagValuesV2 ctx req i sched).1 = Some (Ok (mkSearchTagValuesV2Response []))).
Proof.
  intros Hparse Htag.
  assert (is_ID_intrinsic tag = true) as Hid.
  { unfold is_ID_intrinsic. rewrite !orb_true_iff, !bool_decide_eq_true. tauto. }
  unfold SearchTagValuesV2, SearchTagValuesV2_entry, ExtractOrgID.
  rewrite Hparse, Hid.
  destruct (ctx_orgID ctx) as [userID |]; simpl; [done |].
  split; [done |]. by intros [? ?].
Qed.

(** ** Tag-value search (typed): the state machine *)

#[local] Arguments task_step : simpl never.
#[local] Arguments main_step : simpl never.

Lemma main_step_moves p st st' : main_step p st = Some st' → main_moves p st st'.
Proof.
  unfold main_step, spawn. intros Hstep.
  destruct (v_main st) as [| h | | [| b rest] | [| b rest] | | |] eqn:Hpc;
    repeat case_bool_decide; simplify_eq; try by econstructor.
  destruct (v_anyErr st) eqn:He; simplify_eq; by econstructor.
Qed.

Lemma task_step_moves p k st st' :
  task_step p k st = Some st' →
  ∃ t pc' mid, v_tasks st !! k = Some t ∧ task_moves p st t pc' mid ∧
               st' = set_task k t pc' mid.
Proof.
  unfold task_step. intros Hstep.
  destruct (v_tasks st !! k) as [t |] eqn:Hk; [| done].
  exists t.
  destruct (t_pc t) as [| | | [| v vals] [e |] | e | | |] eqn:Hpc; simplify_eq.
  - destruct (v_anyErr st) eqn:He; eexists _, _; (split; [done |]);
      (split; [| done]); by econstructor.
  - repeat case_bool_decide; simplify_eq; eexists _, _; (split; [done |]);
      (split; [| done]); by econstructor.
  - destruct (V2_block p (t_block t)) as [vals err] eqn:Hb. simplify_eq.
    eexists _, _. split; [done |]. split; [| done].
    replace vals with (V2_block p (t_block t)).1 by by rewrite Hb.
    replace err with (V2_block p (t_block t)).2 by by rewrite Hb.
    by constructor.
  - eexists _, _. split; [done |]. split; [| done]. by econstructor.
  - eexists _, _. split; [done |]. split; [| done]. by econstructor.
  - eexists _, _. split; [done |]. split; [| done]. by econstructor.
  - eexists _, _. split; [done |]. split; [| done]. by econstructor.
  - eexists _, _. split; [done |]. split; [| done]. by econstructor.
  - destruct (t_kind t) eqn:Hkind; eexists _, _; (split; [done |]);
      (split; [| done]).
    + by apply moves_done_head.
    + apply moves_done_other; [done | congruence].
    + apply moves_done_other; [done | congruence].
  - eexists _, _. split; [done |]. split; [| done]. by econstructor.
Qed.

Lemma V2_step_moves p tid st st' : V2_step p tid st = Some st' → V2_moves p st st'.
Proof.
  destruct tid as [| k]; simpl; intros Hstep.
  - by apply moves_main, main_step_moves.
  - apply task_step_moves in Hstep as (t & pc' & mid & Hk & Hmove & ->).
    by eapply moves_task.
Qed.

(** What holds initially and is kept by every step holds after any
    schedule. *)
Lemma V2_run_invariant p (P : V2State → Prop) sched st :
  P st → (∀ st st', P st → V2_moves p st st' → P st') → P (V2_run p sched st).
Proof.
  intros Hinit Hstep. revert st Hinit.
  induction sched as [| tid rest IH]; intros st Hst; simpl; [done |].
  apply IH. destruct (V2_step p tid st) as [st' |] eqn:Hs; simpl; [| done].
  eapply Hstep; [done |]. by eapply V2_step_moves.
Qed.

(** *** Counting lemmas *)

Lemma count_tasks_nil f : count_tasks f [] = 0%nat.
Proof. done. Qed.

Lemma count_tasks_snoc f ts t :
  count_tasks f (ts ++ [t]) = (count_tasks f ts + Nat.b2n (f t))%nat.
Proof. unfold count_tasks. rewrite sum_list_with_app. simpl. lia. Qed.

Lemma count_tasks_insert f ts k t t' :
  ts !! k = Some t →
  (count_tasks f (<[k := t']> ts) + Nat.b2n (f t) = count_tasks f ts + Nat.b2n (f t'))%nat.
Proof.
  unfold count_tasks. revert k. induction ts as [| a ts IH]; intros k Hk; [done |].
  destruct k as [| k]; simpl in *.
  - simplify_eq. lia.
  - specialize (IH k Hk). lia.
Qed.

Lemma count_tasks_le_length f ts : (count_tasks f ts ≤ length ts)%nat.
Proof.
  unfold count_tasks. induction ts as [| a ts IH]; simpl; [done |].
  destruct (f a); simpl; lia.
Qed.

Lemma count_tasks_mono f g ts :
  (∀ t, f t = true → g t = true) → (count_tasks f ts ≤ count_tasks g ts)%nat.
Proof.
  intros Hfg. unfold count_tasks. induction ts as [| a ts IH]; simpl; [done |].
  specialize (Hfg a). destruct (f a), (g a); simpl; try lia.
Qed.

Lemma count_tasks_zero f ts k t :
  count_tasks f ts = 0%nat → ts !! k = Some t → f t = false.
Proof.
  unfold count_tasks. revert k. induction ts as [| a ts IH]; intros k Hc Hk; [done |].
  simpl in Hc. destruct k as [| k]; simpl in Hk.
  - simplify_eq. destruct (f t); simpl in Hc; [lia | done].
  - apply (IH k); [lia | done].
Qed.

Lemma count_tasks_pos f ts :
  (0 < count_tasks f ts)%nat → ∃ k t, ts !! k = Some t ∧ f t = true.
Proof.
  unfold count_tasks. induction ts as [| a ts IH]; simpl; [lia |].
  destruct (f a) eqn:Hfa; simpl.
  - intros _. by exists 0%nat, a.
  - intros Hpos. destruct (IH Hpos) as (k & t & Hk & Hf). by exists (S k), t.
Qed.

Lemma count_tasks_all f ts :
  Forall (λ t, f t = true) ts → count_tasks f ts = length ts.
Proof.
  unfold count_tasks. induction 1 as [| a ts Ha _ IH]; simpl; [done |].
  rewrite Ha. simpl. lia.
Qed.

(** *** The wait group *)

Lemma wg_inv_init p limit : wg_inv p (V2_init limit).
Proof. by repeat split. Qed.

Lemma allBlocks_length (i : instance) :
  length (allBlocks i) =
    (length (option_list (headBlock i)) + length (completeBlocks i)
     + length (completingBlocks i))%nat.
Proof. unfold allBlocks. rewrite !length_app. lia. Qed.

Lemma wg_inv_step p st st' : wg_inv p st → V2_moves p st st' → wg_inv p st'.
Proof.
  intros (Hwg & Hzero & Hlen) Hmove. unfold wg_inv.
  rewrite allBlocks_length in *.
  destruct Hmove as [st' Hmain | k t pc' st' Hk Hmove].
  - destruct Hmain; simpl; try rewrite count_tasks_snoc; try rewrite length_app;
      rewrite ?H in *; simpl in *; rewrite ?allBlocks_length in *;
      repeat split; try lia.
    all: destruct (headBlock (p_instance p)); simpl in *; lia.
  - assert (v_main st' = v_main st ∧ length (v_tasks st') = length (v_tasks st)) as [Hm Hl]
      by by destruct Hmove.
    simpl. rewrite Hm, length_insert, Hl. split; [| split; [| done]].
    + pose proof (count_tasks_insert live _ k t
                    (mkTask (t_kind t) (t_block t) pc') Hk) as Hc.
      assert (v_tasks st' = v_tasks st) as -> by by destruct Hmove.
      unfold live in Hc at 2 4. simpl in Hc.
      destruct Hmove; simpl in *; rewrite ?H in Hc; simpl in Hc; try lia.
    + assert (v_wg st' ≤ v_wg st)%nat by (destruct Hmove; simpl; lia).
      destruct (v_main st); lia.
Qed.

(** *** The head lock *)

Lemma head_inv_init p limit : head_inv p (V2_init limit).
Proof. by repeat split. Qed.

Lemma held_snoc (m : lock) (tr : list event) (e : event) :
  held m (tr ++ [e]) = held m tr + held m [e].
Proof. apply held_app. Qed.

Lemma head_inv_step p st st' : head_inv p st → V2_moves p st st' → head_inv p st'.
Proof.
  intros (Hheld & Hunl & Hcount & Hspawn) Hmove. unfold head_inv.
  destruct Hmove as [st' Hmain | k t pc' st' Hk Hmove].
  - destruct Hmain; simpl; rewrite ?count_tasks_snoc, ?held_app, ?app_nil_r;
      rewrite ?H in *; simpl in *;
      try (split; [lia |]; split; [done |]; split; [lia | done]);
      try (split; [lia |]; split;
           [apply Forall_app; split; [done | by repeat constructor] |];
           split; [lia | done]).
    + split; [destruct (headBlock (p_instance p)); lia |].
      split; [done |].
      destruct (headBlock (p_instance p)) eqn:Hh; simpl; split; try done.
      intros h' Heq. by simplify_eq.
    + split; [lia |]. split; [apply Forall_app; split; [done | by repeat constructor] |].
      rewrite (Hspawn h eq_refl). simpl. split; [lia | done].
    + split; [destruct (ValueExceeded _); simpl; lia |].
      split; [done |]. split; [lia | done].
  - pose proof (count_tasks_insert head_unlocked _ k t
                  (mkTask (t_kind t) (t_block t) pc') Hk) as Hc.
    pose proof (count_tasks_insert is_head _ k t
                  (mkTask (t_kind t) (t_block t) pc') Hk) as Hh.
    pose proof (Forall_lookup_1 _ _ _ _ Hunl Hk) as Hunl_t.
    assert (v_main st' = v_main st ∧ v_tasks st' = v_tasks st) as [Hm Ht]
      by by destruct Hmove.
    simpl. rewrite Hm, Ht.
    destruct t as [kind b pc]. simpl in *.
    split; [| split; [| split; [| done]]].
    + destruct Hmove; simpl in *; subst; rewrite ?held_app; simpl in *;
        try lia; try (destruct kind; simpl in *; try done; lia).
      specialize (Hunl_t eq_refl). unfold is_head in Hunl_t.
      destruct kind; simpl in *; try done; lia.
    + apply Forall_insert; [done |]. simpl.
      destruct Hmove; simpl in *; subst; try done.
    + destruct kind; simpl in *; lia.
Qed.

(** *** The order of the lock operations *)

Lemma order_inv_init limit : order_inv (V2_init limit).
Proof. done. Qed.

Lemma wg_inv_no_task p st k t :
  wg_inv p st → v_main st = MLockHead → v_tasks st !! k = Some t → False.
Proof.
  intros (_ & _ & Hlen) Hpc Hk. rewrite Hpc in Hlen. simpl in Hlen.
  apply lookup_lt_Some in Hk. lia.
Qed.

Lemma order_inv_step p st st' :
  wg_inv p st → order_inv st → V2_moves p st st' → order_inv st'.
Proof.
  intros Hwg Ho Hmove. unfold order_inv in *.
  destruct Hmove as [st' Hmain | k t pc' st' Hk Hmove].
  - assert (∀ ev, Forall (λ e, benign e = true) ev →
                  (∃ tr, v_trace st = EvRLock headBlockMtx :: tr ∧
                         Forall (λ e, benign e = true) tr) →
                  ∃ tr, v_trace st ++ ev = EvRLock headBlockMtx :: tr ∧
                        Forall (λ e, benign e = true) tr) as Hext.
    { intros ev Hev (tr & -> & Htr). exists (tr ++ ev).
      split; [done | by apply Forall_app]. }
    destruct Hmain; simpl; rewrite ?H in *; simpl in *; try done;
      try (apply Hext; [by repeat constructor | done]).
    + rewrite Ho. destruct (headBlock (p_instance p)); by exists [].
    + apply Hext; [| done]. destruct (ValueExceeded _); by repeat constructor.
  - assert (v_main st' = v_main st) as Hm by by destruct Hmove.
    simpl. rewrite Hm.
    assert (v_trace st' = v_trace st ∨
            ∃ e, benign e = true ∧ v_trace st' = v_trace st ++ [e]) as Htr.
    { destruct Hmove; simpl; auto; right; eexists; (split; [| done]); done. }
    destruct (v_main st) eqn:Hpc;
      try (by destruct (wg_inv_no_task p st k t Hwg Hpc Hk));
      (destruct Htr as [-> | (e & He & ->)]; [done |]);
      destruct Ho as (tr & -> & Hb); exists (tr ++ [e]);
      (split; [done |]); apply Forall_app; by repeat constructor.
Qed.

Lemma benign_acquire_order (n : nat) (tr : list event) :
  Forall (λ e, benign e = true) tr → acquire_order n tr = true.
Proof.
  intros Htr. revert n. induction Htr as [| e tr He _ IH]; intros n; [done |].
  destruct e as [[] | [] | [] | [] | |]; simpl in *; try done; apply IH.
Qed.

Lemma benign_shared_only (tr : list event) :
  Forall (λ e, benign e = true) tr → shared_only tr = true.
Proof.
  unfold shared_only. induction 1 as [| e tr He _ IH]; [done |].
  destruct e as [[] | [] | [] | [] | |]; simpl in *; done.
Qed.

Lemma order_inv_acquire st :
  order_inv st → acquire_order 0 (v_trace st) = true ∧ shared_only (v_trace st) = true.
Proof.
  unfold order_inv. intros Ho.
  assert (v_trace st = [] ∨
          ∃ tr, v_trace st = EvRLock headBlockMtx :: tr ∧ Forall (λ e, benign e = true) tr)
    as [-> | (tr & -> & Htr)] by (destruct (v_main st); auto).
  - done.
  - simpl. by rewrite benign_acquire_order, benign_shared_only.
Qed.

(** *** Searcher calls *)

Lemma calls_snoc_other (tr : list event) (e : event) :
  is_call e = false → calls (tr ++ [e]) = calls tr.
Proof. intros He. rewrite calls_app, calls_cons_other by done. rewrite calls_nil. lia. Qed.

Lemma calls_inv_init limit : calls_inv (V2_init limit).
Proof. unfold calls_inv. simpl. by rewrite calls_nil. Qed.

Lemma calls_inv_step p st st' : calls_inv st → V2_moves p st st' → calls_inv st'.
Proof.
  unfold calls_inv. intros Hc Hmove.
  destruct Hmove as [st' Hmain | k t pc' st' Hk Hmove].
  - destruct Hmain; simpl; rewrite ?count_tasks_snoc, ?app_nil_r; simpl;
      rewrite ?calls_snoc_other by done; try lia.
    destruct (ValueExceeded _); simpl; count_calls; lia.
  - pose proof (count_tasks_insert past_call _ k t
                  (mkTask (t_kind t) (t_block t) pc') Hk) as Hp.
    destruct t as [kind b pc]. simpl in *.
    destruct Hmove; simpl in *; subst; simpl in *;
      rewrite ?calls_snoc_other by done; try lia.
    unfold V2_call_event. count_calls. lia.
Qed.

(** *** The block cap *)

Lemma count_tasks_lookup f ts k t :
  ts !! k = Some t → (Nat.b2n (f t) ≤ count_tasks f ts)%nat.
Proof.
  unfold count_tasks. revert k. induction ts as [| a ts IH]; intros k Hk; [done |].
  destruct k as [| k]; simpl in *.
  - simplify_eq. lia.
  - specialize (IH k Hk). lia.
Qed.

Lemma cap_inv_init p limit : p_maxBlocks p > 0 → cap_inv p (V2_init limit).
Proof. intros Hmax. unfold cap_inv. simpl. rewrite ?calls_nil. simpl. lia. Qed.

Lemma cap_inv_step p st st' :
  p_maxBlocks p > 0 →
  Z.of_nat (length (allBlocks (p_instance p))) ≤ MaxInt32 →
  wg_inv p st → cap_inv p st → V2_moves p st st' → cap_inv p st'.
Proof.
  intros Hmax Hfit (_ & _ & Hlen) (H0 & Hbg & Hin & Hcap) Hmove. unfold cap_inv.
  destruct Hmove as [st' Hmain | k t pc' st' Hk Hmove].
  - destruct Hmain; simpl; rewrite ?count_tasks_snoc, ?length_app, ?app_nil_r; simpl;
      rewrite ?calls_snoc_other by done; try lia.
    destruct (ValueExceeded _); simpl; count_calls; lia.
  - pose proof (count_tasks_insert before_cap _ k t
                  (mkTask (t_kind t) (t_block t) pc') Hk) as Hb.
    pose proof (count_tasks_insert at_call _ k t
                  (mkTask (t_kind t) (t_block t) pc') Hk) as Ha.
    pose proof (count_tasks_lookup before_cap _ k t Hk) as Hle.
    destruct t as [kind b pc]. simpl in *.
    assert (pc = TCap → int32 (v_inspectedBlocks st + 1) = v_inspectedBlocks st + 1) as Hinc.
    { intros ->. simpl in *. apply int32_small. unfold MaxInt32 in *. lia. }
    destruct Hmove; simpl in *; subst; simpl in *;
      rewrite ?length_insert, ?calls_snoc_other by done;
      rewrite ?Hinc in * by done; try lia.
    unfold V2_call_event. rewrite calls_app. count_calls. lia.
Qed.

(** *** Blocks that raise no error *)

Lemma quiet_inv_init p limit : quiet_inv p (V2_init limit).
Proof. by repeat split. Qed.

Lemma quiet_inv_step p st st' :
  Forall (V2_quiet p) (allBlocks (p_instance p)) →
  quiet_inv p st → V2_moves p st st' → quiet_inv p st'.
Proof.
  unfold allBlocks. rewrite !Forall_app. intros (Hqh & Hq1 & Hq2).
  intros (He & Hpend & Htasks) Hmove. unfold quiet_inv.
  destruct Hmove as [st' Hmain | k t pc' st' Hk Hmove].
  - destruct Hmain; simpl; rewrite ?H in *; simpl in *;
      try (split; [done |]; split; [by repeat constructor | done]); try congruence.
    + split; [done |]. split; [| done].
      destruct (headBlock (p_instance p)); simpl; done.
    + rewrite Forall_singleton in Hpend.
      split; [done |]. split; [done |].
      apply Forall_app. split; [done | by repeat constructor].
    + rewrite Forall_cons in Hpend. destruct Hpend as [Hb Hrest].
      split; [done |]. split; [done |].
      apply Forall_app. split; [done | by repeat constructor].
    + rewrite Forall_cons in Hpend. destruct Hpend as [Hb Hrest].
      split; [done |]. split; [done |].
      apply Forall_app. split; [done | by repeat constructor].
  - pose proof (Forall_lookup_1 _ _ _ _ Htasks Hk) as [Hqt Hpc].
    assert (v_main st' = v_main st) as Hm by by destruct Hmove.
    simpl. rewrite Hm.
    destruct t as [kind b pc]. simpl in *.
    destruct Hmove; simpl in *; subst; simpl in *; try done; try congruence;
      (split; [done |]; split; [done |]; apply Forall_insert; [done |]; simpl;
       split; [done |]; try done).
    unfold V2_quiet in Hqt. by rewrite Hqt.
Qed.

(** *** What the caller returns *)

Lemma result_inv_init limit : result_inv (V2_init limit).
Proof. done. Qed.

Lemma result_inv_step p st st' :
  wg_inv p st → result_inv st → V2_moves p st st' → result_inv st'.
Proof.
  intros (Hwg & Hzero & _) Hr Hmove. unfold result_inv in *.
  destruct Hmove as [st' Hmain | k t pc' st' Hk Hmove].
  - destruct Hmain; simpl; rewrite ?H in *; simpl in *; try done.
    + destruct (headBlock (p_instance p)); done.
    + rewrite H0. done.
    + rewrite H0. split; [done |]. intros _ ->. set_solver.
  - assert (v_main st' = v_main st) as Hm by by destruct Hmove.
    simpl. rewrite Hm.
    destruct (v_main st) as [| | | | | | | r] eqn:Hpc; try done.
    rewrite Hzero in Hwg. symmetry in Hwg.
    pose proof (count_tasks_zero live _ k t Hwg Hk) as Hlive.
    destruct t as [kind b pc]. unfold live in Hlive. simpl in *.
    destruct Hmove; simpl in *; subst; simpl in *; try done.
    destruct Hr as [Hr Hw]. split; [done |]. intros Hn Hx. specialize (Hw Hn Hx).
    set_solver.
Qed.

(** *** Without a cap *)

Lemma uncapped_inv_init limit : uncapped_inv (V2_init limit).
Proof. unfold uncapped_inv. simpl. by rewrite calls_nil. Qed.

Lemma uncapped_inv_step p st st' :
  ¬ p_maxBlocks p > 0 →
  quiet_inv p st → uncapped_inv st → V2_moves p st st' → uncapped_inv st'.
Proof.
  unfold uncapped_inv. intros Hmax (He & _ & _) Hc Hmove.
  destruct Hmove as [st' Hmain | k t pc' st' Hk Hmove].
  - destruct Hmain; simpl; rewrite ?count_tasks_snoc, ?app_nil_r; simpl;
      rewrite ?calls_snoc_other by done; try lia.
    destruct (ValueExceeded _); simpl; count_calls; lia.
  - pose proof (count_tasks_insert past_call _ k t
                  (mkTask (t_kind t) (t_block t) pc') Hk) as Hp.
    destruct t as [kind b pc]. simpl in *.
    destruct Hmove; simpl in *; subst; simpl in *;
      rewrite ?calls_snoc_other by done; try lia; try congruence.
    unfold V2_call_event. rewrite calls_app. count_calls. lia.
Qed.

(** *** Reachable states *)

Lemma V2_run_app p sched more st :
  V2_run p (sched ++ more) st = V2_run p more (V2_run p sched st).
Proof. apply foldl_app. Qed.

Lemma V2_run_wg_inv p limit sched : wg_inv p (V2_run p sched (V2_init limit)).
Proof.
  apply V2_run_invariant; [apply wg_inv_init | apply wg_inv_step].
Qed.

Lemma V2_run_head_inv p limit sched : head_inv p (V2_run p sched (V2_init limit)).
Proof.
  apply V2_run_invariant; [apply head_inv_init | apply head_inv_step].
Qed.

Lemma V2_run_order_inv p limit sched : order_inv (V2_run p sched (V2_init limit)).
Proof.
  apply (V2_run_invariant p (λ st, wg_inv p st ∧ order_inv st)).
  - split; [apply wg_inv_init | apply order_inv_init].
  - intros st st' [Hwg Ho] Hmove.
    split; [by eapply wg_inv_step | by eapply order_inv_step].
Qed.

Lemma V2_run_calls_inv p limit sched : calls_inv (V2_run p sched (V2_init limit)).
Proof.
  apply V2_run_invariant; [apply calls_inv_init | apply calls_inv_step].
Qed.

Lemma V2_run_cap_inv p limit sched :
  p_maxBlocks p > 0 →
  Z.of_nat (length (allBlocks (p_instance p))) ≤ MaxInt32 →
  cap_inv p (V2_run p sched (V2_init limit)).
Proof.
  intros Hmax Hfit.
  apply (V2_run_invariant p (λ st, wg_inv p st ∧ cap_inv p st)).
  - split; [apply wg_inv_init | by apply cap_inv_init].
  - intros st st' [Hwg Hc] Hmove.
    split; [by eapply wg_inv_step | by eapply cap_inv_step].
Qed.

Lemma V2_run_quiet_inv p limit sched :
  Forall (V2_quiet p) (allBlocks (p_instance p)) →
  quiet_inv p (V2_run p sched (V2_init limit)).
Proof.
  intros Hq. apply V2_run_invariant; [apply quiet_inv_init |].
  intros st st'. by apply quiet_inv_step.
Qed.

Lemma V2_run_result_inv p limit sched : result_inv (V2_run p sched (V2_init limit)).
Proof.
  apply (V2_run_invariant p (λ st, wg_inv p st ∧ result_inv st)).
  - split; [apply wg_inv_init | apply result_inv_init].
  - intros st st' [Hwg Hr] Hmove.
    split; [by eapply wg_inv_step | by eapply result_inv_step].
Qed.

Lemma V2_run_uncapped_inv p limit sched :
  ¬ p_maxBlocks p > 0 →
  Forall (V2_quiet p) (allBlocks (p_instance p)) →
  uncapped_inv (V2_run p sched (V2_init limit)).
Proof.
  intros Hmax Hq.
  apply (V2_run_invariant p (λ st, quiet_inv p st ∧ uncapped_inv st)).
  - split; [apply quiet_inv_init | apply uncapped_inv_init].
  - intros st st' [Hqi Hu] Hmove.
    split; [by eapply quiet_inv_step | by eapply uncapped_inv_step].
Qed.

(** *** Termination: the call, left alone, always comes to its return *)

Lemma sum_list_with_insert (f : task → nat) ts k t t' :
  ts !! k = Some t →
  (sum_list_with f (<[k := t']> ts) + f t = sum_list_with f ts + f t')%nat.
Proof.
  revert k. induction ts as [| a ts IH]; intros k Hk; [done |].
  destruct k as [| k]; simpl in *.
  - simplify_eq. lia.
  - specialize (IH k Hk). lia.
Qed.

Lemma V2_measure_step p st st' :
  V2_moves p st st' → (V2_measure p st' < V2_measure p st)%nat.
Proof.
  unfold V2_measure. intros Hmove.
  destruct Hmove as [st' Hmain | k t pc' st' Hk Hmove].
  - destruct Hmain; simpl; rewrite ?sum_list_with_app; rewrite ?H; simpl;
      unfold task_measure, blocks_measure; simpl; try lia.
    destruct (headBlock (p_instance p)); unfold main_measure, blocks_measure;
      simpl; lia.
  - pose proof (sum_list_with_insert (task_measure p) _ k t
                  (mkTask (t_kind t) (t_block t) pc') Hk) as Hs.
    assert (v_main st' = v_main st ∧ v_tasks st' = v_tasks st) as [Hm Ht]
      by by destruct Hmove.
    simpl. rewrite Hm, Ht.
    destruct t as [kind b pc]. unfold task_measure in Hs at 2 4. simpl in Hs.
    destruct Hmove; simpl in *; subst; simpl in *; unfold block_steps in *; lia.
Qed.

Lemma live_task_steps p st k t :
  v_tasks st !! k = Some t → live t = true → is_Some (task_step p k st).
Proof.
  intros Hk Hlive. unfold task_step. rewrite Hk.
  destruct t as [kind b pc]. unfold live in Hlive. simpl in *.
  destruct pc as [| | | [| v vals] [e |] | e | | |]; try done;
    repeat case_bool_decide; try done.
  by destruct (V2_block p b).
Qed.

Lemma V2_progress p st :
  wg_inv p st → V2_result st = None → ∃ tid, is_Some (V2_step p tid st).
Proof.
  intros (Hwg & _ & _) Hres.
  assert ((0 < v_wg st)%nat → ∃ tid, is_Some (V2_step p tid st)) as Hlive.
  { intros Hpos. rewrite Hwg in Hpos.
    apply count_tasks_pos in Hpos as (k & t & Hk & Hl).
    exists (S k). simpl. by eapply live_task_steps. }
  unfold V2_result in Hres.
  destruct (v_main st) as [| h | | [| b rest] | [| b rest] | | |] eqn:Hpc; try done;
    try (exists 0%nat; simpl; unfold main_step; rewrite Hpc; done).
  - destruct (decide (v_wg st < poolWidth)%nat) as [Hlt | Hge].
    + exists 0%nat. simpl. unfold main_step, spawn. rewrite Hpc.
      by rewrite bool_decide_true.
    + apply Hlive. unfold poolWidth in Hge. lia.
  - destruct (decide (v_wg st < poolWidth)%nat) as [Hlt | Hge].
    + exists 0%nat. simpl. unfold main_step, spawn. rewrite Hpc.
      by rewrite bool_decide_true.
    + apply Hlive. unfold poolWidth in Hge. lia.
  - destruct (decide (v_wg st < poolWidth)%nat) as [Hlt | Hge].
    + exists 0%nat. simpl. unfold main_step, spawn. rewrite Hpc.
      by rewrite bool_decide_true.
    + apply Hlive. unfold poolWidth in Hge. lia.
  - destruct (decide (v_wg st = 0)%nat) as [Hz | Hnz].
    + exists 0%nat. simpl. unfold main_step. rewrite Hpc.
      by rewrite bool_decide_true.
    + apply Hlive. lia.
  - exists 0%nat. simpl. unfold main_step. rewrite Hpc. by destruct (v_anyErr st).
Qed.

Lemma V2_terminates_from p (n : nat) st :
  (V2_measure p st ≤ n)%nat → wg_inv p st →
  ∃ more, is_Some (V2_result (V2_run p more st)).
Proof.
  revert st. induction n as [| n IH]; intros st Hn Hwg;
    (destruct (V2_result st) as [r |] eqn:Hres; [by exists [] |]);
    destruct (V2_progress p st Hwg Hres) as (tid & st' & Hstep);
    pose proof (V2_measure_step p st st' (V2_step_moves _ _ _ _ Hstep)) as Hlt;
    [lia |].
  destruct (IH st' ltac:(lia)) as (more & Hmore).
  { eapply wg_inv_step; [done |]. by eapply V2_step_moves. }
  exists (tid :: more). simpl. by rewrite Hstep.
Qed.

(** Whatever has happened so far, some continuation of the schedule
    brings the call to its return. *)
Lemma V2_terminates p limit sched :
  ∃ more, is_Some (V2_result (V2_run p (sched ++ more) (V2_init limit))).
Proof.
  destruct (V2_terminates_from p _ (V2_run p sched (V2_init limit)) (le_n _)
              (V2_run_wg_inv p limit sched)) as (more & Hmore).
  exists more. by rewrite V2_run_app.
Qed.

(** ** Tag-value search (typed): the surface *)

Lemma SearchTagValuesV2_entry_inr ctx req i limit p :
  SearchTagValuesV2_entry ctx req i = inr (limit, p) →
  p_instance p = i ∧
  ∃ userID, ctx_orgID ctx = Some userID ∧
            limit = MaxBytesPerTagValuesQuery (limits i) userID ∧
            p_maxBlocks p =
              (if bool_decide (MaxBlocksPerTagValuesQuery (limits i) userID > 0)
               then int32 (MaxBlocksPerTagValuesQuery (limits i) userID) else 0).
Proof.
  unfold SearchTagValuesV2_entry, ExtractOrgID.
  destruct (ctx_orgID ctx) as [userID |]; [| done].
  destruct (ParseIdentifier (tvr_TagName req)) as [tag [e |]]; [done |].
  destruct (is_ID_intrinsic tag); [done |].
  intros [= <- <-]. split; [done |]. by exists userID.
Qed.

Lemma V2_result_returned st r : V2_result st = Some r → v_main st = MReturned r.
Proof. unfold V2_result. destruct (v_main st); naive_solver. Qed.

(** C1 (what the code does when the head block is nil). A call of
    [SearchTagValuesV2] that gets as far as the locks on an instance
    whose head block is nil returns with the read lock on
    [headBlockMtx] still held: it was taken at entry and no task is
    there to release it. *)
Theorem SearchTagValuesV2_nil_head_lock ctx req i sched limit p r :
  headBlock i = None →
  SearchTagValuesV2_entry ctx req i = inr (limit, p) →
  (SearchTagValuesV2 ctx req i sched).1 = Some r →
  held headBlockMtx (SearchTagValuesV2 ctx req i sched).2 = 1.
Proof.
  intros Hnil Hentry. unfold SearchTagValuesV2. rewrite Hentry. simpl.
  intros Hr. apply V2_result_returned in Hr.
  destruct (SearchTagValuesV2_entry_inr _ _ _ _ _ Hentry) as [Hi _].
  destruct (V2_run_head_inv p limit sched) as (Hheld & _ & Hcount & _).
  rewrite Hr, Hi, Hnil in Hcount. simpl in Hcount.
  pose proof (count_tasks_mono head_unlocked is_head
                (v_tasks (V2_run p sched (V2_init limit)))) as Hle.
  rewrite Hr in Hheld.
  assert (∀ t, head_unlocked t = true → is_head t = true) as Himp.
  { intros t. unfold head_unlocked. by intros [? _]%andb_true_iff. }
  specialize (Hle Himp). lia.
Qed.

(** With a head block, the head task's deferred unlock does release the
    lock: every run can be continued to a point where the call has
    returned and the head lock is free. *)
Lemma SearchTagValuesV2_head_released ctx req i sched limit p :
  is_Some (headBlock i) →
  SearchTagValuesV2_entry ctx req i = inr (limit, p) →
  ∃ more, is_Some (SearchTagValuesV2 ctx req i (sched ++ more)).1 ∧
          held headBlockMtx (SearchTagValuesV2 ctx req i (sched ++ more)).2 = 0.
Proof.
  intros [h Hh] Hentry. unfold SearchTagValuesV2. rewrite Hentry. simpl.
  destruct (SearchTagValuesV2_entry_inr _ _ _ _ _ Hentry) as [Hi _].
  destruct (V2_terminates p limit sched) as (more & [r Hr]).
  set (st := V2_run p (sched ++ more) (V2_init limit)) in *.
  pose proof (V2_result_returned _ _ Hr) as Hpc.
  destruct (V2_run_head_inv p limit (sched ++ more)) as (Hheld & Hunl & Hcount & _).
  destruct (V2_run_wg_inv p limit (sched ++ more)) as (Hwg & Hzero & _).
  fold st in Hheld, Hunl, Hcount, Hwg, Hzero.
  rewrite Hpc in Hheld, Hcount, Hzero. rewrite Hi, Hh in Hcount. simpl in Hcount.
  destruct (decide (count_tasks head_unlocked (v_tasks st) = 0%nat)) as [Hcu | Hcu].
  - (* the head task has still to unlock: let it *)
    destruct (count_tasks_pos is_head (v_tasks st) ltac:(lia)) as (k & t & Hk & Hhead).
    pose proof (count_tasks_zero _ _ _ _ Hcu Hk) as Hnot.
    rewrite Hzero in Hwg. symmetry in Hwg.
    pose proof (count_tasks_zero _ _ _ _ Hwg Hk) as Hlive.
    exists (more ++ [S k]). rewrite app_assoc, V2_run_app. fold st. simpl.
    unfold task_step. rewrite Hk.
    destruct t as [kind b pc]. unfold head_unlocked, live in *. simpl in *.
    rewrite Hhead in Hnot. simpl in Hnot.
    destruct pc; simpl in *; try done.
    unfold V2_result. simpl. rewrite Hpc. split; [done |].
    rewrite held_app. simpl. lia.
  - exists more. fold st. rewrite Hr. split; [done |].
    pose proof (count_tasks_mono head_unlocked is_head (v_tasks st)) as Hle.
    assert (∀ t, head_unlocked t = true → is_head t = true) as Himp.
    { intros t. unfold head_unlocked. by intros [? _]%andb_true_iff. }
    specialize (Hle Himp). lia.
Qed.

(** ** Collector overflow *)

Lemma Collect_latch (d : DistinctString) (s : string) :
  Exceeded d = true → Collect d s = d.
Proof. unfold Exceeded, Collect. by intros ->. Qed.

Lemma ScopedCollect_latch (d : ScopedDistinctString) (scope s : string) :
  ScopedExceeded d = true → ScopedCollect d scope s = d.
Proof. unfold ScopedExceeded, ScopedCollect. by intros ->. Qed.

Lemma ValueCollect_latch (d : DistinctValue TagValue) (v : TagValue) :
  ValueExceeded d = true → ValueCollect d v = d.
Proof. unfold ValueExceeded, ValueCollect. by intros ->. Qed.

(** With no block raising a fatal error the three tag-enumeration
    surfaces succeed with what their collector holds, and log the
    warning when it overflowed. *)
Lemma tag_surfaces_quiet ctx i userID :
  ctx_orgID ctx = Some userID →
  (∀ req,
     tags_Scope req ≠ ParamScopeIntrinsic →
     AttributeScopeFromString (tags_Scope req) ≠ AttributeScopeUnknown →
     Forall (SearchTagsV2_quiet ctx (AttributeScopeFromString (tags_Scope req))
               (ExtractMatchers (tags_Query req))) (allBlocks i) →
     let '(_, dv, _) :=
       SearchTagsV2_locked ctx (AttributeScopeFromString (tags_Scope req))
         (ExtractMatchers (tags_Query req))
         (MaxBytesPerTagValuesQuery (limits i) userID) i in
     (SearchTagsV2 ctx req i).1 =
       Ok (SearchTagsV2_response (AttributeScopeFromString (tags_Scope req)) dv) ∧
     (ScopedExceeded dv = true → tagsWarning ∈ (SearchTagsV2 ctx req i).2)) ∧
  (∀ tagName,
     Forall (SearchTagValues_quiet ctx tagName)
            (allBlocks i) →
     let '(_, st, _) :=
       SearchTagValues_locked ctx tagName (MaxBytesPerTagValuesQuery (limits i) userID)
         (maxBlocksOf (MaxBlocksPerTagValuesQuery (limits i) userID)) i in
     (SearchTagValues ctx tagName i).1 =
       Ok (mkSearchTagValuesResponse (Strings (distinctValues st))) ∧
     (Exceeded (distinctValues st) = true →
      tagValuesWarning ∈ (SearchTagValues ctx tagName i).2)) ∧
  (∀ req limit p sched,
     SearchTagValuesV2_entry ctx req i = inr (limit, p) →
     Forall (V2_quiet p) (allBlocks i) →
     (∃ more, is_Some (SearchTagValuesV2 ctx req i (sched ++ more)).1) ∧
     (∀ r, (SearchTagValuesV2 ctx req i sched).1 = Some r →
           let c := v_valueCollector (V2_run p sched (V2_init limit)) in
           r = Ok (V2_response c) ∧
           (ValueExceeded c = true →
            tagValuesWarning ∈ (SearchTagValuesV2 ctx req i sched).2))).
Proof.
  intros Hu. split; [| split].
  - intros req Hscope Hknown Hq.
    pose proof (SearchTagsV2_locked_quiet ctx _ _
                  (MaxBytesPerTagValuesQuery (limits i) userID) i Hq) as Hl.
    unfold SearchTagsV2, ExtractOrgID. rewrite Hu.
    rewrite (bool_decide_false _ Hscope), (bool_decide_false _ Hknown).
    by destruct (SearchTagsV2_locked _ _ _ _ _) as [[r dv] tr].
  - intros tagName Hq.
    pose proof (SearchTagValues_locked_quiet ctx tagName
                  (MaxBytesPerTagValuesQuery (limits i) userID)
                  (maxBlocksOf (MaxBlocksPerTagValuesQuery (limits i) userID)) i Hq) as Hl.
    unfold SearchTagValues, ExtractOrgID. rewrite Hu.
    by destruct (SearchTagValues_locked _ _ _ _ _) as [[r st] tr].
  - intros req limit p sched Hentry Hq.
    destruct (SearchTagValuesV2_entry_inr _ _ _ _ _ Hentry) as [Hi _].
    unfold SearchTagValuesV2. rewrite Hentry. simpl. split.
    + apply V2_terminates.
    + intros r Hr. apply V2_result_returned in Hr.
      pose proof (V2_run_result_inv p limit sched) as Hres.
      rewrite <- Hi in Hq.
      destruct (V2_run_quiet_inv p limit sched Hq) as (He & _).
      unfold result_inv in Hres. rewrite Hr, He in Hres.
      destruct Hres as [-> Hw]. split; [done |]. by apply Hw.
Qed.

(** ** The block cap *)

Lemma maxBlocksOf_pos (limit : Z) : 0 < limit → maxBlocksOf limit = limit.
Proof. intros Hl. unfold maxBlocksOf. rewrite bool_decide_true; [done | lia]. Qed.

(** C9. In both tag-value surfaces a positive
    [MaxBlocksPerTagValuesQuery] bounds the number of blocks searched by
    a request: in the flat surface by its plain counter, in the typed
    surface by its atomic counter under every schedule (a registry of
    fewer than 2^31 blocks, so that the int32 counter does not wrap).
    When the limit is 0 there is no bound: with no fatal error (and, in
    the flat surface, no byte limit to stop the traversal) every block
    of the registry is searched. *)
Theorem block_cap ctx i userID :
  ctx_orgID ctx = Some userID →
  let limit := MaxBlocksPerTagValuesQuery (limits i) userID in
  (0 < limit ≤ MaxInt64 →
   ∀ tagName, Z.of_nat (calls (SearchTagValues ctx tagName i).2) ≤ limit) ∧
  (0 < limit → Z.of_nat (length (allBlocks i)) ≤ MaxInt32 →
   ∀ req sched, Z.of_nat (calls (SearchTagValuesV2 ctx req i sched).2) ≤ limit) ∧
  (limit = 0 →
   (∀ tagName,
      MaxBytesPerTagValuesQuery (limits i) userID ≤ 0 →
      Forall (SearchTagValues_quiet ctx tagName) (allBlocks i) →
      calls (SearchTagValues ctx tagName i).2 = length (allBlocks i)) ∧
   (∀ req limitBytes p sched,
      SearchTagValuesV2_entry ctx req i = inr (limitBytes, p) →
      Forall (V2_quiet p) (allBlocks i) →
      is_Some (SearchTagValuesV2 ctx req i sched).1 →
      calls (SearchTagValuesV2 ctx req i sched).2 = length (allBlocks i))).
Proof.
  intros Hu limit. split; [| split].
  - intros Hlimit tagName. unfold SearchTagValues, ExtractOrgID. rewrite Hu.
    fold limit. rewrite maxBlocksOf_pos by lia.
    pose proof (SearchTagValues_locked_trace ctx tagName
                  (MaxBytesPerTagValuesQuery (limits i) userID) limit i) as Hl.
    destruct (SearchTagValues_locked _ _ _ _ _) as [[r st] tr].
    destruct Hl as [_ Hl]. by apply Hl.
  - intros Hlimit Hfit req sched. unfold SearchTagValuesV2.
    destruct (SearchTagValuesV2_entry ctx req i) as [r | [limitBytes p]] eqn:Hentry.
    { simpl. rewrite calls_nil. lia. }
    destruct (SearchTagValuesV2_entry_inr _ _ _ _ _ Hentry)
      as (Hi & userID' & Hu' & _ & Hmax).
    rewrite Hu in Hu'. injection Hu' as <-. fold limit in Hmax.
    rewrite bool_decide_true in Hmax by lia.
    simpl. destruct (decide (p_maxBlocks p > 0)) as [Hpos | Hnpos].
    + rewrite <- Hi in Hfit.
      destruct (V2_run_cap_inv p limitBytes sched Hpos Hfit) as (_ & _ & _ & Hcap).
      pose proof (int32_le_pos limit Hlimit). lia.
    + (* the limit does not fit an int32 and the cap is off: there are
         fewer blocks than that anyway *)
      pose proof (V2_run_calls_inv p limitBytes sched) as Hcalls.
      unfold calls_inv in Hcalls.
      pose proof (count_tasks_le_length past_call
                    (v_tasks (V2_run p sched (V2_init limitBytes)))) as Hle.
      destruct (V2_run_wg_inv p limitBytes sched) as (_ & _ & Hlen).
      rewrite Hi in Hlen.
      assert (MaxInt32 < limit); [| lia].
      destruct (decide (limit ≤ MaxInt32)) as [Hsmall | ?]; [| lia].
      rewrite int32_small in Hmax; [lia |]. unfold MaxInt32 in *. lia.
  - intros Hzero. split.
    + intros tagName Hbytes Hq. unfold SearchTagValues, ExtractOrgID. rewrite Hu.
      fold limit. rewrite Hzero.
      pose proof (SearchTagValues_locked_uncapped ctx tagName _ i Hbytes Hq) as Hl.
      unfold maxBlocksOf. simpl.
      by destruct (SearchTagValues_locked _ _ _ _ _) as [[r st] tr].
    + intros req limitBytes p sched Hentry Hq. unfold SearchTagValuesV2.
      rewrite Hentry. simpl. intros [r Hr]. apply V2_result_returned in Hr.
      destruct (SearchTagValuesV2_entry_inr _ _ _ _ _ Hentry)
        as (Hi & userID' & Hu' & _ & Hmax).
      rewrite Hu in Hu'. injection Hu' as <-. fold limit in Hmax.
      rewrite Hzero in Hmax. simpl in Hmax.
      rewrite <- Hi in Hq.
      pose proof (V2_run_uncapped_inv p limitBytes sched ltac:(lia) Hq) as Hun.
      destruct (V2_run_wg_inv p limitBytes sched) as (Hwg & Hz & Hlen).
      unfold uncapped_inv in Hun. rewrite Hun.
      rewrite Hr in Hz, Hlen. simpl in Hlen. rewrite Hi in Hlen.
      rewrite <- Hlen, Nat.add_0_r.
      apply count_tasks_all. apply Forall_lookup_2. intros k t Hk.
      rewrite Hz in Hwg. symmetry in Hwg.
      pose proof (count_tasks_zero _ _ _ _ Hwg Hk) as Hlive.
      unfold live, past_call in *. by destruct (t_pc t).
Qed.

(** ** The nil head block *)

(** C10. Trace search dereferences the head block unconditionally: on an
    instance whose head block is nil it panics (and it never panics
    when there is a head block).  The three tag surfaces guard the nil
    head block: they never panic on it, and when no other block raises a
    fatal error they succeed. *)
Theorem nil_head_block ctx i userID :
  ctx_orgID ctx = Some userID →
  (∀ req sched, is_Some (headBlock i) → (Search ctx req i sched).1 ≠ Panic) ∧
  (headBlock i = None →
   (∀ req sched, (Search ctx req i sched).1 = Panic) ∧
   (∀ req, (SearchTagsV2 ctx req i).1 ≠ Panic) ∧
   (∀ tagName, (SearchTagValues ctx tagName i).1 ≠ Panic) ∧
   (∀ req sched, (SearchTagValuesV2 ctx req i sched).1 ≠ Some Panic) ∧
   (∀ req,
      tags_Scope req ≠ ParamScopeIntrinsic →
      AttributeScopeFromString (tags_Scope req) ≠ AttributeScopeUnknown →
      Forall (SearchTagsV2_quiet ctx (AttributeScopeFromString (tags_Scope req))
                (ExtractMatchers (tags_Query req)))
             (completingBlocks i ++ completeBlocks i) →
      ∃ resp, (SearchTagsV2 ctx req i).1 = Ok resp) ∧
   (∀ tagName,
      Forall (SearchTagValues_quiet ctx tagName)
             (completingBlocks i ++ completeBlocks i) →
      ∃ resp, (SearchTagValues ctx tagName i).1 = Ok resp) ∧
   (∀ req limit p sched,
      SearchTagValuesV2_entry ctx req i = inr (limit, p) →
      Forall (V2_quiet p) (completingBlocks i ++ completeBlocks i) →
      (∃ more, is_Some (SearchTagValuesV2 ctx req i (sched ++ more)).1) ∧
      (∀ r, (SearchTagValuesV2 ctx req i sched).1 = Some r → ∃ resp, r = Ok resp))).
Proof.
  intros Hu. split.
  { intros req sched Hhead.
    pose proof (Search_run_result ctx req i sched Hhead) as Hres.
    unfold Search. destruct (Search_run ctx req i sched) as [[r st] tr].
    simpl in *. rewrite Hres. by destruct (anyErr st). }
  intros Hnil.
  assert (allBlocks i = completingBlocks i ++ completeBlocks i) as Hall
    by (unfold allBlocks; by rewrite Hnil).
  pose proof (tag_surfaces_quiet ctx i userID Hu)
    as (HtagsV2 & Hvalues & HvaluesV2).
  split; [| split; [| split; [| split; [| split; [| split]]]]].
  - intros req sched. by rewrite Search_nil_head.
  - intros req. unfold SearchTagsV2.
    destruct (ExtractOrgID ctx) as [u [e |]]; [done |].
    case_bool_decide; [done |]. case_bool_decide; [done |].
    pose proof (SearchTagsV2_locked_no_panic ctx
                  (AttributeScopeFromString (tags_Scope req))
                  (ExtractMatchers (tags_Query req))
                  (MaxBytesPerTagValuesQuery (limits i) u) i) as Hl.
    by destruct (SearchTagsV2_locked _ _ _ _ _) as [[r dv] tr].
  - intros tagName. unfold SearchTagValues.
    destruct (ExtractOrgID ctx) as [u [e |]]; [done |].
    pose proof (SearchTagValues_locked_no_panic ctx tagName
                  (MaxBytesPerTagValuesQuery (limits i) u)
                  (maxBlocksOf (MaxBlocksPerTagValuesQuery (limits i) u)) i) as Hl.
    by destruct (SearchTagValues_locked _ _ _ _ _) as [[r st] tr].
  - intros req sched. unfold SearchTagValuesV2.
    destruct (SearchTagValuesV2_entry ctx req i) as [r | [limit p]] eqn:Hentry.
    + simpl. intros [= ->]. revert Hentry.
      unfold SearchTagValuesV2_entry.
      destruct (ExtractOrgID ctx) as [u [e |]]; [done |].
      destruct (ParseIdentifier (tvr_TagName req)) as [tag [e |]]; [done |].
      by destruct (is_ID_intrinsic tag).
    + simpl. intros Hr. apply V2_result_returned in Hr.
      pose proof (V2_run_result_inv p limit sched) as Hres.
      unfold result_inv in Hres. rewrite Hr in Hres.
      destruct Hres as [Hres _]. by destruct (v_anyErr _).
  - intros req Hscope Hknown Hq. rewrite <- Hall in Hq.
    specialize (HtagsV2 req Hscope Hknown Hq).
    destruct (SearchTagsV2_locked _ _ _ _ _) as [[r dv] tr].
    destruct HtagsV2 as [-> _]. by eexists.
  - intros tagName Hq. rewrite <- Hall in Hq.
    specialize (Hvalues tagName Hq).
    destruct (SearchTagValues_locked _ _ _ _ _) as [[r st] tr].
    destruct Hvalues as [-> _]. by eexists.
  - intros req limit p sched Hentry Hq. rewrite <- Hall in Hq.
    destruct (HvaluesV2 req limit p sched Hentry Hq) as [Hterm Hok].
    split; [apply Hterm |].
    intros r Hr. destruct (Hok r Hr) as [-> _]. by eexists.
Qed.

(** ** The inclusion filter, further *)

Lemma Unix_bounds (t : Time) :
  Unix t * 1000000000 ≤ t < (Unix t + 1) * 1000000000.
Proof.
  unfold Unix.
  pose proof (Z.div_mod t 1000000000 ltac:(lia)).
  pose proof (Z.mod_pos_bound t 1000000000 ltac:(lia)). lia.
Qed.

(** The inclusion test in nanoseconds.  Both block bounds are cut down
    to whole seconds before they are compared, so, for a request window
    [rs, re] with both ends set, a block is included exactly when it
    starts before second [re + 1] and ends at or after second [rs]: a
    block that starts up to a second after the window's end is still
    included. *)
Theorem includeBlock_nanoseconds (b : BlockMeta) (req : SearchRequest) :
  SearchRequest_wf req → req_Start req ≠ 0 → req_End req ≠ 0 →
  (includeBlock b req = true ↔
   StartTime b < (req_End req + 1) * 1000000000 ∧
   req_Start req * 1000000000 ≤ EndTime b).
Proof.
  intros [_ Hs He] Hs0 He0. unfold includeBlock.
  rewrite !int64_of_uint32 by done.
  rewrite !bool_decide_false by done. simpl.
  rewrite andb_true_iff, !bool_decide_eq_true.
  pose proof (Unix_bounds (StartTime b)). pose proof (Unix_bounds (EndTime b)).
  lia.
Qed.

(** For a block and a request window that are both in order, the block
    is included exactly when the two intervals, in whole seconds, have a
    second in common. *)
Theorem includeBlock_overlap (b : BlockMeta) (req : SearchRequest) :
  SearchRequest_wf req → req_Start req ≠ 0 → req_End req ≠ 0 →
  req_Start req ≤ req_End req → StartTime b ≤ EndTime b →
  (includeBlock b req = true ↔
   ∃ t, Unix (StartTime b) ≤ t ≤ Unix (EndTime b) ∧ req_Start req ≤ t ≤ req_End req).
Proof.
  intros [_ Hs He] Hs0 He0 Hreq Hb. unfold includeBlock.
  rewrite !int64_of_uint32 by done.
  rewrite !bool_decide_false by done. simpl.
  rewrite andb_true_iff, !bool_decide_eq_true.
  assert (Unix (StartTime b) ≤ Unix (EndTime b)) as Hmono
    by (unfold Unix; apply Z.div_le_mono; lia).
  split.
  - intros [H1 H2]. exists (Z.max (Unix (StartTime b)) (req_Start req)). lia.
  - intros (t & Ht1 & Ht2). lia.
Qed.

(** Widening the request window never drops a block: a block included
    for a window with both ends set is included for every window that
    starts no later and ends no earlier. *)
Theorem includeBlock_widen (b : BlockMeta) (req req' : SearchRequest) :
  SearchRequest_wf req → SearchRequest_wf req' →
  req_Start req ≠ 0 → req_End req ≠ 0 →
  req_Start req' ≤ req_Start req → req_End req ≤ req_End req' →
  includeBlock b req = true → includeBlock b req' = true.
Proof.
  intros [_ Hs He] [_ Hs' He'] Hs0 He0 Hstart Hend. unfold includeBlock.
  rewrite !int64_of_uint32 by done.
  rewrite (bool_decide_false (req_Start req = 0)) by done.
  rewrite (bool_decide_false (req_End req = 0)) by done. simpl.
  rewrite andb_true_iff, !bool_decide_eq_true. intros [H1 H2].
  destruct (bool_decide (req_Start req' = 0)); [done |].
  destruct (bool_decide (req_End req' = 0)); [done |]. simpl.
  rewrite andb_true_iff, !bool_decide_eq_true. lia.
Qed.

(** ** Trace search, further *)

Lemma errors_Is_refl (e : error) : errors_Is e e = true.
Proof. destruct e; cbn [errors_Is]; by rewrite bool_decide_true. Qed.

Lemma errors_Is_Errorf (msg : string) (e target : error) :
  errors_Is e target = true → errors_Is (Errorf msg e) target = true.
Proof. intros H. cbn [errors_Is]. rewrite H. apply orb_true_r. Qed.

(** The head block is searched under the caller's own context. *)
Lemma Search_ctx_head ctx (st : SearchState) : Search_ctx ctx false st = ctx.
Proof. destruct ctx as [o c]. unfold Search_ctx. simpl. by rewrite orb_false_r. Qed.

Lemma Search_ctx_shape ctx sees (st : SearchState) :
  ∃ c, Search_ctx ctx sees st = mkContext (ctx_orgID ctx) c.
Proof. by eexists. Qed.

(** Where the error in the [anyErr] slot comes from. *)
Lemma Search_search_origin ctx req maxResults sees b (st : SearchState) e :
  anyErr (Search_search ctx req maxResults sees b st).1 = Some e →
  anyErr st = Some e ∨
  (errors_Is e ErrUnsupported = false ∧ errors_Is e Canceled = false ∧
   ∃ c, (Search_block (mkContext (ctx_orgID ctx) c) req b).2 = Some e).
Proof.
  unfold Search_search.
  destruct (Search_ctx_shape ctx sees st) as [c ->].
  destruct (Search_block _ req b) as [resp err] eqn:Hb.
  destruct err as [e' |]; simpl.
  - destruct (errors_Is e' ErrUnsupported) eqn:Hu; simpl; [by left |].
    destruct (errors_Is e' Canceled) eqn:Hc; simpl; [by left |].
    intros [= <-]. right. split; [done |]. split; [done |].
    exists c. by rewrite Hb.
  - destruct resp as [resp |]; [| by left].
    case_bool_decide; simpl; [by left |].
    destruct (addTraces _ _ _). simpl. by left.
Qed.

Lemma Search_fanout_origin ctx req maxResults tasks sched (st : SearchState) e :
  anyErr (Search_fanout ctx req maxResults tasks sched st).1 = Some e →
  anyErr st = Some e ∨
  (errors_Is e ErrUnsupported = false ∧ errors_Is e Canceled = false ∧
   ∃ b c, b ∈ tasks ∧ (Search_block (mkContext (ctx_orgID ctx) c) req b).2 = Some e).
Proof.
  revert st. induction sched as [| [k sees] rest IH]; intros st; simpl; [by left |].
  destruct (tasks !! k) as [b |] eqn:Hk; [| by apply IH].
  pose proof (Search_search_origin ctx req maxResults sees b st e) as Hs.
  destruct (Search_search ctx req maxResults sees b st) as [st' ev].
  specialize (IH st').
  destruct (Search_fanout ctx req maxResults tasks rest st') as [st'' ev'].
  simpl in *. intros Hst''.
  destruct (IH Hst'') as [Hst' | Hnew]; [| by right].
  destruct (Hs Hst') as [? | (Hu & Hc & c & Hb)]; [by left |].
  right. split; [done |]. split; [done |].
  exists b, c. split; [by eapply list_elem_of_lookup_2 | done].
Qed.

Lemma Search_tasks_included req i b :
  b ∈ Search_tasks req i →
  b ∈ completingBlocks i ++ completeBlocks i ∧ includeBlock (Meta b) req = true.
Proof.
  unfold Search_tasks. rewrite !elem_of_app, !list_elem_of_filter. naive_solver.
Qed.

(** An error returned by the trace search is the error of the call on
    one of the included blocks, handed back as it is (it is not
    wrapped), and it is never one that [errors.Is] [ErrUnsupported] or
    [context.Canceled]. *)
Theorem Search_error_origin ctx req i sched e :
  (Search ctx req i sched).1 = Err e →
  errors_Is e ErrUnsupported = false ∧ errors_Is e Canceled = false ∧
  ∃ b c, b ∈ allBlocks i ∧ includeBlock (Meta b) req = true ∧
         (Search_block (mkContext (ctx_orgID ctx) c) req b).2 = Some e.
Proof.
  unfold Search, Search_run.
  destruct (headBlock i) as [h |] eqn:Hh; [| done].
  set (st0 := mkSearchState _ _ _ _).
  assert (∀ e', anyErr (if includeBlock (Meta h) req
                        then Search_search ctx req (Search_maxResults req) false h st0
                        else (st0, [])).1 = Some e' →
                errors_Is e' ErrUnsupported = false ∧ errors_Is e' Canceled = false ∧
                includeBlock (Meta h) req = true ∧
                ∃ c, (Search_block (mkContext (ctx_orgID ctx) c) req h).2 = Some e')
    as Hhead.
  { intros e'. destruct (includeBlock (Meta h) req) eqn:Hin; [| done].
    intros He'. apply Search_search_origin in He'.
    destruct He' as [? | (? & ? & ?)]; [done | done]. }
  destruct (if includeBlock (Meta h) req then _ else _) as [st1 evHead].
  simpl in Hhead.
  assert (h ∈ allBlocks i) as Hhi.
  { unfold allBlocks. rewrite Hh. simpl. apply list_elem_of_here. }
  destruct (anyErr st1) as [e1 |] eqn:He1.
  { simpl. intros [= <-]. destruct (Hhead e1 eq_refl) as (? & ? & ? & c & ?).
    split; [done |]. split; [done |]. by exists h, c. }
  case_bool_decide; [done |].
  pose proof (Search_fanout_origin ctx req (Search_maxResults req)
                (Search_tasks req i) sched st1 e) as Hfan.
  destruct (Search_fanout _ _ _ _ _ _) as [st2 ev]. simpl in Hfan.
  destruct (anyErr st2) as [e2 |] eqn:He2; [| done].
  simpl. intros [= <-].
  destruct (Hfan eq_refl) as [Hold | (? & ? & b & c & Hb & ?)]; [congruence |].
  apply Search_tasks_included in Hb as [Hb Hin].
  split; [done |]. split; [done |]. exists b, c.
  split; [| done]. unfold allBlocks. rewrite elem_of_app. by right.
Qed.

Lemma Search_fanout_skipped ctx req maxResults tasks sched (st : SearchState) :
  (∀ b c, b ∈ tasks →
     ∃ e, (Search_block (mkContext (ctx_orgID ctx) c) req b).2 = Some e ∧
          (errors_Is e ErrUnsupported = true ∨ errors_Is e Canceled = true)) →
  (Search_fanout ctx req maxResults tasks sched st).1 = st.
Proof.
  intros Hq. revert st.
  induction sched as [| [k sees] rest IH]; intros st; simpl; [done |].
  destruct (tasks !! k) as [b |] eqn:Hk; [| by apply IH].
  assert (b ∈ tasks) as Hb by (by eapply list_elem_of_lookup_2).
  destruct (Hq b (ctx_cancelled ctx || sees && cancelled st) Hb) as (e & He & Hign).
  pose proof (Search_search_ignored ctx req maxResults sees b st e He Hign) as Hs.
  destruct (Search_search ctx req maxResults sees b st) as [st' ev].
  specialize (IH st').
  destruct (Search_fanout ctx req maxResults tasks rest st') as [st'' ev'].
  simpl in *. congruence.
Qed.

(** When the call on every block ends in an error that is skipped
    ([ErrUnsupported] or [context.Canceled]), the trace search succeeds
    with no traces and zero metrics, under every schedule. *)
Theorem Search_all_skipped ctx req i sched :
  is_Some (headBlock i) →
  (∀ b c, b ∈ allBlocks i →
     ∃ e, (Search_block (mkContext (ctx_orgID ctx) c) req b).2 = Some e ∧
          (errors_Is e ErrUnsupported = true ∨ errors_Is e Canceled = true)) →
  (Search ctx req i sched).1 = Ok (mkSearchResponse [] (Some (mkSearchMetrics 0 0))).
Proof.
  intros [h Hh] Hq. unfold Search, Search_run. rewrite Hh.
  set (st0 := mkSearchState _ _ _ _).
  assert (h ∈ allBlocks i) as Hhi.
  { unfold allBlocks. rewrite Hh. simpl. apply list_elem_of_here. }
  assert ((if includeBlock (Meta h) req
           then Search_search ctx req (Search_maxResults req) false h st0
           else (st0, [])).1 = st0) as Hhead.
  { destruct (includeBlock (Meta h) req); [| done].
    destruct (Hq h (ctx_cancelled ctx || false && cancelled st0) Hhi) as (e & He & Hign).
    by eapply Search_search_ignored. }
  destruct (if includeBlock (Meta h) req then _ else _) as [st1 evHead].
  simpl in Hhead. subst st1. simpl anyErr. cbv iota.
  assert (Search_response st0 = mkSearchResponse [] (Some (mkSearchMetrics 0 0))) as Hresp.
  { unfold Search_response, st0, traceql.Metadata. simpl.
    by rewrite map_to_list_empty. }
  case_bool_decide; [simpl; by rewrite Hresp |].
  assert ((Search_fanout ctx req (Search_maxResults req) (Search_tasks req i) sched st0).1
          = st0) as Hfan.
  { apply Search_fanout_skipped. intros b c Hb. apply Hq.
    apply Search_tasks_included in Hb as [Hb _].
    unfold allBlocks. rewrite elem_of_app. by right. }
  destruct (Search_fanout _ _ _ _ _ _) as [st2 ev]. simpl in Hfan. subst st2.
  simpl. by rewrite Hresp.
Qed.

Lemma Count_AddMetadata_fresh (c : traceql.MetadataCombiner) (tr : TraceSearchMetadata) :
  traceql.trs c !! TraceID tr = None →
  traceql.Count (traceql.AddMetadata c tr) = traceql.Count c + 1.
Proof.
  intros Hnew. unfold traceql.AddMetadata, traceql.Count. rewrite Hnew. simpl.
  rewrite map_size_insert_None by done. lia.
Qed.

(** Enough distinct new traces fill the combiner to the limit exactly,
    and [cancel] is called. *)
Lemma addTraces_fill (maxResults : Z) (traces : list TraceSearchMetadata)
    (c : traceql.MetadataCombiner) :
  NoDup (TraceID <$> traces) →
  (∀ tr, tr ∈ traces → traceql.trs c !! TraceID tr = None) →
  traceql.Count c < maxResults →
  maxResults ≤ traceql.Count c + Z.of_nat (length traces) →
  traceql.Count (addTraces maxResults traces c).1 = maxResults ∧
  (addTraces maxResults traces c).2 = true.
Proof.
  revert c. induction traces as [| tr rest IH]; intros c Hnd Hnew Hlt Hle; simpl in *.
  { lia. }
  apply NoDup_cons in Hnd as [Hfresh Hnd].
  pose proof (Count_AddMetadata_fresh c tr (Hnew tr ltac:(left))) as Hc.
  case_bool_decide; simpl; [split; [lia | done] |].
  apply IH; [done | | lia | lia].
  intros tr' Htr'. unfold traceql.AddMetadata.
  rewrite (Hnew tr ltac:(left)). simpl.
  rewrite lookup_insert_ne; [apply Hnew; by right |].
  intros Heq. apply Hfresh. rewrite Heq. by apply list_elem_of_fmap_2.
Qed.

(** A head block that holds at least as many distinct traces as the
    limit asks for answers the query alone: the response holds exactly
    that many traces, the blocks lock is not taken and no other block is
    called. *)
Theorem Search_head_fills_limit ctx req i sched h resp :
  SearchRequest_wf req →
  headBlock i = Some h → includeBlock (Meta h) req = true →
  Search_block ctx req h = (Some resp, None) →
  NoDup (TraceID <$> Traces resp) →
  Search_maxResults req ≤ Z.of_nat (length (Traces resp)) →
  ∃ r, Search ctx req i sched =
         (Ok r, [EvRLock headBlockMtx;
                 EvCall (blockID h) (if IsTraceQLQuery req then OpFetch else OpSearch);
                 EvRUnlock headBlockMtx]) ∧
       Z.of_nat (length (Traces r)) = Search_maxResults req.
Proof.
  intros Hwf Hh Hin Hb Hnd Hlen.
  destruct (Search_maxResults_wf req Hwf) as [_ Hpos].
  unfold Search, Search_run. rewrite Hh, Hin.
  unfold Search_search. rewrite Search_ctx_head, Hb. simpl.
  pose proof Count_NewMetadataCombiner as H0.
  rewrite bool_decide_false by lia.
  destruct (addTraces_fill (Search_maxResults req) (Traces resp)
              traceql.NewMetadataCombiner Hnd) as [Hcount Hcancel]; [done | lia | lia |].
  destruct (addTraces _ _ _) as [c cancel]. simpl in *.
  rewrite bool_decide_true by lia.
  eexists. split; [reflexivity |].
  unfold Search_response. simpl. by rewrite length_Metadata.
Qed.

(** A fatal error on the head block ends the trace search at once: the
    error is returned as it is, the blocks lock is not taken and no
    other block is called. *)
Theorem Search_head_failure ctx req i sched h e :
  headBlock i = Some h → includeBlock (Meta h) req = true →
  (Search_block ctx req h).2 = Some e →
  errors_Is e ErrUnsupported = false → errors_Is e Canceled = false →
  Search ctx req i sched =
    (Err e, [EvRLock headBlockMtx;
             EvCall (blockID h) (if IsTraceQLQuery req then OpFetch else OpSearch);
             EvLog LevelError "error searching block";
             EvRUnlock headBlockMtx]).
Proof.
  intros Hh Hin Hb Hu Hc.
  unfold Search, Search_run. rewrite Hh, Hin.
  unfold Search_search. rewrite Search_ctx_head.
  destruct (Search_block ctx req h) as [resp err]. simpl in Hb. subst err.
  simpl. rewrite Hu, Hc. done.
Qed.

(** ** Which blocks are called *)

Lemma call_ids_app (tr1 tr2 : list event) :
  call_ids (tr1 ++ tr2) = call_ids tr1 ++ call_ids tr2.
Proof.
  induction tr1 as [| e tr1 IH]; simpl; [done |].
  destruct e; simpl; by rewrite ?IH.
Qed.







(** ** Locks at the return *)

Lemma held_head_bracket (m : lock) (evH : list event) :
  no_locks evH →
  held m ([EvRLock headBlockMtx] ++ evH ++ [EvRUnlock headBlockMtx]) = 0.
Proof.
  intros HH. rewrite !held_app, (held_skip m evH HH). simpl.
  destruct (bool_decide (headBlockMtx = m)); lia.
Qed.

Lemma held_both_brackets (m : lock) (evH ev : list event) :
  no_locks evH → no_locks ev →
  held m (([EvRLock headBlockMtx] ++ evH ++ [EvRUnlock headBlockMtx]) ++
          [EvRLock blocksMtx] ++ ev ++ [EvRUnlock blocksMtx]) = 0.
Proof.
  intros HH Hev. rewrite held_app, held_head_bracket by done.
  rewrite !held_app, (held_skip m ev Hev). simpl.
  destruct (bool_decide (blocksMtx = m)); lia.
Qed.

Lemma Search_run_held ctx req i sched (m : lock) :
  is_Some (headBlock i) → held m (Search_run ctx req i sched).2 = 0.
Proof.
  intros [h Hh]. unfold Search_run. rewrite Hh.
  set (st0 := mkSearchState _ _ _ _).
  assert (no_locks (if includeBlock (Meta h) req
                    then Search_search ctx req (Search_maxResults req) false h st0
                    else (st0, [])).2) as HH.
  { destruct (includeBlock (Meta h) req);
      [apply Search_search_no_locks | apply no_locks_nil]. }
  destruct (if includeBlock (Meta h) req then _ else _) as [st1 evHead].
  simpl in HH.
  destruct (anyErr st1); [by apply held_head_bracket |].
  case_bool_decide; [by apply held_head_bracket |].
  pose proof (Search_fanout_no_locks ctx req (Search_maxResults req)
                (Search_tasks req i) sched st1) as Hfan.
  destruct (Search_fanout _ _ _ _ _ _) as [st2 ev]. simpl in Hfan.
  destruct (anyErr st2); by apply held_both_brackets.
Qed.

Lemma SearchTagsV2_locked_held ctx a q limit i (m : lock) :
  held m (SearchTagsV2_locked ctx a q limit i).2 = 0.
Proof.
  unfold SearchTagsV2_locked.
  pose proof (SearchTagsV2_searchBlock_no_locks ctx a q (headBlock i)
                (NewScopedDistinctString limit)) as HH.
  destruct (SearchTagsV2_searchBlock ctx a q (headBlock i) _) as [[err dv] evH].
  simpl in HH.
  destruct err as [e |].
  { destruct (headBlock i); by apply held_head_bracket. }
  pose proof (SearchTagsV2_range_no_locks ctx a q "completing" (completingBlocks i) dv) as H1.
  destruct (SearchTagsV2_range ctx a q "completing" _ dv) as [[err1 dv1] ev1].
  simpl in H1.
  destruct err1 as [e |]; [by apply held_both_brackets |].
  pose proof (SearchTagsV2_range_no_locks ctx a q "complete" (completeBlocks i) dv1) as H2.
  destruct (SearchTagsV2_range ctx a q "complete" _ dv1) as [[err2 dv2] ev2].
  simpl in H2.
  destruct err2 as [e |]; simpl snd.
  - rewrite (app_assoc ev1 ev2).
    apply held_both_brackets; [done | by apply no_locks_app].
  - rewrite (app_assoc ev2), (app_assoc ev1).
    apply held_both_brackets; [done |].
    repeat apply no_locks_app; try done.
    destruct (ScopedExceeded dv2); by repeat constructor.
Qed.

Lemma SearchTagValues_locked_held ctx tagName limit maxBlocks i (m : lock) :
  held m (SearchTagValues_locked ctx tagName limit maxBlocks i).2 = 0.
Proof.
  unfold SearchTagValues_locked.
  set (st0 := mkTagValuesState 0 (NewDistinctString limit)).
  pose proof (SearchTagValues_search_calls ctx tagName maxBlocks (headBlock i) st0) as HH.
  destruct (SearchTagValues_search ctx tagName maxBlocks (headBlock i) st0)
    as [[err st] evH].
  destruct HH as [HH _].
  destruct err as [e |].
  { destruct (headBlock i); by apply held_head_bracket. }
  pose proof (SearchTagValues_range_calls ctx tagName maxBlocks "completing"
                (completingBlocks i) st) as H1.
  destruct (SearchTagValues_range ctx tagName maxBlocks "completing" _ st)
    as [[err1 st1] ev1].
  destruct H1 as [H1 _].
  destruct err1 as [e |]; [by apply held_both_brackets |].
  pose proof (SearchTagValues_range_calls ctx tagName maxBlocks "complete"
                (completeBlocks i) st1) as H2.
  destruct (SearchTagValues_range ctx tagName maxBlocks "complete" _ st1)
    as [[err2 st2] ev2].
  destruct H2 as [H2 _].
  destruct err2 as [e |]; simpl snd.
  - rewrite (app_assoc ev1 ev2).
    apply held_both_brackets; [done | by apply no_locks_app].
  - rewrite (app_assoc ev2), (app_assoc ev1).
    apply held_both_brackets; [done |].
    repeat apply no_locks_app; try done.
    destruct (Exceeded (distinctValues st2)); by repeat constructor.
Qed.

(** The trace search (on a registry with a head block), both tag-name
    searches and the flat tag-value search give back every lock they
    take before they return, on success and on every error path. *)
Theorem locks_released_at_return ctx i (m : lock) :
  (∀ req sched, is_Some (headBlock i) → held m (Search ctx req i sched).2 = 0) ∧
  (∀ req, held m (SearchTagsV2 ctx req i).2 = 0) ∧
  (∀ scope, held m (SearchTags ctx scope i).2 = 0) ∧
  (∀ tagName, held m (SearchTagValues ctx tagName i).2 = 0).
Proof.
  assert (∀ req, held m (SearchTagsV2 ctx req i).2 = 0) as HtagsV2.
  { intros req. unfold SearchTagsV2.
    destruct (ExtractOrgID ctx) as [userID [e |]]; [done |].
    case_bool_decide; [done |]. case_bool_decide; [done |].
    pose proof (SearchTagsV2_locked_held ctx
                  (AttributeScopeFromString (tags_Scope req))
                  (ExtractMatchers (tags_Query req))
                  (MaxBytesPerTagValuesQuery (limits i) userID) i m) as Hl.
    by destruct (SearchTagsV2_locked _ _ _ _ _) as [[r dv] tr]. }
  split; [| split; [done | split]].
  - intros req sched Hh. unfold Search.
    pose proof (Search_run_held ctx req i sched m Hh) as Hl.
    by destruct (Search_run ctx req i sched) as [[r st] tr].
  - intros scope. unfold SearchTags.
    specialize (HtagsV2 (mkSearchTagsRequest scope "")).
    destruct (SearchTagsV2 ctx _ i) as [r tr]. by destruct r.
  - intros tagName. unfold SearchTagValues.
    destruct (ExtractOrgID ctx) as [userID [e |]]; [done |].
    pose proof (SearchTagValues_locked_held ctx tagName
                  (MaxBytesPerTagValuesQuery (limits i) userID)
                  (maxBlocksOf (MaxBlocksPerTagValuesQuery (limits i) userID)) i m) as Hl.
    by destruct (SearchTagValues_locked _ _ _ _ _) as [[r st] tr].
Qed.

(** ** Tag-value search (flat): calls, errors and values *)

Lemma foldl_Collect_values_sound (vals : list string) (d : DistinctString) (v : string) :
  v ∈ ds_values (foldl Collect d vals) → v ∈ ds_values d ∨ v ∈ vals.
Proof.
  revert d. induction vals as [| s vals IH]; intros d; simpl; [by left |].
  intros Hv. destruct (IH _ Hv) as [Hd | ?]; [| right; by right].
  unfold Collect in Hd.
  destruct (ds_limExceeded d); [by left |].
  case_bool_decide; [by left |].
  destruct (_ && _); simpl in Hd; [by left |].
  apply elem_of_union in Hd as [Hs | ?]; [| by left].
  apply elem_of_singleton in Hs as ->. right. by left.
Qed.

Lemma SearchTagValues_search_nil ctx tagName maxBlocks (st : TagValuesState) :
  SearchTagValues_search ctx tagName maxBlocks None st = (None, st, []).
Proof. unfold SearchTagValues_search. by destruct (_ && _). Qed.

(** One block of the flat tag-value search: it is called at most once;
    an error it returns is the block's own, wrapped, and never an
    [ErrUnsupported]; the values held afterwards were held before or
    come from the block. *)
Lemma SearchTagValues_search_sound ctx tagName maxBlocks b (st : TagValuesState) :
  call_ids (SearchTagValues_search ctx tagName maxBlocks (Some b) st).2
    `sublist_of` [blockID b] ∧
  (∀ e, (SearchTagValues_search ctx tagName maxBlocks (Some b) st).1.1 = Some e →
     call_ids (SearchTagValues_search ctx tagName maxBlocks (Some b) st).2 = [blockID b] ∧
     ∃ e0, (SearchTagValues_ b ctx tagName).2 = Some e0 ∧
           errors_Is e0 ErrUnsupported = false ∧
           e = Errorf ("unexpected error searching tag values (" +:+ tagName +:+ ")") e0) ∧
  (∀ v, v ∈ ds_values
              (distinctValues (SearchTagValues_search ctx tagName maxBlocks (Some b) st).1.2) →
        v ∈ ds_values (distinctValues st) ∨ v ∈ (SearchTagValues_ b ctx tagName).1).
Proof.
  unfold SearchTagValues_search.
  destruct (_ && _).
  { simpl. split; [apply sublist_nil_l |]. split; [done | by left]. }
  destruct (Exceeded (distinctValues st)).
  { simpl. split; [apply sublist_nil_l |]. split; [done | by left]. }
  destruct (SearchTagValues_ b ctx tagName) as [vals err]. simpl.
  assert (∀ v, v ∈ ds_values (foldl Collect (distinctValues st) vals) →
               v ∈ ds_values (distinctValues st) ∨ v ∈ vals) as Hsound
    by (intros v; apply foldl_Collect_values_sound).
  destruct err as [e0 |]; simpl.
  - destruct (errors_Is e0 ErrUnsupported) eqn:Hu; simpl.
    + split; [done |]. split; [done | done].
    + split; [done |]. split; [| done].
      intros e [= <-]. split; [done |]. by exists e0.
  - split; [done |]. split; [done | done].
Qed.

Lemma SearchTagValues_range_sound ctx tagName maxBlocks (k : task_kind) blocks
    (st : TagValuesState) :
  call_ids (SearchTagValues_range ctx tagName maxBlocks (kindName k) blocks st).2
    `sublist_of` (blockID <$> blocks) ∧
  (∀ e, (SearchTagValues_range ctx tagName maxBlocks (kindName k) blocks st).1.1 = Some e →
     ∃ b e0, b ∈ blocks ∧ (SearchTagValues_ b ctx tagName).2 = Some e0 ∧
             errors_Is e0 ErrUnsupported = false ∧
             e = block_error k b
                   (Errorf ("unexpected error searching tag values (" +:+ tagName +:+ ")") e0) ∧
             last (call_ids
                     (SearchTagValues_range ctx tagName maxBlocks (kindName k) blocks st).2)
             = Some (blockID b)) ∧
  (∀ v, v ∈ ds_values (distinctValues
              (SearchTagValues_range ctx tagName maxBlocks (kindName k) blocks st).1.2) →
        v ∈ ds_values (distinctValues st) ∨
        ∃ b, b ∈ blocks ∧ v ∈ (SearchTagValues_ b ctx tagName).1).
Proof.
  revert st. induction blocks as [| b rest IH]; intros st; simpl.
  { split; [done |]. split; [done | by left]. }
  destruct (SearchTagValues_search_sound ctx tagName maxBlocks b st)
    as (Hsub & Herr & Hval).
  destruct (SearchTagValues_search ctx tagName maxBlocks (Some b) st)
    as [[err st'] ev]. simpl in Hsub, Herr, Hval.
  destruct err as [e1 |]; simpl.
  - destruct (Herr e1 eq_refl) as (Hids & e0 & Hb & Hu & ->).
    split; [| split].
    + rewrite Hids. apply (sublist_inserts_r (blockID <$> rest) [blockID b] [blockID b]).
      done.
    + intros e [= <-]. exists b, e0.
      split; [by left |]. split; [done |]. split; [done |]. split; [done |].
      by rewrite Hids.
    + intros v Hv. destruct (Hval v Hv) as [? | ?]; [by left |].
      right. exists b. split; [by left | done].
  - destruct (IH st') as (Hsub' & Herr' & Hval').
    destruct (SearchTagValues_range ctx tagName maxBlocks (kindName k) rest st')
      as [[err' st''] ev']. simpl in *.
    split; [| split].
    + rewrite call_ids_app.
      apply (sublist_app _ [blockID b] _ (blockID <$> rest)); done.
    + intros e He. destruct (Herr' e He) as (b' & e0 & Hb' & Hb'e & Hu & -> & Hlast).
      exists b', e0. split; [by right |]. split; [done |]. split; [done |].
      split; [done |]. rewrite call_ids_app. apply last_app_Some. by left.
    + intros v Hv. destruct (Hval' v Hv) as [Hst' | (b' & Hb' & Hv')].
      * destruct (Hval v Hst') as [? | ?]; [by left |].
        right. exists b. split; [by left | done].
      * right. exists b'. split; [by right | done].
Qed.

Lemma elem_of_kind_blocks (i : instance) (k : task_kind) (b : Searcher) :
  b ∈ kind_blocks i k → b ∈ allBlocks i.
Proof.
  unfold allBlocks. rewrite !elem_of_app. destruct k; simpl; tauto.
Qed.

Lemma call_ids_head_bracket (evH : list event) :
  call_ids ([EvRLock headBlockMtx] ++ evH ++ [EvRUnlock headBlockMtx]) = call_ids evH.
Proof. rewrite !call_ids_app. simpl. by rewrite app_nil_r. Qed.

Lemma call_ids_both_brackets (evH ev : list event) :
  call_ids (([EvRLock headBlockMtx] ++ evH ++ [EvRUnlock headBlockMtx]) ++
            [EvRLock blocksMtx] ++ ev ++ [EvRUnlock blocksMtx]) =
    call_ids evH ++ call_ids ev.
Proof.
  rewrite call_ids_app, call_ids_head_bracket, !call_ids_app. simpl.
  by rewrite app_nil_r.
Qed.

Lemma call_ids_warning (c : bool) (w : event) :
  is_call w = false → call_ids (if c then [w] else []) = [].
Proof. intros Hw. destruct c; [| done]. by destruct w. Qed.

(** The flat tag-value search from the head lock on: the calls follow
    the registry, an error names the block it comes from, and every
    value held at the end comes from a block. *)
Lemma SearchTagValues_locked_sound ctx tagName limit maxBlocks i :
  call_ids (SearchTagValues_locked ctx tagName limit maxBlocks i).2
    `sublist_of` (blockID <$> allBlocks i) ∧
  (∀ e, (SearchTagValues_locked ctx tagName limit maxBlocks i).1.1 = Err e →
     ∃ k b e0, b ∈ kind_blocks i k ∧ (SearchTagValues_ b ctx tagName).2 = Some e0 ∧
               errors_Is e0 ErrUnsupported = false ∧
               e = block_error k b
                     (Errorf ("unexpected error searching tag values (" +:+ tagName +:+ ")")
                        e0) ∧
               last (call_ids (SearchTagValues_locked ctx tagName limit maxBlocks i).2)
               = Some (blockID b)) ∧
  (∀ resp, (SearchTagValues_locked ctx tagName limit maxBlocks i).1.1 = Ok resp →
     resp = mkSearchTagValuesResponse
              (Strings (distinctValues
                          (SearchTagValues_locked ctx tagName limit maxBlocks i).1.2))) ∧
  (∀ v, v ∈ ds_values (distinctValues
              (SearchTagValues_locked ctx tagName limit maxBlocks i).1.2) →
        ∃ b, b ∈ allBlocks i ∧ v ∈ (SearchTagValues_ b ctx tagName).1).
Proof.
  unfold SearchTagValues_locked, allBlocks.
  set (st0 := mkTagValuesState 0 (NewDistinctString limit)).
  assert (call_ids (SearchTagValues_search ctx tagName maxBlocks (headBlock i) st0).2
            `sublist_of` (blockID <$> option_list (headBlock i)) ∧
          (∀ e, (SearchTagValues_search ctx tagName maxBlocks (headBlock i) st0).1.1 = Some e →
             ∃ h e0, headBlock i = Some h ∧
               call_ids (SearchTagValues_search ctx tagName maxBlocks (headBlock i) st0).2
               = [blockID h] ∧
               (SearchTagValues_ h ctx tagName).2 = Some e0 ∧
               errors_Is e0 ErrUnsupported = false ∧
               e = Errorf ("unexpected error searching tag values (" +:+ tagName +:+ ")") e0) ∧
          (∀ v, v ∈ ds_values (distinctValues
                      (SearchTagValues_search ctx tagName maxBlocks (headBlock i) st0).1.2) →
                ∃ b, b ∈ option_list (headBlock i) ∧ v ∈ (SearchTagValues_ b ctx tagName).1))
    as (HsubH & HerrH & HvalH).
  { destruct (headBlock i) as [h |].
    - destruct (SearchTagValues_search_sound ctx tagName maxBlocks h st0)
        as (Hsub & Herr & Hval).
      split; [done |]. split.
      + intros e He. destruct (Herr e He) as (Hids & e0 & ? & ? & ?). by exists h, e0.
      + intros v Hv. destruct (Hval v Hv) as [Hin | ?].
        * subst st0. simpl in Hin. by apply elem_of_empty in Hin.
        * exists h. split; [by left | done].
    - rewrite SearchTagValues_search_nil. simpl.
      split; [done |]. split; [done |].
      intros v Hin. by apply elem_of_empty in Hin. }
  destruct (SearchTagValues_search ctx tagName maxBlocks (headBlock i) st0)
    as [[err st] evH]. simpl in HsubH, HerrH, HvalH.
  destruct err as [e1 |].
  { destruct (HerrH e1 eq_refl) as (h & e0 & Hh & Hids & Hb & Hu & ->).
    rewrite Hh. cbn [fst snd]. rewrite call_ids_head_bracket, Hids.
    split; [| split; [| split]].
    - apply (sublist_inserts_r _ [blockID h] [blockID h]). done.
    - intros e [= <-]. exists HeadTask, h, e0. simpl. rewrite Hh.
      split; [by left |]. done.
    - done.
    - intros v Hv. destruct (HvalH v Hv) as (b & Hbin & ?). rewrite Hh in Hbin.
      exists b. split; [| done]. rewrite elem_of_app. by left. }
  destruct (SearchTagValues_range_sound ctx tagName maxBlocks CompletingTask
              (completingBlocks i) st) as (Hsub1 & Herr1 & Hval1).
  simpl kindName in *.
  destruct (SearchTagValues_range ctx tagName maxBlocks "completing" _ st)
    as [[err1 st1] ev1]. simpl in Hsub1, Herr1, Hval1.
  assert (∀ v, v ∈ ds_values (distinctValues st1) →
               ∃ b, b ∈ option_list (headBlock i) ++ completingBlocks i ∧
                    v ∈ (SearchTagValues_ b ctx tagName).1) as Hval1'.
  { intros v Hv. destruct (Hval1 v Hv) as [Hst | (b & ? & ?)].
    - destruct (HvalH v Hst) as (b & ? & ?). exists b. rewrite elem_of_app. by split; [left |].
    - exists b. rewrite elem_of_app. by split; [right |]. }
  destruct err1 as [e1 |].
  { cbn [fst snd]. rewrite call_ids_both_brackets.
    split; [| split; [| split]].
    - rewrite !fmap_app. apply sublist_app; [done |]. by apply sublist_inserts_r.
    - intros e [= <-].
      destruct (Herr1 e1 eq_refl) as (b & e0 & Hbin & Hb & Hu & -> & Hlast).
      exists CompletingTask, b, e0. simpl.
      split; [done |]. split; [done |]. split; [done |]. split; [done |].
      apply last_app_Some. by left.
    - done.
    - intros v Hv. destruct (Hval1' v Hv) as (b & Hbin & ?). exists b.
      split; [| done]. rewrite app_assoc, elem_of_app. by left. }
  destruct (SearchTagValues_range_sound ctx tagName maxBlocks CompleteTask
              (completeBlocks i) st1) as (Hsub2 & Herr2 & Hval2).
  simpl kindName in *.
  destruct (SearchTagValues_range ctx tagName maxBlocks "complete" _ st1)
    as [[err2 st2] ev2]. simpl in Hsub2, Herr2, Hval2.
  assert (∀ v, v ∈ ds_values (distinctValues st2) →
               ∃ b, b ∈ option_list (headBlock i) ++ completingBlocks i ++ completeBlocks i ∧
                    v ∈ (SearchTagValues_ b ctx tagName).1) as Hval2'.
  { intros v Hv. destruct (Hval2 v Hv) as [Hst | (b & ? & ?)].
    - destruct (Hval1' v Hst) as (b & ? & ?). exists b.
      rewrite app_assoc, elem_of_app. by split; [left |].
    - exists b. rewrite !elem_of_app. by split; [right; right |]. }
  assert (call_ids evH ++ call_ids ev1 ++ call_ids ev2 `sublist_of`
          blockID <$> option_list (headBlock i) ++ completingBlocks i ++ completeBlocks i)
    as Hsub.
  { rewrite !fmap_app. by repeat apply sublist_app. }
  destruct err2 as [e2 |]; cbn [fst snd].
  - rewrite (app_assoc ev1 ev2), call_ids_both_brackets, call_ids_app.
    split; [done |]. split; [| split; [done | done]].
    intros e [= <-].
    destruct (Herr2 e2 eq_refl) as (b & e0 & Hbin & Hb & Hu & -> & Hlast).
    exists CompleteTask, b, e0. simpl.
    split; [done |]. split; [done |]. split; [done |]. split; [done |].
    apply last_app_Some. left. apply last_app_Some. by left.
  - rewrite (app_assoc ev2), (app_assoc ev1), call_ids_both_brackets, !call_ids_app.
    rewrite (call_ids_warning _ tagValuesWarning) by done.
    rewrite app_nil_r.
    split; [done |]. split; [done |]. split; [| done].
    by intros resp [= <-].
Qed.

Lemma SearchTagValues_search_complete ctx tagName b (st : TagValuesState) :
  unlimited (distinctValues st) →
  unlimited (distinctValues (SearchTagValues_search ctx tagName 0 (Some b) st).1.2) ∧
  ds_values (distinctValues (SearchTagValues_search ctx tagName 0 (Some b) st).1.2) =
    list_to_set (SearchTagValues_ b ctx tagName).1 ∪ ds_values (distinctValues st).
Proof.
  intros Hun. unfold SearchTagValues_search.
  rewrite bool_decide_false by lia. simpl.
  destruct Hun as [Hmax Hex]. unfold Exceeded. rewrite Hex.
  destruct (SearchTagValues_ b ctx tagName) as [vals err]. simpl.
  assert (unlimited (foldl Collect (distinctValues st) vals) ∧
          ds_values (foldl Collect (distinctValues st) vals) =
            list_to_set vals ∪ ds_values (distinctValues st)) as Hgoal.
  { split; [by apply foldl_Collect_unlimited | by apply foldl_Collect_values_unlimited]. }
  destruct err as [e |]; [| done].
  by destruct (negb (errors_Is e ErrUnsupported)).
Qed.

Lemma SearchTagValues_range_complete ctx tagName kind blocks (st : TagValuesState) :
  unlimited (distinctValues st) →
  (SearchTagValues_range ctx tagName 0 kind blocks st).1.1 = None →
  unlimited (distinctValues (SearchTagValues_range ctx tagName 0 kind blocks st).1.2) ∧
  (∀ v, v ∈ ds_values (distinctValues st) ∨
        (∃ b, b ∈ blocks ∧ v ∈ (SearchTagValues_ b ctx tagName).1) →
        v ∈ ds_values (distinctValues (SearchTagValues_range ctx tagName 0 kind blocks st).1.2)).
Proof.
  revert st. induction blocks as [| b rest IH]; intros st Hun; simpl.
  { intros _. split; [done |]. intros v [? | (b & Hb & _)]; [done |].
    by apply elem_of_nil in Hb. }
  destruct (SearchTagValues_search_complete ctx tagName b st Hun) as [Hun' Hvals].
  destruct (SearchTagValues_search ctx tagName 0 (Some b) st) as [[err st'] ev].
  simpl in Hun', Hvals.
  destruct err as [e |]; [done |].
  specialize (IH st' Hun').
  destruct (SearchTagValues_range ctx tagName 0 kind rest st') as [[err' st''] ev'].
  simpl in *. intros Herr. destruct (IH Herr) as [Hun'' Hall].
  split; [done |]. intros v [Hv | (b' & Hb' & Hv)].
  - apply Hall. left. rewrite Hvals. apply elem_of_union. by right.
  - apply elem_of_cons in Hb' as [-> | Hb'].
    + apply Hall. left. rewrite Hvals. apply elem_of_union. left.
      by apply elem_of_list_to_set.
    + apply Hall. right. by exists b'.
Qed.

Lemma unlimited_New (limit : Z) : limit ≤ 0 → unlimited (NewDistinctString limit).
Proof. by split. Qed.

(** Without a byte limit and without a block cap, a flat tag-value
    search that succeeds holds every value of every block. *)
Lemma SearchTagValues_locked_complete ctx tagName limit i resp b v :
  limit ≤ 0 →
  (SearchTagValues_locked ctx tagName limit 0 i).1.1 = Ok resp →
  b ∈ allBlocks i → v ∈ (SearchTagValues_ b ctx tagName).1 →
  v ∈ ds_values (distinctValues (SearchTagValues_locked ctx tagName limit 0 i).1.2).
Proof.
  intros Hlimit. unfold SearchTagValues_locked, allBlocks.
  set (st0 := mkTagValuesState 0 (NewDistinctString limit)).
  assert (unlimited (distinctValues st0)) as Hun0 by (by apply unlimited_New).
  assert (unlimited (distinctValues
                       (SearchTagValues_search ctx tagName 0 (headBlock i) st0).1.2) ∧
          ∀ v, (∃ b, b ∈ option_list (headBlock i) ∧ v ∈ (SearchTagValues_ b ctx tagName).1) →
               v ∈ ds_values (distinctValues
                                (SearchTagValues_search ctx tagName 0 (headBlock i) st0).1.2))
    as [HunH HallH].
  { destruct (headBlock i) as [h |].
    - destruct (SearchTagValues_search_complete ctx tagName h st0 Hun0) as [Hun' Hvals].
      split; [done |]. intros v' (b' & Hb' & Hv'). simpl in Hb'.
      apply list_elem_of_singleton in Hb' as ->.
      rewrite Hvals. apply elem_of_union. left. by apply elem_of_list_to_set.
    - rewrite SearchTagValues_search_nil. split; [done |].
      intros v' (b' & Hb' & _). by apply elem_of_nil in Hb'. }
  destruct (SearchTagValues_search ctx tagName 0 (headBlock i) st0) as [[err st] evH].
  simpl in HunH, HallH.
  destruct err as [e |]; [by destruct (headBlock i) |].
  pose proof (SearchTagValues_range_complete ctx tagName "completing"
                (completingBlocks i) st HunH) as H1.
  destruct (SearchTagValues_range ctx tagName 0 "completing" _ st) as [[err1 st1] ev1].
  simpl in H1. destruct err1 as [e |]; [done |].
  destruct (H1 eq_refl) as [Hun1 Hall1].
  pose proof (SearchTagValues_range_complete ctx tagName "complete"
                (completeBlocks i) st1 Hun1) as H2.
  destruct (SearchTagValues_range ctx tagName 0 "complete" _ st1) as [[err2 st2] ev2].
  simpl in H2. destruct err2 as [e |]; [done |].
  destruct (H2 eq_refl) as [Hun2 Hall2].
  simpl. intros _ Hb Hv. rewrite !elem_of_app in Hb.
  destruct Hb as [Hb | [Hb | Hb]].
  - apply Hall2. left. apply Hall1. left. apply HallH. by exists b.
  - apply Hall2. left. apply Hall1. right. by exists b.
  - apply Hall2. right. by exists b.
Qed.

(** An error returned by the flat tag-value search is the missing
    tenant, or the error of one block's call, wrapped twice so that it
    names the tag and the kind and id of the block; it is never an
    [ErrUnsupported], and the failing block is the last one called. *)
Theorem SearchTagValues_error_origin ctx tagName i e :
  (SearchTagValues ctx tagName i).1 = Err e →
  (ctx_orgID ctx = None ∧ e = ErrNoOrgID) ∨
  ∃ k b e0, b ∈ kind_blocks i k ∧ (SearchTagValues_ b ctx tagName).2 = Some e0 ∧
            errors_Is e0 ErrUnsupported = false ∧
            e = block_error k b
                  (Errorf ("unexpected error searching tag values (" +:+ tagName +:+ ")") e0) ∧
            errors_Is e e0 = true ∧
            last (call_ids (SearchTagValues ctx tagName i).2) = Some (blockID b).
Proof.
  unfold SearchTagValues, ExtractOrgID.
  destruct (ctx_orgID ctx) as [userID |]; simpl; [| intros [= <-]; by left].
  destruct (SearchTagValues_locked_sound ctx tagName
              (MaxBytesPerTagValuesQuery (limits i) userID)
              (maxBlocksOf (MaxBlocksPerTagValuesQuery (limits i) userID)) i)
    as (_ & Herr & _).
  destruct (SearchTagValues_locked _ _ _ _ _) as [[r st] tr]. simpl in *.
  intros ->. right.
  destruct (Herr e eq_refl) as (k & b & e0 & Hb & Hbe & Hu & -> & Hlast).
  exists k, b, e0. repeat (split; [done |]). split; [| done].
  unfold block_error. apply errors_Is_Errorf, errors_Is_Errorf, errors_Is_refl.
Qed.

(** The values of a successful flat tag-value search: no value twice,
    every value comes from some block of the registry, and when the
    tenant has neither a byte limit nor a block cap every value of every
    block is there. *)
Theorem SearchTagValues_values ctx tagName i resp :
  (SearchTagValues ctx tagName i).1 = Ok resp →
  NoDup (TagValues resp) ∧
  (∀ v, v ∈ TagValues resp →
        ∃ b, b ∈ allBlocks i ∧ v ∈ (SearchTagValues_ b ctx tagName).1) ∧
  (∀ userID, ctx_orgID ctx = Some userID →
     MaxBytesPerTagValuesQuery (limits i) userID ≤ 0 →
     MaxBlocksPerTagValuesQuery (limits i) userID ≤ 0 →
     ∀ b v, b ∈ allBlocks i → v ∈ (SearchTagValues_ b ctx tagName).1 →
            v ∈ TagValues resp).
Proof.
  unfold SearchTagValues, ExtractOrgID.
  destruct (ctx_orgID ctx) as [userID |]; simpl; [| done].
  destruct (SearchTagValues_locked_sound ctx tagName
              (MaxBytesPerTagValuesQuery (limits i) userID)
              (maxBlocksOf (MaxBlocksPerTagValuesQuery (limits i) userID)) i)
    as (_ & _ & Hok & Hval).
  pose proof (SearchTagValues_locked_complete ctx tagName
                (MaxBytesPerTagValuesQuery (limits i) userID) i resp) as Hall.
  destruct (SearchTagValues_locked _ _ _ (maxBlocksOf _) _) as [[r st] tr] eqn:Hrun.
  simpl in *. intros ->. rewrite (Hok resp eq_refl). simpl. unfold Strings.
  split; [apply NoDup_elements |]. split.
  - intros v Hv. apply Hval. by apply elem_of_elements.
  - intros userID' [= <-] Hbytes Hblocks b v Hb Hv.
    apply elem_of_elements.
    unfold maxBlocksOf in Hrun. rewrite bool_decide_false in Hrun by lia.
    rewrite Hrun in Hall. simpl in Hall. by apply (Hall b v).
Qed.

(** ** Tag-name search (typed): calls and errors *)

Lemma SearchTagsV2_searchBlock_sound ctx a q b dv :
  call_ids (SearchTagsV2_searchBlock ctx a q (Some b) dv).2 `sublist_of` [blockID b] ∧
  (∀ e, (SearchTagsV2_searchBlock ctx a q (Some b) dv).1.1 = Some e →
     call_ids (SearchTagsV2_searchBlock ctx a q (Some b) dv).2 = [blockID b] ∧
     SearchTagsV2_block_error ctx a q b e).
Proof.
  unfold SearchTagsV2_searchBlock, SearchTagsV2_block_error.
  destruct (ScopedExceeded dv).
  { simpl. split; [apply sublist_nil_l | done]. }
  destruct (IsEmptyQuery q).
  - destruct (SearchTags_ b ctx a) as [tags err]. simpl.
    destruct err as [e0 |]; simpl; [| done].
    destruct (errors_Is e0 ErrUnsupported) eqn:Hu; simpl; [done |].
    split; [done |]. intros e [= <-]. split; [done |]. by exists e0.
  - destruct (ExecuteTagNames ctx a q (FetchTagNames b)) as [tags err]. simpl.
    split; [done |]. by intros e ->.
Qed.

Lemma SearchTagsV2_range_sound ctx a q (k : task_kind) blocks dv :
  call_ids (SearchTagsV2_range ctx a q (kindName k) blocks dv).2
    `sublist_of` (blockID <$> blocks) ∧
  (∀ e, (SearchTagsV2_range ctx a q (kindName k) blocks dv).1.1 = Some e →
     ∃ b e1, b ∈ blocks ∧ SearchTagsV2_block_error ctx a q b e1 ∧
             e = block_error k b e1 ∧
             last (call_ids (SearchTagsV2_range ctx a q (kindName k) blocks dv).2)
             = Some (blockID b)).
Proof.
  revert dv. induction blocks as [| b rest IH]; intros dv; simpl.
  { split; [done | done]. }
  destruct (SearchTagsV2_searchBlock_sound ctx a q b dv) as (Hsub & Herr).
  destruct (SearchTagsV2_searchBlock ctx a q (Some b) dv) as [[err dv'] ev].
  simpl in Hsub, Herr.
  destruct err as [e1 |]; simpl.
  - destruct (Herr e1 eq_refl) as (Hids & He1).
    split.
    + rewrite Hids. apply (sublist_inserts_r (blockID <$> rest) [blockID b] [blockID b]).
      done.
    + intros e [= <-]. exists b, e1.
      split; [by left |]. split; [done |]. split; [done |]. by rewrite Hids.
  - destruct (IH dv') as (Hsub' & Herr').
    destruct (SearchTagsV2_range ctx a q (kindName k) rest dv') as [[err' dv''] ev'].
    simpl in *. split.
    + rewrite call_ids_app.
      apply (sublist_app _ [blockID b] _ (blockID <$> rest)); done.
    + intros e He. destruct (Herr' e He) as (b' & e1 & Hb' & He1 & -> & Hlast).
      exists b', e1. split; [by right |]. split; [done |]. split; [done |].
      rewrite call_ids_app. apply last_app_Some. by left.
Qed.

Lemma SearchTagsV2_locked_sound ctx a q limit i :
  call_ids (SearchTagsV2_locked ctx a q limit i).2 `sublist_of` (blockID <$> allBlocks i) ∧
  (∀ e, (SearchTagsV2_locked ctx a q limit i).1.1 = Err e →
     ∃ k b e1, b ∈ kind_blocks i k ∧ SearchTagsV2_block_error ctx a q b e1 ∧
               e = block_error k b e1 ∧
               last (call_ids (SearchTagsV2_locked ctx a q limit i).2) = Some (blockID b)).
Proof.
  unfold SearchTagsV2_locked, allBlocks.
  set (dv0 := NewScopedDistinctString limit).
  assert (call_ids (SearchTagsV2_searchBlock ctx a q (headBlock i) dv0).2
            `sublist_of` (blockID <$> option_list (headBlock i)) ∧
          (∀ e, (SearchTagsV2_searchBlock ctx a q (headBlock i) dv0).1.1 = Some e →
             ∃ h, headBlock i = Some h ∧
               call_ids (SearchTagsV2_searchBlock ctx a q (headBlock i) dv0).2
               = [blockID h] ∧
               SearchTagsV2_block_error ctx a q h e)) as (HsubH & HerrH).
  { destruct (headBlock i) as [h |].
    - destruct (SearchTagsV2_searchBlock_sound ctx a q h dv0) as (Hsub & Herr).
      split; [done |]. intros e He. destruct (Herr e He). by exists h.
    - done. }
  destruct (SearchTagsV2_searchBlock ctx a q (headBlock i) dv0) as [[err dv] evH].
  simpl in HsubH, HerrH.
  destruct err as [e1 |].
  { destruct (HerrH e1 eq_refl) as (h & Hh & Hids & He1).
    rewrite Hh. cbn [fst snd]. rewrite call_ids_head_bracket, Hids.
    split.
    - apply (sublist_inserts_r _ [blockID h] [blockID h]). done.
    - intros e [= <-]. exists HeadTask, h, e1. simpl. rewrite Hh.
      split; [by left |]. done. }
  destruct (SearchTagsV2_range_sound ctx a q CompletingTask (completingBlocks i) dv)
    as (Hsub1 & Herr1).
  simpl kindName in *.
  destruct (SearchTagsV2_range ctx a q "completing" _ dv) as [[err1 dv1] ev1].
  simpl in Hsub1, Herr1.
  destruct err1 as [e1 |].
  { cbn [fst snd]. rewrite call_ids_both_brackets.
    split.
    - rewrite !fmap_app. apply sublist_app; [done |]. by apply sublist_inserts_r.
    - intros e [= <-].
      destruct (Herr1 e1 eq_refl) as (b & e0 & Hbin & Hb & -> & Hlast).
      exists CompletingTask, b, e0. simpl.
      split; [done |]. split; [done |]. split; [done |].
      apply last_app_Some. by left. }
  destruct (SearchTagsV2_range_sound ctx a q CompleteTask (completeBlocks i) dv1)
    as (Hsub2 & Herr2).
  simpl kindName in *.
  destruct (SearchTagsV2_range ctx a q "complete" _ dv1) as [[err2 dv2] ev2].
  simpl in Hsub2, Herr2.
  assert (call_ids evH ++ call_ids ev1 ++ call_ids ev2 `sublist_of`
          blockID <$> option_list (headBlock i) ++ completingBlocks i ++ completeBlocks i)
    as Hsub.
  { rewrite !fmap_app. by repeat apply sublist_app. }
  destruct err2 as [e2 |]; cbn [fst snd].
  - rewrite (app_assoc ev1 ev2), call_ids_both_brackets, call_ids_app.
    split; [done |].
    intros e [= <-].
    destruct (Herr2 e2 eq_refl) as (b & e0 & Hbin & Hb & -> & Hlast).
    exists CompleteTask, b, e0. simpl.
    split; [done |]. split; [done |]. split; [done |].
    apply last_app_Some. left. apply last_app_Some. by left.
  - rewrite (app_assoc ev2), (app_assoc ev1), call_ids_both_brackets, !call_ids_app.
    rewrite (call_ids_warning _ tagsWarning) by done.
    rewrite app_nil_r. split; [done | done].
Qed.

(** An error returned by the typed tag-name search is the missing
    tenant, the unknown scope, or the error of one block's call wrapped
    with the kind and id of that block, which is the last block called.
    On the native path the block's error is never an [ErrUnsupported];
    on the evaluator path it can be any error. *)
Theorem SearchTagsV2_error_origin ctx req i e :
  (SearchTagsV2 ctx req i).1 = Err e →
  (ctx_orgID ctx = None ∧ e = ErrNoOrgID) ∨
  (AttributeScopeFromString (tags_Scope req) = AttributeScopeUnknown ∧
   e = ErrorString ("unknown scope: " +:+ tags_Scope req)) ∨
  ∃ k b e1, b ∈ kind_blocks i k ∧
            SearchTagsV2_block_error ctx (AttributeScopeFromString (tags_Scope req))
              (ExtractMatchers (tags_Query req)) b e1 ∧
            e = block_error k b e1 ∧
            last (call_ids (SearchTagsV2 ctx req i).2) = Some (blockID b).
Proof.
  unfold SearchTagsV2, ExtractOrgID.
  destruct (ctx_orgID ctx) as [userID |]; simpl; [| intros [= <-]; by left].
  case_bool_decide; [done |].
  case_bool_decide as Hscope; simpl; [intros [= <-]; right; by left |].
  destruct (SearchTagsV2_locked_sound ctx (AttributeScopeFromString (tags_Scope req))
              (ExtractMatchers (tags_Query req))
              (MaxBytesPerTagValuesQuery (limits i) userID) i) as (_ & Herr).
  destruct (SearchTagsV2_locked _ _ _ _ _) as [[r dv] tr]. simpl in *.
  intros ->. right. right. by apply Herr.
Qed.

(** The two tag-name searches and the flat tag-value search go through
    the registry in its order (head block, completing blocks, complete
    blocks) and call no block twice: the blocks called, in the order of
    the calls, are a subsequence of the registry. *)
Theorem tag_searches_follow_registry ctx i :
  (∀ req, call_ids (SearchTagsV2 ctx req i).2 `sublist_of` (blockID <$> allBlocks i)) ∧
  (∀ scope, call_ids (SearchTags ctx scope i).2 `sublist_of` (blockID <$> allBlocks i)) ∧
  (∀ tagName,
     call_ids (SearchTagValues ctx tagName i).2 `sublist_of` (blockID <$> allBlocks i)).
Proof.
  assert (∀ req, call_ids (SearchTagsV2 ctx req i).2 `sublist_of` (blockID <$> allBlocks i))
    as HtagsV2.
  { intros req. unfold SearchTagsV2.
    destruct (ExtractOrgID ctx) as [userID [e |]]; [apply sublist_nil_l |].
    case_bool_decide; [apply sublist_nil_l |].
    case_bool_decide; [apply sublist_nil_l |].
    destruct (SearchTagsV2_locked_sound ctx (AttributeScopeFromString (tags_Scope req))
                (ExtractMatchers (tags_Query req))
                (MaxBytesPerTagValuesQuery (limits i) userID) i) as (Hsub & _).
    by destruct (SearchTagsV2_locked _ _ _ _ _) as [[r dv] tr]. }
  split; [done |]. split.
  - intros scope. unfold SearchTags.
    specialize (HtagsV2 (mkSearchTagsRequest scope "")).
    destruct (SearchTagsV2 ctx _ i) as [r tr]. by destruct r.
  - intros tagName. unfold SearchTagValues.
    destruct (ExtractOrgID ctx) as [userID [e |]]; [apply sublist_nil_l |].
    destruct (SearchTagValues_locked_sound ctx tagName
                (MaxBytesPerTagValuesQuery (limits i) userID)
                (maxBlocksOf (MaxBlocksPerTagValuesQuery (limits i) userID)) i)
      as (Hsub & _).
    by destruct (SearchTagValues_locked _ _ _ _ _) as [[r st] tr].
Qed.

(** ** The traversals stop calling blocks once a limit is reached *)

Lemma SearchTagValues_range_app ctx tagName maxBlocks kind l1 l2 (st : TagValuesState) :
  SearchTagValues_range ctx tagName maxBlocks kind (l1 ++ l2) st =
    let '(err, st1, ev1) := SearchTagValues_range ctx tagName maxBlocks kind l1 st in
    match err with
    | Some e => (Some e, st1, ev1)
    | None =>
      let '(err2, st2, ev2) := SearchTagValues_range ctx tagName maxBlocks kind l2 st1 in
      (err2, st2, ev1 ++ ev2)
    end.
Proof.
  revert st. induction l1 as [| b rest IH]; intros st; simpl.
  { by destruct (SearchTagValues_range ctx tagName maxBlocks kind l2 st) as [[? ?] ?]. }
  destruct (SearchTagValues_search ctx tagName maxBlocks (Some b) st) as [[err st'] ev].
  destruct err as [e |]; [done |].
  rewrite IH.
  destruct (SearchTagValues_range ctx tagName maxBlocks kind rest st') as [[err1 st1] ev1].
  destruct err1 as [e |]; [done |].
  destruct (SearchTagValues_range ctx tagName maxBlocks kind l2 st1) as [[err2 st2] ev2].
  by rewrite app_assoc.
Qed.

Lemma SearchTagValues_range_skipped ctx tagName maxBlocks kind blocks (st : TagValuesState) :
  Exceeded (distinctValues st) = true ∨
  (maxBlocks > 0 ∧ inspectedBlocks st >= maxBlocks) →
  SearchTagValues_range ctx tagName maxBlocks kind blocks st = (None, st, []).
Proof.
  intros Hstop. induction blocks as [| b rest IH]; simpl; [done |].
  assert (SearchTagValues_search ctx tagName maxBlocks (Some b) st = (None, st, [])) as ->.
  { unfold SearchTagValues_search.
    destruct Hstop as [-> | [Hmax Hin]].
    - by destruct (_ && _).
    - by rewrite !bool_decide_true by done. }
  by rewrite IH.
Qed.

Lemma SearchTagsV2_range_app ctx a q kind l1 l2 dv :
  SearchTagsV2_range ctx a q kind (l1 ++ l2) dv =
    let '(err, dv1, ev1) := SearchTagsV2_range ctx a q kind l1 dv in
    match err with
    | Some e => (Some e, dv1, ev1)
    | None =>
      let '(err2, dv2, ev2) := SearchTagsV2_range ctx a q kind l2 dv1 in
      (err2, dv2, ev1 ++ ev2)
    end.
Proof.
  revert dv. induction l1 as [| b rest IH]; intros dv; simpl.
  { by destruct (SearchTagsV2_range ctx a q kind l2 dv) as [[? ?] ?]. }
  destruct (SearchTagsV2_searchBlock ctx a q (Some b) dv) as [[err dv'] ev].
  destruct err as [e |]; [done |].
  rewrite IH.
  destruct (SearchTagsV2_range ctx a q kind rest dv') as [[err1 dv1] ev1].
  destruct err1 as [e |]; [done |].
  destruct (SearchTagsV2_range ctx a q kind l2 dv1) as [[err2 dv2] ev2].
  by rewrite app_assoc.
Qed.

Lemma SearchTagsV2_range_skipped ctx a q kind blocks dv :
  ScopedExceeded dv = true → SearchTagsV2_range ctx a q kind blocks dv = (None, dv, []).
Proof.
  intros Hstop. induction blocks as [| b rest IH]; simpl; [done |].
  assert (SearchTagsV2_searchBlock ctx a q (Some b) dv = (None, dv, [])) as ->.
  { unfold SearchTagsV2_searchBlock. by rewrite Hstop. }
  by rewrite IH.
Qed.

(** Once the byte limit is exceeded, or the block cap is reached, the
    sequential searches call no further block: going through the blocks
    [l1 ++ l2] is the same as going through [l1], in result, state and
    events, whenever [l1] leaves the collector overflown (either search)
    or the cap used up (tag values). *)
Theorem sequential_search_stops ctx kind l1 l2 :
  (∀ tagName maxBlocks (st : TagValuesState),
     let r := SearchTagValues_range ctx tagName maxBlocks kind l1 st in
     Exceeded (distinctValues r.1.2) = true ∨
     (maxBlocks > 0 ∧ inspectedBlocks r.1.2 >= maxBlocks) →
     SearchTagValues_range ctx tagName maxBlocks kind (l1 ++ l2) st = r) ∧
  (∀ a q dv,
     let r := SearchTagsV2_range ctx a q kind l1 dv in
     ScopedExceeded r.1.2 = true →
     SearchTagsV2_range ctx a q kind (l1 ++ l2) dv = r).
Proof.
  split.
  - intros tagName maxBlocks st r Hstop. subst r.
    rewrite SearchTagValues_range_app.
    destruct (SearchTagValues_range ctx tagName maxBlocks kind l1 st) as [[err st1] ev1].
    simpl in Hstop. destruct err as [e |]; [done |].
    rewrite SearchTagValues_range_skipped by done. by rewrite app_nil_r.
  - intros a q dv r Hstop. subst r.
    rewrite SearchTagsV2_range_app.
    destruct (SearchTagsV2_range ctx a q kind l1 dv) as [[err dv1] ev1].
    simpl in Hstop. destruct err as [e |]; [done |].
    rewrite SearchTagsV2_range_skipped by done. by rewrite app_nil_r.
Qed.

(** ** Tag-name search (flat): what the flattening keeps *)

Lemma SearchTags_flatten_values (scope : string) (scopes : list SearchTagsV2Scope)
    (d : DistinctString) (t : string) :
  unlimited d →
  t ∈ ds_values
        (foldl (λ distinctValues s,
                  if bool_decide (scope = ""%string)
                     && bool_decide (scope_Name s = ParamScopeIntrinsic)
                  then distinctValues
                  else foldl Collect distinctValues (scope_Tags s)) d scopes) ↔
  t ∈ ds_values d ∨
  ∃ s, s ∈ scopes ∧ ¬ (scope = ""%string ∧ scope_Name s = ParamScopeIntrinsic) ∧
       t ∈ scope_Tags s.
Proof.
  revert d. induction scopes as [| s rest IH]; intros d Hun; simpl.
  { split; [by left |]. intros [? | (s & Hs & _)]; [done |]. by apply elem_of_nil in Hs. }
  destruct (bool_decide (scope = ""%string) &&
            bool_decide (scope_Name s = ParamScopeIntrinsic)) eqn:Hskip.
  - apply andb_true_iff in Hskip as [Hsc Hname].
    apply bool_decide_eq_true in Hsc, Hname.
    rewrite IH by done. split.
    + intros [? | (s' & Hs' & Hns & Ht)]; [by left |].
      right. exists s'. split; [by right | done].
    + intros [? | (s' & Hs' & Hns & Ht)]; [by left |].
      apply elem_of_cons in Hs' as [-> | Hs']; [by destruct Hns |].
      right. by exists s'.
  - apply andb_false_iff in Hskip.
    assert (¬ (scope = ""%string ∧ scope_Name s = ParamScopeIntrinsic)) as Hns.
    { intros [Hsc Hname]. destruct Hskip as [Hf | Hf];
        apply bool_decide_eq_false in Hf; done. }
    rewrite IH by (by apply foldl_Collect_unlimited).
    rewrite foldl_Collect_values_unlimited by done.
    rewrite elem_of_union, elem_of_list_to_set. split.
    + intros [[Ht | ?] | (s' & Hs' & Hns' & Ht)].
      * right. exists s. split; [by left | done].
      * by left.
      * right. exists s'. split; [by right | done].
    + intros [? | (s' & Hs' & Hns' & Ht)]; [left; by right |].
      apply elem_of_cons in Hs' as [-> | Hs']; [left; by left |].
      right. by exists s'.
Qed.

(** ** Tag-value search (typed), further *)

(** *** The pool *)

Lemma pool_inv_step p st st' : pool_inv st → V2_moves p st st' → pool_inv st'.
Proof.
  unfold pool_inv. intros Hp Hmove.
  destruct Hmove as [st' Hmain | k t pc' st' Hk Hmove].
  - destruct Hmain; simpl; lia.
  - destruct Hmove; simpl; lia.
Qed.

Lemma V2_run_pool_inv p limit sched : pool_inv (V2_run p sched (V2_init limit)).
Proof.
  apply V2_run_invariant; [unfold pool_inv, poolWidth; simpl; lia |].
  intros st st'. apply pool_inv_step.
Qed.

(** At every point of the typed tag-value search, under every
    schedule, at most 20 tasks have been started and have not yet
    called [wg.Done]. *)
Theorem SearchTagValuesV2_pool_bound p limit sched :
  (count_tasks live (v_tasks (V2_run p sched (V2_init limit))) ≤ poolWidth)%nat.
Proof.
  destruct (V2_run_wg_inv p limit sched) as [<- _]. apply V2_run_pool_inv.
Qed.

(** *** Every block is searched under its lock *)

Lemma blocks_lock_inv_step p st st' :
  blocks_lock_inv st → V2_moves p st st' → blocks_lock_inv st'.
Proof.
  intros [Hheld Hheads] Hmove. unfold blocks_lock_inv.
  destruct Hmove as [st' Hmain | k t pc' st' Hk Hmove].
  - destruct Hmain; simpl; rewrite ?held_app, ?app_nil_r; rewrite ?H in *; simpl in *;
      try (split; [lia | done]).
    + destruct (headBlock (p_instance p)); (split; [lia | done]).
    + split; [lia |]. apply Forall_app. split; [done | by repeat constructor].
    + split; [| done]. destruct (ValueExceeded _); simpl; lia.
  - assert (v_main st' = v_main st ∧ v_tasks st' = v_tasks st) as [Hm Ht]
      by by destruct Hmove.
    simpl. rewrite Hm, Ht. split.
    + destruct Hmove; simpl; rewrite ?held_app; simpl; lia.
    + pose proof (Forall_lookup_1 (λ t, is_head t = true) (v_tasks st) k t) as Hl.
      destruct (v_main st); try done; (apply Forall_insert; [done |]; by apply Hl).
Qed.

Lemma V2_run_blocks_lock_inv p limit sched :
  blocks_lock_inv (V2_run p sched (V2_init limit)).
Proof.
  apply V2_run_invariant; [split; [done | constructor] |].
  intros st st'. apply blocks_lock_inv_step.
Qed.

Lemma count_tasks_split (f g h : task → bool) (ts : list task) :
  (∀ t, Nat.b2n (f t) = (Nat.b2n (g t) + Nat.b2n (h t))%nat) →
  count_tasks f ts = (count_tasks g ts + count_tasks h ts)%nat.
Proof.
  intros Hfg. unfold count_tasks. induction ts as [| t ts IH]; simpl; [done |].
  rewrite IH, Hfg. lia.
Qed.

(** In every state the typed tag-value search goes through, a task
    that has not finished holds the lock of its block: the head task
    runs under the head lock until its deferred unlock, the tasks of
    complete and completing blocks run under the blocks lock, which the
    caller gives back when it returns. *)
Theorem SearchTagValuesV2_searches_under_lock p limit sched :
  let st := V2_run p sched (V2_init limit) in
  (∀ k t, v_tasks st !! k = Some t → t_pc t ≠ TExit →
          held (lock_of t) (v_trace st) = 1) ∧
  (is_Some (V2_result st) → held blocksMtx (v_trace st) = 0).
Proof.
  intros st. subst st.
  destruct (V2_run_blocks_lock_inv p limit sched) as [Hblocks Hheads].
  destruct (V2_run_head_inv p limit sched) as (Hhead & Hunl & Hcount & _).
  pose proof (V2_run_wg_inv p limit sched) as Hwg.
  set (st := V2_run p sched (V2_init limit)) in *.
  split.
  - intros k t Hk Hpc.
    destruct (is_head t) eqn:Hkind.
    + assert (lock_of t = headBlockMtx) as ->.
      { unfold lock_of. unfold is_head in Hkind. by destruct (t_kind t). }
      assert (v_main st ≠ MLockHead) as Hmain.
      { intros Hm. by eapply (wg_inv_no_task p st k t). }
      pose proof (count_tasks_split is_head head_unlocked head_locked (v_tasks st)) as Hs.
      rewrite Hs in Hcount.
      2:{ intros t'. unfold head_unlocked, head_locked.
          destruct (is_head t'); [| done]. by destruct (t_pc t'). }
      pose proof (count_tasks_lookup head_locked _ k t Hk) as Hlocked.
      assert (head_locked t = true) as Ht.
      { unfold head_locked. rewrite Hkind. by destruct (t_pc t). }
      rewrite Ht in Hlocked. simpl in Hlocked.
      assert (length (option_list (headBlock (p_instance p))) ≤ 1)%nat
        by (destruct (headBlock (p_instance p)); simpl; lia).
      destruct (v_main st); try done; lia.
    + assert (lock_of t = blocksMtx) as ->.
      { unfold lock_of. unfold is_head in Hkind. by destruct (t_kind t). }
      assert (live t = true ∨ t_pc t = TUnlock) as [Hlive | Hunlock].
      { unfold live. destruct (t_pc t); try (by left); by right. }
      * destruct Hwg as (Hcountl & Hzero & _).
        pose proof (count_tasks_lookup live _ k t Hk) as Hl.
        rewrite Hlive in Hl. simpl in Hl.
        assert (∀ ts, Forall (λ t, is_head t = true) ts → ts !! k = Some t → False)
          as Hnot.
        { intros ts Hall Hts. pose proof (Forall_lookup_1 _ _ _ _ Hall Hts) as Hh.
          simpl in Hh. congruence. }
        destruct (v_main st); try done; try lia; exfalso; by eapply Hnot.
      * pose proof (Forall_lookup_1 _ _ _ _ Hunl Hk Hunlock). congruence.
  - intros [r Hr]. apply V2_result_returned in Hr. by rewrite Hr in Hblocks.
Qed.

(** *** Where errors and values come from *)

Lemma ValueCollect_values_sound (d : DistinctValue TagValue) (v v' : TagValue) :
  v' ∈ dv_values (ValueCollect d v) → v' = v ∨ v' ∈ dv_values d.
Proof.
  unfold ValueCollect.
  destruct (dv_limExceeded d); [by right |].
  case_bool_decide; [by right |].
  destruct (_ && _); simpl; [by right |].
  rewrite elem_of_union, elem_of_singleton. tauto.
Qed.

Lemma origin_inv_init p limit : origin_inv p (V2_init limit).
Proof.
  split; [constructor |]. split; [done |]. split; [done |].
  simpl. intros v Hv. by apply elem_of_empty in Hv.
Qed.

Lemma origin_inv_step p st st' : origin_inv p st → V2_moves p st st' → origin_inv p st'.
Proof.
  intros (Htasks & Hpend & Herr & Hvals) Hmove. unfold origin_inv.
  destruct Hmove as [st' Hmain | k t pc' st' Hk Hmove].
  - destruct Hmain; simpl; rewrite ?H in *; simpl in *;
      try (split; [done |]; split; [done |]; split; [done | done]).
    + split; [done |]. split; [| done].
      by destruct (headBlock (p_instance p)) eqn:Hh.
    + split; [| done]. apply Forall_app. split; [done |].
      repeat constructor. simpl. rewrite Hpend. simpl. by left.
    + split; [| split; [| done]].
      * apply Forall_app. split; [done |].
        repeat constructor. simpl. apply Hpend. by left.
      * intros b' Hb'. apply Hpend. by right.
    + split; [| split; [| done]].
      * apply Forall_app. split; [done |].
        repeat constructor. simpl. apply Hpend. by left.
      * intros b' Hb'. apply Hpend. by right.
  - pose proof (Forall_lookup_1 _ _ _ _ Htasks Hk) as [Hblock Hpc].
    assert (v_main st' = v_main st ∧ v_tasks st' = v_tasks st) as [Hm Ht]
      by by destruct Hmove.
    simpl. rewrite Hm, Ht.
    destruct t as [kind b pc]. simpl in *.
    destruct Hmove; simpl in *; subst; simpl in *;
      try (split; [apply Forall_insert; [done | by split] |];
           split; [done |]; split; [done | done]).
    + destruct Hpc as [Herr' Hsub].
      split; [apply Forall_insert; [done |]; split; [done |]; split; [done |] |].
      { intros x Hx. apply Hsub. by right. }
      split; [done |]. split; [done |].
      intros v' Hv'. apply ValueCollect_values_sound in Hv' as [-> | ?]; [| by apply Hvals].
      exists b. split; [by eapply elem_of_kind_blocks |]. apply Hsub. by left.
    + destruct Hpc as [Herr' Hsub].
      split; [apply Forall_insert; [done | by split] |]. done.
    + split; [apply Forall_insert; [done | by split] |].
      split; [done |]. split; [| done].
      intros e' [= <-]. by exists kind, b, e.
Qed.

Lemma V2_run_origin_inv p limit sched : origin_inv p (V2_run p sched (V2_init limit)).
Proof.
  apply V2_run_invariant; [apply origin_inv_init |].
  intros st st'. apply origin_inv_step.
Qed.

(** An error returned by the typed tag-value search is the missing
    tenant, the error of [ParseIdentifier], or the error of the call on
    one block of the registry wrapped with the kind and id of that
    block, whatever that error is. *)
Theorem SearchTagValuesV2_error_origin ctx req i sched e :
  (SearchTagValuesV2 ctx req i sched).1 = Some (Err e) →
  (ctx_orgID ctx = None ∧ e = ErrNoOrgID) ∨
  (ParseIdentifier (tvr_TagName req)).2 = Some e ∨
  ∃ limit p k b e0,
    SearchTagValuesV2_entry ctx req i = inr (limit, p) ∧
    b ∈ kind_blocks i k ∧ (V2_block p b).2 = Some e0 ∧
    e = block_error k b e0 ∧ errors_Is e e0 = true.
Proof.
  unfold SearchTagValuesV2.
  destruct (SearchTagValuesV2_entry ctx req i) as [r | [limit p]] eqn:Hentry.
  - simpl. intros [= ->]. unfold SearchTagValuesV2_entry, ExtractOrgID in Hentry.
    destruct (ctx_orgID ctx) as [userID |]; simpl in Hentry; [| left; by simplify_eq].
    destruct (ParseIdentifier (tvr_TagName req)) as [tag [e' |]]; simpl in *.
    + right. left. by simplify_eq.
    + by destruct (is_ID_intrinsic tag).
  - simpl. intros Hr. right. right.
    apply V2_result_returned in Hr.
    pose proof (V2_run_result_inv p limit sched) as Hres.
    destruct (V2_run_origin_inv p limit sched) as (_ & _ & Herr & _).
    unfold result_inv in Hres. rewrite Hr in Hres. destruct Hres as [Hres _].
    destruct (v_anyErr (V2_run p sched (V2_init limit))) as [e' |] eqn:He'; [| done].
    injection Hres as ->.
    destruct (Herr e' eq_refl) as (k & b & e0 & Hb & Hbe & ->).
    destruct (SearchTagValuesV2_entry_inr ctx req i limit p Hentry) as [Hi _].
    rewrite Hi in Hb.
    exists limit, p, k, b, e0. repeat (split; [done |]).
    unfold block_error. apply errors_Is_Errorf, errors_Is_refl.
Qed.

(** *** Every block gets a task *)

Ltac elem_tauto :=
  repeat match goal with
         | H : context [_ ∈ _ ++ _] |- _ => rewrite elem_of_app in H
         | H : context [_ ∈ _ :: _] |- _ => rewrite elem_of_cons in H
         | H : context [_ ∈ []] |- _ => rewrite elem_of_nil in H
         | |- context [_ ∈ _ ++ _] => rewrite elem_of_app
         | |- context [_ ∈ _ :: _] => rewrite elem_of_cons
         | |- context [_ ∈ []] => rewrite elem_of_nil
         end;
  tauto.

Lemma cover_inv_init p limit : cover_inv p (V2_init limit).
Proof.
  intros b Hb. right. simpl. unfold allBlocks in Hb.
  rewrite !elem_of_app in *. tauto.
Qed.

Lemma cover_inv_step p st st' : cover_inv p st → V2_moves p st st' → cover_inv p st'.
Proof.
  intros Hcover Hmove b Hb. specialize (Hcover b Hb).
  destruct Hmove as [st' Hmain | k t pc' st' Hk Hmove].
  - destruct Hmain; simpl; rewrite ?H in *; simpl in *; rewrite ?fmap_app; simpl;
      try (by elem_tauto).
    destruct (headBlock (p_instance p)); simpl in *; elem_tauto.
  - assert (v_main st' = v_main st ∧ v_tasks st' = v_tasks st) as [Hm Ht]
      by by destruct Hmove.
    simpl. rewrite Hm, Ht.
    rewrite list_fmap_insert. simpl.
    rewrite list_insert_id; [done |].
    by rewrite list_lookup_fmap, Hk.
Qed.

Lemma V2_run_cover_inv p limit sched : cover_inv p (V2_run p sched (V2_init limit)).
Proof.
  apply V2_run_invariant; [apply cover_inv_init |].
  intros st st'. apply cover_inv_step.
Qed.

(** At the return every block of the registry has a task, and every
    task has called [wg.Done]. *)
Lemma V2_returned_tasks p limit sched b :
  is_Some (V2_result (V2_run p sched (V2_init limit))) →
  b ∈ allBlocks (p_instance p) →
  ∃ k t, v_tasks (V2_run p sched (V2_init limit)) !! k = Some t ∧
         t_block t = b ∧ live t = false.
Proof.
  intros [r Hr] Hb. apply V2_result_returned in Hr.
  pose proof (V2_run_cover_inv p limit sched b Hb) as Hcover.
  destruct (V2_run_wg_inv p limit sched) as (Hwg & Hzero & _).
  rewrite Hr in Hcover, Hzero. simpl in Hcover.
  destruct Hcover as [Hin | Hnil]; [| by apply elem_of_nil in Hnil].
  apply list_elem_of_fmap in Hin as (t & -> & Hin).
  apply list_elem_of_lookup in Hin as [k Hk].
  exists k, t. split; [done |]. split; [done |].
  rewrite Hzero in Hwg. symmetry in Hwg.
  by apply (count_tasks_zero live _ k t Hwg Hk).
Qed.

(** *** No error is tolerated *)

Lemma strict_inv_step p st st' :
  ¬ p_maxBlocks p > 0 →
  origin_inv p st → strict_inv p st → V2_moves p st st' → strict_inv p st'.
Proof.
  intros Hmax (Htasks & _) Hstrict Hmove. unfold strict_inv in *.
  destruct Hmove as [st' Hmain | k t pc' st' Hk Hmove].
  - destruct Hmain; simpl; intros Hnone; specialize (Hstrict Hnone); try done;
      (apply Forall_app; split; [done | by repeat constructor]).
  - pose proof (Forall_lookup_1 _ _ _ _ Htasks Hk) as [_ Hpc].
    assert (v_tasks st' = v_tasks st) as Ht by by destruct Hmove.
    simpl. rewrite Ht. intros Hnone.
    assert (v_anyErr st = None) as Hnone' by (destruct Hmove; simpl in *; congruence).
    specialize (Hstrict Hnone').
    pose proof (Forall_lookup_1 _ _ _ _ Hstrict Hk) as Hfin.
    apply Forall_insert; [done |].
    destruct t as [kind b pc]. unfold finished in *. simpl in *.
    destruct Hmove; simpl in *; subst; simpl in *; try done; try congruence.
    intros _. destruct Hpc as [Hpc _]. by unfold V2_quiet.
Qed.

Lemma V2_run_strict_inv p limit sched :
  ¬ p_maxBlocks p > 0 → strict_inv p (V2_run p sched (V2_init limit)).
Proof.
  intros Hmax.
  assert (origin_inv p (V2_run p sched (V2_init limit)) ∧
          strict_inv p (V2_run p sched (V2_init limit))) as [_ H]; [| done].
  apply V2_run_invariant.
  - split; [apply origin_inv_init |]. intros _. constructor.
  - intros st st' [Ho Hs] Hmove.
    split; [by eapply origin_inv_step | by eapply strict_inv_step].
Qed.

(** The typed tag-value search tolerates no error of a block, not even
    an [ErrUnsupported], which the other three surfaces skip: for a
    tenant without a block cap, when the call on some block of the
    registry ends in an error, the search returns an error under every
    schedule. *)
Theorem SearchTagValuesV2_tolerates_no_error ctx req i sched limit p userID b e0 r :
  SearchTagValuesV2_entry ctx req i = inr (limit, p) →
  ctx_orgID ctx = Some userID →
  MaxBlocksPerTagValuesQuery (limits i) userID ≤ 0 →
  b ∈ allBlocks i → (V2_block p b).2 = Some e0 →
  (SearchTagValuesV2 ctx req i sched).1 = Some r →
  ∃ e, r = Err e.
Proof.
  intros Hentry Huser Hcap Hb Hfail. unfold SearchTagValuesV2. rewrite Hentry. simpl.
  intros Hr.
  destruct (SearchTagValuesV2_entry_inr ctx req i limit p Hentry)
    as (Hi & userID' & Huser' & _ & Hmax).
  assert (userID' = userID) as -> by congruence.
  rewrite bool_decide_false in Hmax by lia.
  assert (¬ p_maxBlocks p > 0) as Hopen by lia.
  pose proof (V2_run_result_inv p limit sched) as Hres.
  pose proof (V2_run_strict_inv p limit sched Hopen) as Hstrict.
  rewrite <- Hi in Hb.
  destruct (V2_returned_tasks p limit sched b ltac:(by eexists) Hb)
    as (k & t & Hk & Hblock & Hlive).
  apply V2_result_returned in Hr.
  unfold result_inv in Hres. rewrite Hr in Hres. destruct Hres as [-> _].
  destruct (v_anyErr (V2_run p sched (V2_init limit))) as [e |] eqn:He; [by exists e |].
  exfalso.
  pose proof (Forall_lookup_1 _ _ _ _ (Hstrict He) Hk) as Hq.
  unfold V2_quiet in Hq. rewrite Hblock, Hfail in Hq.
  assert (finished t = true) as Hfin.
  { unfold finished, live in *. by destruct (t_pc t). }
  by specialize (Hq Hfin).
Qed.

(** *** The values returned *)

Lemma ValueCollect_unlimited (d : DistinctValue TagValue) (v : TagValue) :
  unlimited_values d →
  unlimited_values (ValueCollect d v) ∧
  dv_values (ValueCollect d v) = {[v]} ∪ dv_values d.
Proof.
  intros [Hmax Hex]. unfold ValueCollect. rewrite Hex.
  case_bool_decide as Hin.
  - split; [done |]. apply set_eq. intros x.
    rewrite elem_of_union, elem_of_singleton. naive_solver.
  - rewrite (bool_decide_false (0 < dv_maxLen d)) by lia. simpl.
    split; [by split | done].
Qed.

Lemma full_inv_init p limit : limit ≤ 0 → full_inv p (V2_init limit).
Proof. intros Hlimit. split; [by split |]. intros _. constructor. Qed.

Lemma full_inv_step p st st' :
  ¬ p_maxBlocks p > 0 → full_inv p st → V2_moves p st st' → full_inv p st'.
Proof.
  intros Hmax [Hun Hfull] Hmove. unfold full_inv in *.
  destruct Hmove as [st' Hmain | k t pc' st' Hk Hmove].
  - destruct Hmain; simpl; (split; [done |]); intros Hnone; specialize (Hfull Hnone);
      try done; (apply Forall_app; split; [done | by repeat constructor]).
  - assert (v_tasks st' = v_tasks st) as Ht by by destruct Hmove.
    simpl. rewrite Ht.
    assert (unlimited_values (v_valueCollector st') ∧
            dv_values (v_valueCollector st) ⊆ dv_values (v_valueCollector st'))
      as [Hun' Hgrow].
    { destruct Hmove; simpl; try done.
      destruct (ValueCollect_unlimited (v_valueCollector st) v Hun) as [? ->].
      split; [done |]. apply union_subseteq_r. }
    split; [done |]. intros Hnone.
    assert (v_anyErr st = None) as Hnone' by (destruct Hmove; simpl in *; congruence).
    specialize (Hfull Hnone').
    pose proof (Forall_lookup_1 _ _ _ _ Hfull Hk) as Hpc.
    assert (Forall (λ t, match t_pc t with
                         | TLoadErr | TCap | TCall => True
                         | TCollect vals _ =>
                           ∀ v, v ∈ (V2_block p (t_block t)).1 →
                                v ∈ vals ∨ v ∈ dv_values (v_valueCollector st')
                         | _ =>
                           ∀ v, v ∈ (V2_block p (t_block t)).1 →
                                v ∈ dv_values (v_valueCollector st')
                         end) (v_tasks st)) as Hfull'.
    { eapply Forall_impl; [exact Hfull |]. intros t' Ht'. simpl in Ht'.
      destruct (t_pc t'); try done; intros x Hx; specialize (Ht' x Hx);
        try (by apply Hgrow).
      destruct Ht' as [? | ?]; [by left | right; by apply Hgrow]. }
    apply Forall_insert; [done |].
    destruct t as [kind b pc]. simpl in *.
    destruct Hmove; simpl in *; subst; simpl in *; try done; try congruence.
    + intros x Hx. by left.
    + destruct (ValueCollect_unlimited (v_valueCollector st) v Hun) as [_ ->].
      intros x Hx. destruct (Hpc x Hx) as [Hin | ?].
      * apply elem_of_cons in Hin as [-> | ?]; [right | by left].
        apply elem_of_union. left. by apply elem_of_singleton.
      * right. apply elem_of_union. by right.
    + intros x Hx. destruct (Hpc x Hx) as [Hin | ?]; [| done].
      by apply elem_of_nil in Hin.
    + intros x Hx. destruct (Hpc x Hx) as [Hin | ?]; [| done].
      by apply elem_of_nil in Hin.
Qed.

Lemma V2_run_full_inv p limit sched :
  limit ≤ 0 → ¬ p_maxBlocks p > 0 → full_inv p (V2_run p sched (V2_init limit)).
Proof.
  intros Hlimit Hmax. apply V2_run_invariant; [by apply full_inv_init |].
  intros st st'. by apply full_inv_step.
Qed.

(** The values of a successful typed tag-value search: no value twice,
    every value comes from the call on some block of the registry, and
    for a tenant with neither a byte limit nor a block cap every value
    of every block is there, so that the set of values returned does
    not depend on the schedule. *)
Theorem SearchTagValuesV2_values ctx req i sched limit p resp :
  SearchTagValuesV2_entry ctx req i = inr (limit, p) →
  (SearchTagValuesV2 ctx req i sched).1 = Some (Ok resp) →
  NoDup (TagValuesV2 resp) ∧
  (∀ v, v ∈ TagValuesV2 resp → ∃ b, b ∈ allBlocks i ∧ v ∈ (V2_block p b).1) ∧
  (limit ≤ 0 → p_maxBlocks p = 0 →
   ∀ b v, b ∈ allBlocks i → v ∈ (V2_block p b).1 → v ∈ TagValuesV2 resp).
Proof.
  intros Hentry. unfold SearchTagValuesV2. rewrite Hentry. simpl. intros Hr.
  destruct (SearchTagValuesV2_entry_inr ctx req i limit p Hentry) as (Hi & _).
  pose proof (V2_run_result_inv p limit sched) as Hres.
  destruct (V2_run_origin_inv p limit sched) as (_ & _ & _ & Hsound).
  pose proof (V2_returned_tasks p limit sched) as Htasks.
  pose proof (V2_run_full_inv p limit sched) as Hfull.
  assert (is_Some (V2_result (V2_run p sched (V2_init limit)))) as Hsome
    by (by eexists).
  apply V2_result_returned in Hr.
  unfold result_inv in Hres. rewrite Hr in Hres. destruct Hres as [Hres _].
  destruct (v_anyErr (V2_run p sched (V2_init limit))) as [e |] eqn:He; [done |].
  injection Hres as ->. rewrite Hi in *. simpl. unfold Values.
  split; [apply NoDup_elements |]. split.
  - intros v Hv. apply Hsound. by apply elem_of_elements.
  - intros Hlimit Hmax b v Hb Hv. apply elem_of_elements.
    destruct (Hfull Hlimit ltac:(lia)) as [_ Hall].
    destruct (Htasks b Hsome Hb) as (k & t & Hk & <- & Hlive).
    pose proof (Forall_lookup_1 _ _ _ _ (Hall He) Hk) as Ht. simpl in Ht.
    unfold live in Hlive. destruct (t_pc t); try done; by apply Ht.
Qed.

(** *** The call can always return *)


(** ** Tag-name search (typed): the scopes returned *)

Lemma ScopedCollect_holds_sound (d : ScopedDistinctString) (scope val name t : string) :
  holds (ScopedCollect d scope val) name t → (name = scope ∧ t = val) ∨ holds d name t.
Proof.
  unfold ScopedCollect, holds.
  destruct (sds_limExceeded d); [by right |].
  case_bool_decide; [by right |].
  destruct (_ && _); simpl; [by right |].
  intros (col & Hcol & Ht).
  destruct (decide (name = scope)) as [-> | Hne].
  - rewrite lookup_insert_eq in Hcol. injection Hcol as <-.
    apply elem_of_union in Ht as [Ht | Ht].
    + apply elem_of_singleton in Ht. by left.
    + right. destruct (sds_cols d !! scope) as [c |]; simpl in Ht.
      * by exists c.
      * by apply elem_of_empty in Ht.
  - rewrite lookup_insert_ne in Hcol by done. right. by exists col.
Qed.

Lemma ScopedCollect_holds_unlimited (d : ScopedDistinctString) (scope val name t : string) :
  unlimited_scoped d →
  unlimited_scoped (ScopedCollect d scope val) ∧
  ((name = scope ∧ t = val) ∨ holds d name t → holds (ScopedCollect d scope val) name t).
Proof.
  intros [Hmax Hex]. unfold ScopedCollect, holds. rewrite Hex.
  case_bool_decide as Hin.
  - split; [done |]. intros [[-> ->] | ?]; [| done].
    destruct (sds_cols d !! scope) as [c |]; simpl in Hin.
    + by exists c.
    + by apply elem_of_empty in Hin.
  - rewrite (bool_decide_false (0 < sds_maxLen d)) by lia. simpl.
    split; [by split |].
    intros [[-> ->] | (col & Hcol & Ht)].
    + eexists. rewrite lookup_insert_eq. split; [done |].
      apply elem_of_union. left. by apply elem_of_singleton.
    + destruct (decide (name = scope)) as [-> | Hne].
      * eexists. rewrite lookup_insert_eq. split; [done |].
        apply elem_of_union. right. by rewrite Hcol.
      * exists col. by rewrite lookup_insert_ne.
Qed.

Lemma collectTags_holds_sound (tags : list (string * AttributeScope))
    (d : ScopedDistinctString) (name t : string) :
  holds (collectTags d tags) name t →
  holds d name t ∨ ∃ scope, (t, scope) ∈ tags ∧ AttributeScope_String scope = name.
Proof.
  unfold collectTags. revert d.
  induction tags as [| [t' scope'] tags IH]; intros d; simpl; [by left |].
  intros Hh. destruct (IH _ Hh) as [Hd | (scope & Hin & Hname)].
  - apply ScopedCollect_holds_sound in Hd as [[-> ->] | ?]; [| by left].
    right. exists scope'. split; [by left | done].
  - right. exists scope. split; [by right | done].
Qed.

Lemma collectTags_holds_unlimited (tags : list (string * AttributeScope))
    (d : ScopedDistinctString) (name t : string) :
  unlimited_scoped d →
  unlimited_scoped (collectTags d tags) ∧
  (holds d name t ∨ (∃ scope, (t, scope) ∈ tags ∧ AttributeScope_String scope = name) →
   holds (collectTags d tags) name t).
Proof.
  unfold collectTags. revert d.
  induction tags as [| [t' scope'] tags IH]; intros d Hun; simpl.
  { split; [done |]. intros [? | (scope & Hin & _)]; [done |].
    by apply elem_of_nil in Hin. }
  destruct (ScopedCollect_holds_unlimited d (AttributeScope_String scope') t' name t Hun)
    as [Hun' Hstep].
  destruct (IH _ Hun') as [Hun'' Hrest].
  split; [done |]. intros [Hd | (scope & Hin & Hname)].
  - apply Hrest. left. apply Hstep. by right.
  - apply elem_of_cons in Hin as [[= -> ->] | Hin].
    + apply Hrest. left. apply Hstep. by left.
    + apply Hrest. right. by exists scope.
Qed.

Lemma SearchTagsV2_searchBlock_holds ctx a q b dv name t :
  (holds (SearchTagsV2_searchBlock ctx a q (Some b) dv).1.2 name t →
   holds dv name t ∨ reported ctx a q [b] name t) ∧
  (unlimited_scoped dv →
   unlimited_scoped (SearchTagsV2_searchBlock ctx a q (Some b) dv).1.2 ∧
   (holds dv name t ∨ reported ctx a q [b] name t →
    holds (SearchTagsV2_searchBlock ctx a q (Some b) dv).1.2 name t)).
Proof.
  assert (∀ tags, tags = SearchTagsV2_block_tags ctx a q b →
            (holds (collectTags dv tags) name t →
             holds dv name t ∨ reported ctx a q [b] name t) ∧
            (unlimited_scoped dv →
             unlimited_scoped (collectTags dv tags) ∧
             (holds dv name t ∨ reported ctx a q [b] name t →
              holds (collectTags dv tags) name t))) as Hcollect.
  { intros tags ->. split.
    - intros Hh. apply collectTags_holds_sound in Hh as [? | (scope & ? & ?)]; [by left |].
      right. exists b, scope. split; [by left | done].
    - intros Hun.
      destruct (collectTags_holds_unlimited (SearchTagsV2_block_tags ctx a q b)
                  dv name t Hun) as [Hun' Hall].
      split; [done |]. intros [? | (b' & scope & Hb' & ? & ?)]; apply Hall; [by left |].
      apply list_elem_of_singleton in Hb' as ->. right. by exists scope. }
  unfold SearchTagsV2_searchBlock, SearchTagsV2_block_tags in *.
  destruct (ScopedExceeded dv) eqn:Hex.
  { simpl. split; [by left |]. intros [_ Hno]. unfold ScopedExceeded in Hex. congruence. }
  destruct (IsEmptyQuery q).
  - destruct (SearchTags_ b ctx a) as [tags err]. simpl in *.
    specialize (Hcollect tags eq_refl).
    destruct err as [e0 |]; simpl; [| done].
    by destruct (errors_Is e0 ErrUnsupported).
  - destruct (ExecuteTagNames ctx a q (FetchTagNames b)) as [tags err]. simpl in *.
    by apply Hcollect.
Qed.

Lemma reported_cons ctx a q b rest name t :
  reported ctx a q (b :: rest) name t ↔
  reported ctx a q [b] name t ∨ reported ctx a q rest name t.
Proof.
  unfold reported. split.
  - intros (b' & scope & Hb' & ? & ?).
    apply elem_of_cons in Hb' as [-> | ?].
    + left. exists b, scope. split; [by left | done].
    + right. by exists b', scope.
  - intros [(b' & scope & Hb' & ? & ?) | (b' & scope & Hb' & ? & ?)].
    + apply list_elem_of_singleton in Hb' as ->. exists b, scope. split; [by left | done].
    + exists b', scope. split; [by right | done].
Qed.

Lemma reported_app ctx a q l1 l2 name t :
  reported ctx a q (l1 ++ l2) name t ↔
  reported ctx a q l1 name t ∨ reported ctx a q l2 name t.
Proof.
  unfold reported. split.
  - intros (b' & scope & Hb' & ? & ?).
    apply elem_of_app in Hb' as [? | ?]; [left | right]; by exists b', scope.
  - intros [(b' & scope & Hb' & ? & ?) | (b' & scope & Hb' & ? & ?)];
      exists b', scope; (split; [| done]); apply elem_of_app; [by left | by right].
Qed.

Lemma reported_nil ctx a q name t : ¬ reported ctx a q [] name t.
Proof. intros (b & scope & Hb & _). by apply elem_of_nil in Hb. Qed.

Lemma SearchTagsV2_range_holds ctx a q kind blocks dv name t :
  (holds (SearchTagsV2_range ctx a q kind blocks dv).1.2 name t →
   holds dv name t ∨ reported ctx a q blocks name t) ∧
  (unlimited_scoped dv → (SearchTagsV2_range ctx a q kind blocks dv).1.1 = None →
   unlimited_scoped (SearchTagsV2_range ctx a q kind blocks dv).1.2 ∧
   (holds dv name t ∨ reported ctx a q blocks name t →
    holds (SearchTagsV2_range ctx a q kind blocks dv).1.2 name t)).
Proof.
  revert dv. induction blocks as [| b rest IH]; intros dv; simpl.
  { split; [by left |]. intros Hun _. split; [done |].
    intros [? | Hr]; [done |]. by apply reported_nil in Hr. }
  destruct (SearchTagsV2_searchBlock_holds ctx a q b dv name t) as [Hsound Hcomplete].
  destruct (SearchTagsV2_searchBlock ctx a q (Some b) dv) as [[err dv'] ev].
  simpl in Hsound, Hcomplete.
  destruct err as [e |]; simpl.
  - split; [| done]. intros Hh. rewrite reported_cons.
    destruct (Hsound Hh) as [? | ?]; [by left | right; by left].
  - destruct (IH dv') as [Hsound' Hcomplete'].
    destruct (SearchTagsV2_range ctx a q kind rest dv') as [[err' dv''] ev'].
    simpl in *. split.
    + intros Hh. rewrite reported_cons.
      destruct (Hsound' Hh) as [Hd | ?]; [| right; by right].
      destruct (Hsound Hd) as [? | ?]; [by left | right; by left].
    + intros Hun Herr. destruct (Hcomplete Hun) as [Hun' Hall].
      destruct (Hcomplete' Hun' Herr) as [Hun'' Hall'].
      split; [done |]. rewrite reported_cons.
      intros [? | [? | ?]]; apply Hall'; [left | left | by right]; apply Hall;
        [by left | by right].
Qed.

Lemma SearchTagsV2_locked_holds ctx a q limit i name t :
  (holds (SearchTagsV2_locked ctx a q limit i).1.2 name t →
   reported ctx a q (allBlocks i) name t) ∧
  (limit ≤ 0 → (∃ resp, (SearchTagsV2_locked ctx a q limit i).1.1 = Ok resp) →
   reported ctx a q (allBlocks i) name t →
   holds (SearchTagsV2_locked ctx a q limit i).1.2 name t) ∧
  (∀ resp, (SearchTagsV2_locked ctx a q limit i).1.1 = Ok resp →
           resp = SearchTagsV2_response a (SearchTagsV2_locked ctx a q limit i).1.2).
Proof.
  unfold SearchTagsV2_locked, allBlocks.
  set (dv0 := NewScopedDistinctString limit).
  assert (¬ holds dv0 name t) as Hempty.
  { intros (col & Hcol & _). subst dv0. simpl in Hcol. by rewrite lookup_empty in Hcol. }
  assert ((holds (SearchTagsV2_searchBlock ctx a q (headBlock i) dv0).1.2 name t →
           reported ctx a q (option_list (headBlock i)) name t) ∧
          (limit ≤ 0 →
           unlimited_scoped (SearchTagsV2_searchBlock ctx a q (headBlock i) dv0).1.2 ∧
           (reported ctx a q (option_list (headBlock i)) name t →
            holds (SearchTagsV2_searchBlock ctx a q (headBlock i) dv0).1.2 name t)))
    as [HsoundH HcompleteH].
  { destruct (headBlock i) as [h |].
    - destruct (SearchTagsV2_searchBlock_holds ctx a q h dv0 name t) as [Hs Hc].
      split.
      + intros Hh. by destruct (Hs Hh).
      + intros Hlimit. destruct (Hc ltac:(by split)) as [Hun Hall].
        split; [done |]. intros Hr. apply Hall. by right.
    - simpl. split; [done |]. intros Hlimit. split; [by split |].
      intros Hr. by apply reported_nil in Hr. }
  destruct (SearchTagsV2_searchBlock ctx a q (headBlock i) dv0) as [[err dv] evH].
  simpl in HsoundH, HcompleteH.
  destruct err as [e1 |].
  { destruct (headBlock i); cbn [fst snd]; (split; [| split]).
    - intros Hh. apply reported_app. left. by apply HsoundH.
    - by intros _ [resp ?].
    - done.
    - intros Hh. apply reported_app. left. by apply HsoundH.
    - by intros _ [resp ?].
    - done. }
  destruct (SearchTagsV2_range_holds ctx a q "completing" (completingBlocks i) dv name t)
    as [Hsound1 Hcomplete1].
  destruct (SearchTagsV2_range ctx a q "completing" _ dv) as [[err1 dv1] ev1].
  simpl in Hsound1, Hcomplete1.
  destruct err1 as [e1 |].
  { cbn [fst snd]. rewrite !reported_app. split; [| split; [| done]].
    - intros Hh. destruct (Hsound1 Hh) as [? | ?]; [left; by apply HsoundH |].
      right. by left.
    - by intros _ [resp ?]. }
  destruct (SearchTagsV2_range_holds ctx a q "complete" (completeBlocks i) dv1 name t)
    as [Hsound2 Hcomplete2].
  destruct (SearchTagsV2_range ctx a q "complete" _ dv1) as [[err2 dv2] ev2].
  simpl in Hsound2, Hcomplete2.
  assert (holds dv2 name t →
          reported ctx a q (option_list (headBlock i)) name t
          ∨ reported ctx a q (completingBlocks i) name t
            ∨ reported ctx a q (completeBlocks i) name t) as Hsound.
  { intros Hh. destruct (Hsound2 Hh) as [Hd | ?]; [| right; by right].
    destruct (Hsound1 Hd) as [? | ?]; [left; by apply HsoundH | right; by left]. }
  destruct err2 as [e2 |]; cbn [fst snd]; rewrite !reported_app.
  - split; [done |]. split; [| done]. by intros _ [resp ?].
  - split; [done |]. split; [| by intros resp [= <-]].
    intros Hlimit _ Hr.
    destruct (HcompleteH Hlimit) as [HunH HallH].
    destruct (Hcomplete1 HunH eq_refl) as [Hun1 Hall1].
    destruct (Hcomplete2 Hun1 eq_refl) as [Hun2 Hall2].
    destruct Hr as [? | [? | ?]]; apply Hall2; [left | left | by right];
      apply Hall1; [left | by right]. by apply HallH.
Qed.

Lemma elem_of_collected_scopes (dv : ScopedDistinctString) (s : SearchTagsV2Scope) :
  s ∈ (λ kv, mkSearchTagsV2Scope kv.1 kv.2) <$> map_to_list (ScopedStrings dv) ↔
  ∃ col, sds_cols dv !! scope_Name s = Some col ∧ scope_Tags s = elements col.
Proof.
  unfold ScopedStrings. rewrite list_elem_of_fmap. split.
  - intros ([name tags] & -> & Hin). simpl.
    apply elem_of_map_to_list in Hin. apply lookup_fmap_Some in Hin as (col & <- & Hcol).
    by exists col.
  - intros (col & Hcol & Htags). exists (scope_Name s, scope_Tags s).
    split; [by destruct s |].
    apply elem_of_map_to_list. apply lookup_fmap_Some. by exists col.
Qed.

(** The scopes of a successful typed tag-name search, for a scope other
    than [intrinsic]: the collected scopes, no scope name twice,
    followed by the intrinsic scope exactly when the request's scope
    resolves to none.  Every tag of a collected scope is reported by
    some block of the registry under that scope name, and for a tenant
    without a byte limit every tag a block reports is there. *)
Theorem SearchTagsV2_scopes ctx req i resp :
  tags_Scope req ≠ ParamScopeIntrinsic →
  (SearchTagsV2 ctx req i).1 = Ok resp →
  ∃ collected,
    Scopes resp =
      collected ++
      (if bool_decide (AttributeScopeFromString (tags_Scope req) = AttributeScopeNone)
       then [mkSearchTagsV2Scope ParamScopeIntrinsic GetVirtualIntrinsicValues]
       else []) ∧
    NoDup (scope_Name <$> collected) ∧
    (∀ s t, s ∈ collected → t ∈ scope_Tags s →
       reported ctx (AttributeScopeFromString (tags_Scope req))
         (ExtractMatchers (tags_Query req)) (allBlocks i) (scope_Name s) t) ∧
    (∀ userID, ctx_orgID ctx = Some userID →
       MaxBytesPerTagValuesQuery (limits i) userID ≤ 0 →
       ∀ name t,
         reported ctx (AttributeScopeFromString (tags_Scope req))
           (ExtractMatchers (tags_Query req)) (allBlocks i) name t →
         ∃ s, s ∈ collected ∧ scope_Name s = name ∧ t ∈ scope_Tags s).
Proof.
  intros Hscope. unfold SearchTagsV2, ExtractOrgID.
  destruct (ctx_orgID ctx) as [userID |]; simpl; [| done].
  rewrite bool_decide_false by done.
  case_bool_decide; [done |].
  set (a := AttributeScopeFromString (tags_Scope req)).
  set (q := ExtractMatchers (tags_Query req)).
  pose proof (SearchTagsV2_locked_holds ctx a q
                (MaxBytesPerTagValuesQuery (limits i) userID) i) as Hholds.
  destruct (SearchTagsV2_locked _ _ _ _ _) as [[r dv] tr]. simpl in *.
  intros ->.
  destruct (Hholds ""%string ""%string) as (_ & _ & Hresp).
  rewrite (Hresp resp eq_refl). unfold SearchTagsV2_response.
  exists ((λ kv, mkSearchTagsV2Scope kv.1 kv.2) <$> map_to_list (ScopedStrings dv)).
  split; [case_bool_decide; simpl; [done | by rewrite app_nil_r] |]. split; [| split].
  - rewrite <- list_fmap_compose.
    apply (NoDup_fst_map_to_list (ScopedStrings dv)).
  - intros s t Hs Ht. apply elem_of_collected_scopes in Hs as (col & Hcol & Htags).
    destruct (Hholds (scope_Name s) t) as (Hsound & _).
    apply Hsound. exists col. split; [done |].
    rewrite Htags in Ht. by apply elem_of_elements in Ht.
  - intros userID' [= <-] Hlimit name t Hr.
    destruct (Hholds name t) as (_ & Hcomplete & _).
    destruct (Hcomplete Hlimit ltac:(by eexists) Hr) as (col & Hcol & Ht).
    exists (mkSearchTagsV2Scope name (elements col)).
    split; [| split; [done | simpl; by apply elem_of_elements]].
    apply elem_of_collected_scopes. by exists col.
Qed.

(** ** Requests that are rejected at the entry *)

(** The tag surfaces check the tenant before anything else, the scope
    and the tag identifier next; a request that fails one of these
    checks gets its error back before any lock is taken and before any
    block is called. *)
Theorem rejected_requests_touch_nothing ctx i :
  (ctx_orgID ctx = None →
   (∀ req, SearchTagsV2 ctx req i = (Err ErrNoOrgID, [])) ∧
   (∀ scope, SearchTags ctx scope i = (Err ErrNoOrgID, [])) ∧
   (∀ tagName, SearchTagValues ctx tagName i = (Err ErrNoOrgID, [])) ∧
   (∀ req sched, SearchTagValuesV2 ctx req i sched = (Some (Err ErrNoOrgID), []))) ∧
  (is_Some (ctx_orgID ctx) →
   (∀ req, tags_Scope req ≠ ParamScopeIntrinsic →
           AttributeScopeFromString (tags_Scope req) = AttributeScopeUnknown →
           SearchTagsV2 ctx req i =
             (Err (ErrorString ("unknown scope: " +:+ tags_Scope req)), [])) ∧
   (∀ req sched e, (ParseIdentifier (tvr_TagName req)).2 = Some e →
                   SearchTagValuesV2 ctx req i sched = (Some (Err e), []))).
Proof.
  split.
  - intros Hnone.
    assert (∀ req, SearchTagsV2 ctx req i = (Err ErrNoOrgID, [])) as HtagsV2.
    { intros req. unfold SearchTagsV2, ExtractOrgID. by rewrite Hnone. }
    split; [done |]. split; [| split].
    + intros scope. unfold SearchTags. by rewrite HtagsV2.
    + intros tagName. unfold SearchTagValues, ExtractOrgID. by rewrite Hnone.
    + intros req sched.
      unfold SearchTagValuesV2, SearchTagValuesV2_entry, ExtractOrgID. by rewrite Hnone.
  - intros [userID Huser]. split.
    + intros req Hscope Hunknown. unfold SearchTagsV2, ExtractOrgID. rewrite Huser. simpl.
      rewrite bool_decide_false by done. by rewrite bool_decide_true by done.
    + intros req sched e Hparse.
      unfold SearchTagValuesV2, SearchTagValuesV2_entry, ExtractOrgID. rewrite Huser. simpl.
      destruct (ParseIdentifier (tvr_TagName req)) as [tag err]. simpl in Hparse.
      by subst err.
Qed.

(** ** The lock order of the four surfaces *)

Lemma head_released_first_skip (n : nat) (ev tr : list event) :
  no_locks ev → head_released_first n (ev ++ tr) = head_released_first n tr.
Proof.
  induction 1 as [| e ev He _ IH]; simpl; [done |].
  destruct e; simpl in He; done.
Qed.

Lemma no_locks_benign (ev : list event) : no_locks ev → forallb benign ev = true.
Proof.
  induction 1 as [| e ev He _ IH]; simpl; [done |].
  rewrite IH. destruct e; simpl in He; done.
Qed.

Lemma forallb_benign_app (tr1 tr2 : list event) :
  forallb benign (tr1 ++ tr2) = forallb benign tr1 && forallb benign tr2.
Proof. apply forallb_app. Qed.

(** The trace of a sequential surface that stops after the head block. *)
Lemma sequential_head_only (evH : list event) :
  no_locks evH →
  let tr := [EvRLock headBlockMtx] ++ evH ++ [EvRUnlock headBlockMtx] in
  lock_order tr = true ∧ head_taken_first tr = true ∧ head_released_first 0 tr = true.
Proof.
  intros HH tr. subst tr. split; [by apply lock_order_head_only |]. split.
  - simpl. rewrite forallb_benign_app, no_locks_benign by done. done.
  - simpl. by rewrite head_released_first_skip.
Qed.

(** The trace of a sequential surface that goes on to the other blocks. *)
Lemma sequential_head_then_blocks (evH ev : list event) :
  no_locks evH → no_locks ev →
  let tr := ([EvRLock headBlockMtx] ++ evH ++ [EvRUnlock headBlockMtx]) ++
            [EvRLock blocksMtx] ++ ev ++ [EvRUnlock blocksMtx] in
  lock_order tr = true ∧ head_taken_first tr = true ∧ head_released_first 0 tr = true.
Proof.
  intros HH Hev tr. subst tr. split; [by apply lock_order_head_then_blocks |]. split.
  - simpl. rewrite <- !app_assoc. simpl.
    rewrite forallb_benign_app, no_locks_benign by done. simpl.
    rewrite forallb_benign_app, no_locks_benign by done. done.
  - simpl. rewrite <- !app_assoc. rewrite head_released_first_skip by done. simpl.
    by rewrite head_released_first_skip.
Qed.

Lemma Search_run_sequential ctx req i sched :
  let tr := (Search_run ctx req i sched).2 in
  lock_order tr = true ∧ head_taken_first tr = true ∧ head_released_first 0 tr = true.
Proof.
  unfold Search_run.
  destruct (headBlock i) as [h |]; [| done].
  set (st0 := mkSearchState _ _ _ _).
  assert (no_locks (if includeBlock (Meta h) req
                    then Search_search ctx req (Search_maxResults req) false h st0
                    else (st0, [])).2) as HH.
  { destruct (includeBlock (Meta h) req);
      [apply Search_search_no_locks | apply no_locks_nil]. }
  destruct (if includeBlock (Meta h) req then _ else _) as [st1 evHead].
  simpl in HH.
  destruct (anyErr st1); [by apply sequential_head_only |].
  case_bool_decide; [by apply sequential_head_only |].
  pose proof (Search_fanout_no_locks ctx req (Search_maxResults req)
                (Search_tasks req i) sched st1) as Hfan.
  destruct (Search_fanout _ _ _ _ _ _) as [st2 ev]. simpl in Hfan.
  destruct (anyErr st2); by apply sequential_head_then_blocks.
Qed.

Lemma SearchTagsV2_locked_sequential ctx a q limit i :
  let tr := (SearchTagsV2_locked ctx a q limit i).2 in
  lock_order tr = true ∧ head_taken_first tr = true ∧ head_released_first 0 tr = true.
Proof.
  unfold SearchTagsV2_locked.
  pose proof (SearchTagsV2_searchBlock_no_locks ctx a q (headBlock i)
                (NewScopedDistinctString limit)) as HH.
  destruct (SearchTagsV2_searchBlock ctx a q (headBlock i) _) as [[err dv] evH].
  simpl in HH.
  destruct err as [e |].
  { destruct (headBlock i); by apply sequential_head_only. }
  pose proof (SearchTagsV2_range_no_locks ctx a q "completing" (completingBlocks i) dv) as H1.
  destruct (SearchTagsV2_range ctx a q "completing" _ dv) as [[err1 dv1] ev1].
  simpl in H1.
  destruct err1 as [e |]; [by apply sequential_head_then_blocks |].
  pose proof (SearchTagsV2_range_no_locks ctx a q "complete" (completeBlocks i) dv1) as H2.
  destruct (SearchTagsV2_range ctx a q "complete" _ dv1) as [[err2 dv2] ev2].
  simpl in H2.
  destruct err2 as [e |]; cbn [snd].
  - rewrite (app_assoc ev1 ev2).
    apply sequential_head_then_blocks; [done | by apply no_locks_app].
  - rewrite (app_assoc ev2), (app_assoc ev1).
    apply sequential_head_then_blocks; [done |].
    repeat apply no_locks_app; try done.
    destruct (ScopedExceeded dv2); by repeat constructor.
Qed.

Lemma SearchTagValues_locked_sequential ctx tagName limit maxBlocks i :
  let tr := (SearchTagValues_locked ctx tagName limit maxBlocks i).2 in
  lock_order tr = true ∧ head_taken_first tr = true ∧ head_released_first 0 tr = true.
Proof.
  unfold SearchTagValues_locked.
  set (st0 := mkTagValuesState 0 (NewDistinctString limit)).
  pose proof (SearchTagValues_search_calls ctx tagName maxBlocks (headBlock i) st0) as HH.
  destruct (SearchTagValues_search ctx tagName maxBlocks (headBlock i) st0)
    as [[err st] evH].
  destruct HH as [HH _].
  destruct err as [e |].
  { destruct (headBlock i); by apply sequential_head_only. }
  pose proof (SearchTagValues_range_calls ctx tagName maxBlocks "completing"
                (completingBlocks i) st) as H1.
  destruct (SearchTagValues_range ctx tagName maxBlocks "completing" _ st)
    as [[err1 st1] ev1].
  destruct H1 as [H1 _].
  destruct err1 as [e |]; [by apply sequential_head_then_blocks |].
  pose proof (SearchTagValues_range_calls ctx tagName maxBlocks "complete"
                (completeBlocks i) st1) as H2.
  destruct (SearchTagValues_range ctx tagName maxBlocks "complete" _ st1)
    as [[err2 st2] ev2].
  destruct H2 as [H2 _].
  destruct err2 as [e |]; cbn [snd].
  - rewrite (app_assoc ev1 ev2).
    apply sequential_head_then_blocks; [done | by apply no_locks_app].
  - rewrite (app_assoc ev2), (app_assoc ev1).
    apply sequential_head_then_blocks; [done |].
    repeat apply no_locks_app; try done.
    destruct (Exceeded (distinctValues st2)); by repeat constructor.
Qed.

Lemma order_inv_head_first st : order_inv st → head_taken_first (v_trace st) = true.
Proof.
  unfold order_inv. intros Ho.
  assert ((∃ tr, v_trace st = EvRLock headBlockMtx :: tr ∧
                 Forall (λ e, benign e = true) tr) →
          head_taken_first (v_trace st) = true) as Hlater.
  { intros (tr & -> & Hb). cbn [head_taken_first].
    rewrite bool_decide_true by done. simpl.
    induction Hb as [| e tr He _ IH]; simpl; [done |]. by rewrite He, IH. }
  destruct (v_main st); try (by apply Hlater).
  by rewrite Ho.
Qed.

(** C2 (amended). On every path of the four query surfaces the head
    lock is the first lock taken and is taken once, so that it is
    acquired before the blocks lock and never while the blocks lock is
    held, and no exclusive lock operation occurs.  Trace search, both
    tag-name surfaces and the flat tag-value search moreover give the
    head lock back before they acquire the blocks lock, so that they
    never release the head lock while holding the blocks lock.  For the
    typed tag-value search the order of the releases is left open. *)
Theorem lock_order_surfaces ctx i :
  (∀ req sched,
     let tr := (Search ctx req i sched).2 in
     lock_order tr = true ∧ head_taken_first tr = true ∧
     head_released_first 0 tr = true) ∧
  (∀ req,
     let tr := (SearchTagsV2 ctx req i).2 in
     lock_order tr = true ∧ head_taken_first tr = true ∧
     head_released_first 0 tr = true) ∧
  (∀ scope,
     let tr := (SearchTags ctx scope i).2 in
     lock_order tr = true ∧ head_taken_first tr = true ∧
     head_released_first 0 tr = true) ∧
  (∀ tagName,
     let tr := (SearchTagValues ctx tagName i).2 in
     lock_order tr = true ∧ head_taken_first tr = true ∧
     head_released_first 0 tr = true) ∧
  (∀ req sched,
     let tr := (SearchTagValuesV2 ctx req i sched).2 in
     acquire_order 0 tr = true ∧ shared_only tr = true ∧ head_taken_first tr = true).
Proof.
  assert (∀ req,
            let tr := (SearchTagsV2 ctx req i).2 in
            lock_order tr = true ∧ head_taken_first tr = true ∧
            head_released_first 0 tr = true) as HtagsV2.
  { intros req. unfold SearchTagsV2.
    destruct (ExtractOrgID ctx) as [userID [e |]]; [done |].
    case_bool_decide; [done |]. case_bool_decide; [done |].
    pose proof (SearchTagsV2_locked_sequential ctx
                  (AttributeScopeFromString (tags_Scope req))
                  (ExtractMatchers (tags_Query req))
                  (MaxBytesPerTagValuesQuery (limits i) userID) i) as Hl.
    by destruct (SearchTagsV2_locked _ _ _ _ _) as [[r dv] tr]. }
  split; [| split; [done | split; [| split]]].
  - intros req sched. unfold Search.
    pose proof (Search_run_sequential ctx req i sched) as Hl.
    by destruct (Search_run ctx req i sched) as [[r st] tr].
  - intros scope. unfold SearchTags.
    specialize (HtagsV2 (mkSearchTagsRequest scope "")).
    destruct (SearchTagsV2 ctx _ i) as [r tr]. by destruct r.
  - intros tagName. unfold SearchTagValues.
    destruct (ExtractOrgID ctx) as [userID [e |]]; [done |].
    pose proof (SearchTagValues_locked_sequential ctx tagName
                  (MaxBytesPerTagValuesQuery (limits i) userID)
                  (maxBlocksOf (MaxBlocksPerTagValuesQuery (limits i) userID)) i) as Hl.
    by destruct (SearchTagValues_locked _ _ _ _ _) as [[r st] tr].
  - intros req sched. unfold SearchTagValuesV2.
    destruct (SearchTagValuesV2_entry ctx req i) as [r | [limit p]]; [done |].
    simpl.
    destruct (order_inv_acquire _ (V2_run_order_inv p limit sched)) as [Ha Hs].
    split; [done |]. split; [done |].
    apply order_inv_head_first, V2_run_order_inv.
Qed.

(** ** Tag-name search (flat): the intrinsic scope *)

(** What a successful flat tag-name search is made of. *)
Lemma SearchTags_ok ctx scope i resp tr :
  SearchTags ctx scope i = (Ok resp, tr) →
  ∃ v2, SearchTagsV2 ctx (mkSearchTagsRequest scope "") i = (Ok v2, tr) ∧
        ∀ t, t ∈ TagNames resp ↔
             ∃ s, s ∈ Scopes v2 ∧
                  ¬ (scope = ""%string ∧ scope_Name s = ParamScopeIntrinsic) ∧
                  t ∈ scope_Tags s.
Proof.
  unfold SearchTags.
  destruct (SearchTagsV2 ctx (mkSearchTagsRequest scope "") i) as [[v2 | e |] tr'];
    [| done | done].
  intros [= <- <-]. exists v2. split; [done |].
  intros t. simpl. unfold Strings. rewrite elem_of_elements. unfold SearchTags_flatten.
  rewrite SearchTags_flatten_values by (by apply unlimited_New).
  simpl. split; [| by right].
  intros [Hin | ?]; [by apply elem_of_empty in Hin | done].
Qed.

(** What a successful typed tag-name search is made of, for a scope
    other than [intrinsic]: the scopes collected from the blocks, then
    the intrinsic scope when the request's scope resolves to none. *)
Lemma SearchTagsV2_ok ctx req i v2 tr :
  tags_Scope req ≠ ParamScopeIntrinsic →
  SearchTagsV2 ctx req i = (Ok v2, tr) →
  ∃ collected,
    Scopes v2 =
      collected ++
      (if bool_decide (AttributeScopeFromString (tags_Scope req) = AttributeScopeNone)
       then [mkSearchTagsV2Scope ParamScopeIntrinsic GetVirtualIntrinsicValues]
       else []) ∧
    ∀ s t, s ∈ collected → t ∈ scope_Tags s →
           reported ctx (AttributeScopeFromString (tags_Scope req))
             (ExtractMatchers (tags_Query req)) (allBlocks i) (scope_Name s) t.
Proof.
  intros Hscope. unfold SearchTagsV2, ExtractOrgID.
  destruct (ctx_orgID ctx) as [userID |]; simpl; [| done].
  rewrite bool_decide_false by done.
  case_bool_decide; [done |].
  set (a := AttributeScopeFromString (tags_Scope req)).
  set (q := ExtractMatchers (tags_Query req)).
  pose proof (SearchTagsV2_locked_holds ctx a q
                (MaxBytesPerTagValuesQuery (limits i) userID) i) as Hholds.
  destruct (SearchTagsV2_locked _ _ _ _ _) as [[r dv] tr']. simpl in *.
  intros [= -> <-].
  destruct (Hholds ""%string ""%string) as (_ & _ & Hresp).
  rewrite (Hresp v2 eq_refl). unfold SearchTagsV2_response.
  exists ((λ kv, mkSearchTagsV2Scope kv.1 kv.2) <$> map_to_list (ScopedStrings dv)).
  split; [case_bool_decide; simpl; [done | by rewrite app_nil_r] |].
  intros s t Hs Ht. apply elem_of_collected_scopes in Hs as (col & Hcol & Htags).
  destruct (Hholds (scope_Name s) t) as (Hsound & _).
  apply Hsound. exists col. split; [done |].
  rewrite Htags in Ht. by apply elem_of_elements in Ht.
Qed.

(** C6 (amended). The flat tag-name search drops the intrinsic scope of
    the typed response when the caller's scope is empty, and only
    then.  With the empty scope the flat response is the typed response
    flattened without its intrinsic scope, and every flat tag name is
    one that a block reports under a scope other than [intrinsic].
    With a non-empty scope nothing is dropped: the flat tag names are
    exactly the tags of the scopes of the typed response.  So, for the
    sentinel scope [intrinsic] the flat response consists of exactly the
    intrinsic tag names; for any other non-empty scope that resolves to
    the none scope every intrinsic tag name is in the flat response;
    and for a scope that resolves to another scope no intrinsic scope is
    appended, every flat tag name being one that a block reports. *)
Theorem SearchTags_intrinsic_scope ctx i :
  (∀ v2 tr,
     SearchTagsV2 ctx (mkSearchTagsRequest "" "") i = (Ok v2, tr) →
     SearchTags ctx "" i =
       (Ok (mkSearchTagsResponse (Strings (flatten_without_intrinsic (Scopes v2)))), tr) ∧
     ∀ t, t ∈ Strings (flatten_without_intrinsic (Scopes v2)) →
          ∃ name, name ≠ ParamScopeIntrinsic ∧
                  reported ctx (AttributeScopeFromString "") (ExtractMatchers "")
                    (allBlocks i) name t) ∧
  (is_Some (ctx_orgID ctx) →
   ∃ resp, SearchTags ctx ParamScopeIntrinsic i = (Ok resp, []) ∧
           ∀ t, t ∈ TagNames resp ↔ t ∈ GetVirtualIntrinsicValues) ∧
  (∀ scope v2 tr,
     scope ≠ ""%string →
     SearchTagsV2 ctx (mkSearchTagsRequest scope "") i = (Ok v2, tr) →
     ∃ resp, SearchTags ctx scope i = (Ok resp, tr) ∧
             ∀ t, t ∈ TagNames resp ↔ ∃ s, s ∈ Scopes v2 ∧ t ∈ scope_Tags s) ∧
  (∀ scope resp tr,
     scope ≠ ""%string → scope ≠ ParamScopeIntrinsic →
     AttributeScopeFromString scope = AttributeScopeNone →
     SearchTags ctx scope i = (Ok resp, tr) →
     ∀ t, t ∈ GetVirtualIntrinsicValues → t ∈ TagNames resp) ∧
  (∀ scope resp tr,
     scope ≠ ParamScopeIntrinsic →
     AttributeScopeFromString scope ≠ AttributeScopeNone →
     SearchTags ctx scope i = (Ok resp, tr) →
     ∀ t, t ∈ TagNames resp →
          ∃ name, reported ctx (AttributeScopeFromString scope) (ExtractMatchers "")
                    (allBlocks i) name t).
Proof.
  split; [| split; [| split; [| split]]].
  - intros v2 tr Hv2. split.
    { unfold SearchTags. rewrite Hv2. by rewrite SearchTags_flatten_empty_scope. }
    intros t Ht.
    destruct (SearchTagsV2_ok ctx (mkSearchTagsRequest "" "") i v2 tr) as
      (collected & Hscopes & Hsound); [done | done |].
    unfold Strings in Ht. apply elem_of_elements in Ht.
    rewrite <- SearchTags_flatten_empty_scope in Ht. unfold SearchTags_flatten in Ht.
    rewrite SearchTags_flatten_values in Ht by (by apply unlimited_New).
    destruct Ht as [Hin | (s & Hs & Hkeep & Ht)]; [by apply elem_of_empty in Hin |].
    assert (scope_Name s ≠ ParamScopeIntrinsic) as Hname by (intros ?; by apply Hkeep).
    exists (scope_Name s). split; [done |].
    simpl in Hsound. apply Hsound; [| done].
    rewrite Hscopes in Hs. apply elem_of_app in Hs as [? | Hs]; [done |].
    case_bool_decide; [| by apply elem_of_nil in Hs].
    apply list_elem_of_singleton in Hs. by subst s.
  - intros [userID Hu]. eexists. split.
    + unfold SearchTags, SearchTagsV2, ExtractOrgID. rewrite Hu. simpl.
      reflexivity.
    + intros t. simpl. unfold Strings. rewrite elem_of_elements.
      rewrite SearchTags_flatten_nonempty_scope by done. simpl.
      rewrite foldl_Collect_values_unlimited by done.
      simpl. by rewrite (right_id_L ∅ (∪)), elem_of_list_to_set.
  - intros scope v2 tr Hscope Hv2.
    destruct (SearchTags ctx scope i) as [r tr'] eqn:Hflat.
    assert (∃ resp, r = Ok resp ∧ tr' = tr) as (resp & -> & ->).
    { unfold SearchTags in Hflat. rewrite Hv2 in Hflat. injection Hflat as <- <-.
      by eexists. }
    exists resp. split; [done |].
    destruct (SearchTags_ok ctx scope i resp tr Hflat) as (v2' & Hv2' & Hall).
    assert (v2' = v2) as -> by congruence.
    intros t. rewrite Hall. split.
    + intros (s & ? & _ & ?). by exists s.
    + intros (s & ? & ?). exists s. split; [done |]. split; [| done]. by intros [? _].
  - intros scope resp tr Hscope Hsentinel Hnone Hflat t Ht.
    destruct (SearchTags_ok ctx scope i resp tr Hflat) as (v2 & Hv2 & Hall).
    destruct (SearchTagsV2_ok ctx (mkSearchTagsRequest scope "") i v2 tr Hsentinel Hv2)
      as (collected & Hscopes & _).
    simpl in Hscopes. rewrite bool_decide_true in Hscopes by done.
    apply Hall.
    exists (mkSearchTagsV2Scope ParamScopeIntrinsic GetVirtualIntrinsicValues).
    split; [| split; [| exact Ht]].
    + rewrite Hscopes. apply elem_of_app. right. by apply list_elem_of_singleton.
    + by intros [? _].
  - intros scope resp tr Hsentinel Hother Hflat t Ht.
    destruct (SearchTags_ok ctx scope i resp tr Hflat) as (v2 & Hv2 & Hall).
    destruct (SearchTagsV2_ok ctx (mkSearchTagsRequest scope "") i v2 tr Hsentinel Hv2)
      as (collected & Hscopes & Hsound).
    simpl in Hscopes, Hsound. rewrite bool_decide_false in Hscopes by done.
    rewrite app_nil_r in Hscopes. subst collected.
    destruct (proj1 (Hall t) Ht) as (s & Hs & _ & Hts).
    exists (scope_Name s). by apply Hsound.
Qed.

(** ** Collector overflow: what the response holds *)

(** *** Tag names (typed) *)

Lemma collectTags_latch (d : ScopedDistinctString) (tags : list (string * AttributeScope)) :
  ScopedExceeded d = true → collectTags d tags = d.
Proof.
  intros Hex. unfold collectTags. induction tags as [| [t scope] tags IH]; simpl; [done |].
  by rewrite ScopedCollect_latch.
Qed.

Lemma collectTags_app (d : ScopedDistinctString) (l1 l2 : list (string * AttributeScope)) :
  collectTags d (l1 ++ l2) = collectTags (collectTags d l1) l2.
Proof. unfold collectTags. apply foldl_app. Qed.

(** Whatever a block answers, the collector it leaves behind is the
    collector it found fed the tags it reports. *)
Lemma SearchTagsV2_searchBlock_fed ctx a q b dv :
  (SearchTagsV2_searchBlock ctx a q (Some b) dv).1.2 =
    collectTags dv (SearchTagsV2_block_tags ctx a q b).
Proof.
  unfold SearchTagsV2_searchBlock, SearchTagsV2_block_tags.
  destruct (ScopedExceeded dv) eqn:Hex; [by rewrite collectTags_latch |].
  destruct (IsEmptyQuery q).
  - destruct (SearchTags_ b ctx a) as [tags err]. simpl.
    destruct err as [e0 |]; [| done]. by destruct (negb _).
  - by destruct (ExecuteTagNames ctx a q (FetchTagNames b)) as [tags err].
Qed.

Lemma SearchTagsV2_range_fed ctx a q kind blocks dv :
  (SearchTagsV2_range ctx a q kind blocks dv).1.1 = None →
  (SearchTagsV2_range ctx a q kind blocks dv).1.2 =
    collectTags dv (concat (SearchTagsV2_block_tags ctx a q <$> blocks)).
Proof.
  revert dv. induction blocks as [| b rest IH]; intros dv; simpl; [done |].
  pose proof (SearchTagsV2_searchBlock_fed ctx a q b dv) as Hb.
  destruct (SearchTagsV2_searchBlock ctx a q (Some b) dv) as [[err dv'] ev].
  simpl in Hb. destruct err as [e |]; [done |].
  specialize (IH dv').
  destruct (SearchTagsV2_range ctx a q kind rest dv') as [[err' dv''] ev'].
  simpl in *. intros Herr. rewrite (IH Herr), Hb. by rewrite collectTags_app.
Qed.

Lemma SearchTagsV2_locked_fed ctx a q limit i :
  Forall (SearchTagsV2_quiet ctx a q) (allBlocks i) →
  (SearchTagsV2_locked ctx a q limit i).1.2 =
    collectTags (NewScopedDistinctString limit)
      (concat (SearchTagsV2_block_tags ctx a q <$> allBlocks i)).
Proof.
  unfold allBlocks. rewrite !Forall_app. intros (HqH & Hq1 & Hq2).
  unfold SearchTagsV2_locked.
  set (dv0 := NewScopedDistinctString limit).
  assert ((SearchTagsV2_searchBlock ctx a q (headBlock i) dv0).1.1 = None ∧
          (SearchTagsV2_searchBlock ctx a q (headBlock i) dv0).1.2 =
            collectTags dv0
              (concat (SearchTagsV2_block_tags ctx a q <$> option_list (headBlock i))))
    as [HerrH HdvH].
  { destruct (headBlock i) as [h |]; [| done].
    simpl in HqH. rewrite Forall_singleton in HqH.
    split; [by apply SearchTagsV2_searchBlock_quiet |].
    rewrite SearchTagsV2_searchBlock_fed. simpl. by rewrite app_nil_r. }
  destruct (SearchTagsV2_searchBlock ctx a q (headBlock i) dv0) as [[err dv] evH].
  simpl in HerrH, HdvH. subst err.
  pose proof (SearchTagsV2_range_quiet ctx a q "completing" _ dv Hq1) as Herr1.
  pose proof (SearchTagsV2_range_fed ctx a q "completing" (completingBlocks i) dv) as Hdv1.
  destruct (SearchTagsV2_range ctx a q "completing" _ dv) as [[err1 dv1] ev1].
  simpl in Herr1, Hdv1. subst err1. specialize (Hdv1 eq_refl).
  pose proof (SearchTagsV2_range_quiet ctx a q "complete" _ dv1 Hq2) as Herr2.
  pose proof (SearchTagsV2_range_fed ctx a q "complete" (completeBlocks i) dv1) as Hdv2.
  destruct (SearchTagsV2_range ctx a q "complete" _ dv1) as [[err2 dv2] ev2].
  simpl in Herr2, Hdv2. subst err2. specialize (Hdv2 eq_refl).
  simpl. rewrite Hdv2, Hdv1, HdvH.
  by rewrite !fmap_app, !concat_app, !collectTags_app.
Qed.

(** The scopes of the typed response: what the collector holds, and the
    intrinsic scope when the scope is none. *)
Lemma SearchTagsV2_response_scopes a dv name t :
  (∃ s, s ∈ Scopes (SearchTagsV2_response a dv) ∧ scope_Name s = name ∧ t ∈ scope_Tags s) ↔
  holds dv name t ∨
  (a = AttributeScopeNone ∧ name = ParamScopeIntrinsic ∧ t ∈ GetVirtualIntrinsicValues).
Proof.
  unfold SearchTagsV2_response. split.
  - intros (s & Hs & <- & Ht).
    assert (s ∈ (λ kv, mkSearchTagsV2Scope kv.1 kv.2) <$> map_to_list (ScopedStrings dv) ∨
            (a = AttributeScopeNone ∧
             s = mkSearchTagsV2Scope ParamScopeIntrinsic GetVirtualIntrinsicValues))
      as [Hcol | [Ha ->]].
    { case_bool_decide; simpl in Hs; [| by left].
      apply elem_of_app in Hs as [? | Hs]; [by left |].
      apply list_elem_of_singleton in Hs. by right. }
    + left. apply elem_of_collected_scopes in Hcol as (col & Hcol & Htags).
      exists col. split; [done |]. rewrite Htags in Ht. by apply elem_of_elements in Ht.
    + by right.
  - intros [(col & Hcol & Ht) | (Ha & -> & Ht)].
    + exists (mkSearchTagsV2Scope name (elements col)).
      split; [| split; [done | simpl; by apply elem_of_elements]].
      assert (mkSearchTagsV2Scope name (elements col) ∈
              (λ kv, mkSearchTagsV2Scope kv.1 kv.2) <$> map_to_list (ScopedStrings dv))
        as Hin by (apply elem_of_collected_scopes; by exists col).
      case_bool_decide; simpl; [apply elem_of_app; by left | done].
    + exists (mkSearchTagsV2Scope ParamScopeIntrinsic GetVirtualIntrinsicValues).
      split; [| done]. rewrite bool_decide_true by done. simpl.
      apply elem_of_app. right. by apply list_elem_of_singleton.
Qed.

(** *** Tag values (flat) *)

Lemma foldl_Collect_latch (vals : list string) (d : DistinctString) :
  Exceeded d = true → foldl Collect d vals = d.
Proof.
  intros Hex. induction vals as [| v vals IH]; simpl; [done |].
  by rewrite Collect_latch.
Qed.

Lemma fed_nil ctx tagName maxBlocks (st : TagValuesState) :
  (maxBlocks > 0 → inspectedBlocks st ≤ maxBlocks) → fed ctx tagName maxBlocks st [] st.
Proof.
  intros Hin. unfold fed. case_bool_decide as Hmax; [| done].
  rewrite take_nil. simpl. split; [done |]. split; [lia |]. right. lia.
Qed.

Lemma fed_app ctx tagName maxBlocks (st st1 st2 : TagValuesState) l1 l2 :
  fed ctx tagName maxBlocks st l1 st1 → fed ctx tagName maxBlocks st1 l2 st2 →
  fed ctx tagName maxBlocks st (l1 ++ l2) st2.
Proof.
  unfold fed. case_bool_decide as Hmax.
  - intros (Hdv1 & Hin1 & Hcount1) (Hdv2 & Hin2 & Hcount2).
    set (n := Z.to_nat (maxBlocks - inspectedBlocks st)) in *.
    rewrite take_app, fmap_app, concat_app, foldl_app, <- Hdv1.
    destruct Hcount1 as [Hex1 | Hcount1].
    + rewrite foldl_Collect_latch in Hdv2 by done.
      rewrite foldl_Collect_latch by done.
      split; [done |]. split; [lia |]. left. by rewrite Hdv2.
    + assert (Z.to_nat (maxBlocks - inspectedBlocks st1) = (n - length l1)%nat) as Hn.
      { rewrite Hcount1, length_take. subst n. lia. }
      rewrite Hn in *. split; [done |]. split; [lia |].
      destruct Hcount2 as [? | Hcount2]; [by left | right].
      rewrite Hcount2, Hcount1, length_app. lia.
  - intros -> ->. by rewrite fmap_app, concat_app, foldl_app.
Qed.

(** One block: whatever it answers, the closure state moves as [fed]
    says. *)
Lemma SearchTagValues_search_fed ctx tagName maxBlocks b (st : TagValuesState) :
  (maxBlocks > 0 → maxBlocks ≤ MaxInt64 ∧ 0 ≤ inspectedBlocks st ≤ maxBlocks) →
  fed ctx tagName maxBlocks st [b]
    (SearchTagValues_search ctx tagName maxBlocks (Some b) st).1.2.
Proof.
  intros Hb. unfold fed, SearchTagValues_search.
  case_bool_decide as Hmax.
  - destruct (Hb Hmax) as (Hle & Hin). case_bool_decide as Hcap; simpl.
    + replace (Z.to_nat (maxBlocks - inspectedBlocks st)) with 0%nat by lia.
      simpl. split; [done |]. split; [lia |]. right. lia.
    + rewrite take_ge by (simpl; lia). simpl. rewrite app_nil_r.
      destruct (Exceeded (distinctValues st)) eqn:Hex; simpl.
      * rewrite foldl_Collect_latch by done. split; [done |]. split; [lia |]. by left.
      * assert (int64 (inspectedBlocks st + 1) = inspectedBlocks st + 1) as Hw.
        { apply int64_small. unfold MaxInt64 in *. lia. }
        destruct (SearchTagValues_ b ctx tagName) as [vals [e |]]; simpl;
          [destruct (negb _) |]; simpl; rewrite Hw;
          (split; [done |]; split; [lia |]; right; lia).
  - simpl. rewrite app_nil_r.
    destruct (Exceeded (distinctValues st)) eqn:Hex; simpl.
    + by rewrite foldl_Collect_latch.
    + destruct (SearchTagValues_ b ctx tagName) as [vals [e |]]; simpl;
        [by destruct (negb _) | done].
Qed.

Lemma SearchTagValues_range_fed ctx tagName maxBlocks kind blocks (st : TagValuesState) :
  (maxBlocks > 0 → maxBlocks ≤ MaxInt64 ∧ 0 ≤ inspectedBlocks st ≤ maxBlocks) →
  (SearchTagValues_range ctx tagName maxBlocks kind blocks st).1.1 = None →
  fed ctx tagName maxBlocks st blocks
    (SearchTagValues_range ctx tagName maxBlocks kind blocks st).1.2.
Proof.
  revert st. induction blocks as [| b rest IH]; intros st Hb; simpl.
  { intros _. apply fed_nil. intros Hmax. destruct (Hb Hmax). lia. }
  pose proof (SearchTagValues_search_fed ctx tagName maxBlocks b st Hb) as Hfed.
  destruct (SearchTagValues_search ctx tagName maxBlocks (Some b) st) as [[err st'] ev].
  simpl in Hfed. destruct err as [e |]; [done |].
  assert (maxBlocks > 0 → maxBlocks ≤ MaxInt64 ∧ 0 ≤ inspectedBlocks st' ≤ maxBlocks) as Hb'.
  { intros Hmax. destruct (Hb Hmax) as (? & ?). unfold fed in Hfed.
    rewrite bool_decide_true in Hfed by done. destruct Hfed as (_ & ? & _). lia. }
  specialize (IH st' Hb').
  destruct (SearchTagValues_range ctx tagName maxBlocks kind rest st') as [[err' st''] ev'].
  simpl in *. intros Herr. apply (fed_app _ _ _ st st' st'' [b] rest); auto.
Qed.

(** With blocks that raise no fatal error, the collector the flat
    tag-value search ends with is the empty collector fed the values of
    the blocks it got to, in the order of the registry. *)
Lemma SearchTagValues_locked_fed ctx tagName limit maxBlocks i :
  maxBlocks ≤ MaxInt64 →
  Forall (SearchTagValues_quiet ctx tagName) (allBlocks i) →
  distinctValues (SearchTagValues_locked ctx tagName limit maxBlocks i).1.2 =
    foldl Collect (NewDistinctString limit)
      (concat ((λ b, (SearchTagValues_ b ctx tagName).1) <$>
               searched_blocks maxBlocks (allBlocks i))).
Proof.
  intros Hle. unfold allBlocks. rewrite !Forall_app. intros (HqH & Hq1 & Hq2).
  set (st0 := mkTagValuesState 0 (NewDistinctString limit)).
  assert (fed ctx tagName maxBlocks st0
            (option_list (headBlock i) ++ completingBlocks i ++ completeBlocks i)
            (SearchTagValues_locked ctx tagName limit maxBlocks i).1.2) as Hfed.
  { unfold SearchTagValues_locked. fold st0.
    assert (maxBlocks > 0 → maxBlocks ≤ MaxInt64 ∧ 0 ≤ inspectedBlocks st0 ≤ maxBlocks)
      as Hb0 by (simpl; lia).
    assert ((SearchTagValues_search ctx tagName maxBlocks (headBlock i) st0).1.1 = None ∧
            fed ctx tagName maxBlocks st0 (option_list (headBlock i))
              (SearchTagValues_search ctx tagName maxBlocks (headBlock i) st0).1.2)
      as [HerrH HfedH].
    { destruct (headBlock i) as [h |].
      - simpl in HqH. rewrite Forall_singleton in HqH.
        split; [by apply SearchTagValues_search_quiet |].
        by apply SearchTagValues_search_fed.
      - unfold SearchTagValues_search. destruct (_ && _); simpl;
          (split; [done |]; apply fed_nil; simpl; lia). }
    destruct (SearchTagValues_search ctx tagName maxBlocks (headBlock i) st0)
      as [[err st] evH].
    simpl in HerrH, HfedH. subst err.
    assert (maxBlocks > 0 → maxBlocks ≤ MaxInt64 ∧ 0 ≤ inspectedBlocks st ≤ maxBlocks) as Hb1.
    { intros Hmax. unfold fed in HfedH. rewrite bool_decide_true in HfedH by done.
      destruct HfedH as (_ & ? & _). simpl in *. lia. }
    pose proof (SearchTagValues_range_quiet ctx tagName maxBlocks "completing" _ st Hq1)
      as Herr1.
    pose proof (SearchTagValues_range_fed ctx tagName maxBlocks "completing"
                  (completingBlocks i) st Hb1) as Hfed1.
    destruct (SearchTagValues_range ctx tagName maxBlocks "completing" _ st)
      as [[err1 st1] ev1].
    simpl in Herr1, Hfed1. subst err1. specialize (Hfed1 eq_refl).
    assert (maxBlocks > 0 → maxBlocks ≤ MaxInt64 ∧ 0 ≤ inspectedBlocks st1 ≤ maxBlocks) as Hb2.
    { intros Hmax. destruct (Hb1 Hmax) as (? & ?). unfold fed in Hfed1.
      rewrite bool_decide_true in Hfed1 by done. destruct Hfed1 as (_ & ? & _). lia. }
    pose proof (SearchTagValues_range_quiet ctx tagName maxBlocks "complete" _ st1 Hq2)
      as Herr2.
    pose proof (SearchTagValues_range_fed ctx tagName maxBlocks "complete"
                  (completeBlocks i) st1 Hb2) as Hfed2.
    destruct (SearchTagValues_range ctx tagName maxBlocks "complete" _ st1)
      as [[err2 st2] ev2].
    simpl in Herr2, Hfed2. subst err2. specialize (Hfed2 eq_refl).
    simpl. eapply fed_app; [exact HfedH |]. eapply fed_app; [exact Hfed1 | exact Hfed2]. }
  unfold fed in Hfed. unfold searched_blocks.
  case_bool_decide; [| done].
  destruct Hfed as (-> & _). simpl. by rewrite Z.sub_0_r.
Qed.

(** *** Tag values (typed) *)

Lemma concat_fmap_insert {A B} (f : A → list B) (l : list A) (k : nat) (x y : A) :
  l !! k = Some x →
  ∃ pre post, concat (f <$> l) = pre ++ f x ++ post ∧
              concat (f <$> <[k := y]> l) = pre ++ f y ++ post.
Proof.
  revert k. induction l as [| a l IH]; intros k Hk; [done |].
  destruct k as [| k]; simpl in Hk.
  - simplify_eq. by exists [], (concat (f <$> l)).
  - destruct (IH k Hk) as (pre & post & Hl & Hi).
    exists (f a ++ pre), post.
    change (concat (f <$> a :: l)) with (f a ++ concat (f <$> l)).
    change (concat (f <$> <[S k := y]> (a :: l)))
      with (f a ++ concat (f <$> <[k := y]> l)).
    by rewrite Hl, Hi, <- !app_assoc.
Qed.

Lemma concat_fmap_insert_same {A B} (f : A → list B) (l : list A) (k : nat) (x y : A) :
  l !! k = Some x → f y = f x → concat (f <$> <[k := y]> l) = concat (f <$> l).
Proof.
  intros Hk Hf. destruct (concat_fmap_insert f l k x y Hk) as (pre & post & -> & ->).
  by rewrite Hf.
Qed.

Lemma fed_inv_init p limit : fed_inv p limit (V2_init limit).
Proof.
  exists []. split; [done |]. split; [| done].
  intros v Hv. by apply elem_of_nil in Hv.
Qed.

Lemma fed_inv_step p limit st st' :
  origin_inv p st → fed_inv p limit st → V2_moves p st st' → fed_inv p limit st'.
Proof.
  intros (Htasks & _) (vs & Hcol & Hfrom & Hexact) Hmove. unfold fed_inv, fed_by.
  destruct Hmove as [st' Hmain | k t pc' st' Hk Hmove].
  - exists vs. destruct Hmain; simpl; (split; [done |]; split; [done |]); try done;
      intros Hcap Herr; rewrite !fmap_app, !concat_app; simpl; rewrite !app_nil_r;
      by apply Hexact.
  - pose proof (Forall_lookup_1 _ _ _ _ Htasks Hk) as [Hblock Hpc].
    destruct t as [kind b pc]. simpl in *.
    destruct Hmove; simpl in *; subst; simpl in *.
    all: try (exists vs; split; [done |]; split; [done |]; intros Hcap Herr;
              first [ done | congruence |
                rewrite (concat_fmap_insert_same pending_values _ _ _ _ Hk) by done;
                rewrite (concat_fmap_insert_same (called_values p) _ _ _ _ Hk) by done;
                by apply Hexact ]).
    + (* the call is made *)
      exists vs. split; [done |]. split; [done |]. intros Hcap Herr.
      specialize (Hexact Hcap Herr).
      destruct (concat_fmap_insert pending_values _ k _
                  (mkTask kind b (TCollect (V2_block p b).1 (V2_block p b).2)) Hk)
        as (pre & post & Hp & ->).
      destruct (concat_fmap_insert (called_values p) _ k _
                  (mkTask kind b (TCollect (V2_block p b).1 (V2_block p b).2)) Hk)
        as (pre' & post' & Hc & ->).
      rewrite Hp, Hc in Hexact. unfold pending_values, called_values in *. simpl in *.
      rewrite (Permutation_app_comm (V2_block p b).1 post).
      rewrite (Permutation_app_comm (V2_block p b).1 post').
      rewrite !app_assoc. apply Permutation_app_tail.
      by rewrite <- !app_assoc.
    + (* a value is handed to the collector *)
      destruct Hpc as [Herr' Hsub].
      exists (vs ++ [v]). split; [by rewrite foldl_app, <- Hcol |]. split.
      { intros v' Hv'. apply elem_of_app in Hv' as [Hv' | Hv']; [by apply Hfrom |].
        apply list_elem_of_singleton in Hv' as ->.
        exists b. split; [by eapply elem_of_kind_blocks |]. apply Hsub. by left. }
      intros Hcap Herr. specialize (Hexact Hcap Herr).
      rewrite (concat_fmap_insert_same (called_values p) _ _ _ _ Hk) by done.
      destruct (concat_fmap_insert pending_values _ k _
                  (mkTask kind b (TCollect vals err)) Hk) as (pre & post & Hp & ->).
      rewrite Hp in Hexact. unfold pending_values in *. simpl in *.
      rewrite <- Hexact. rewrite <- !app_assoc. apply Permutation_app_head. simpl.
      by rewrite Permutation_middle.
Qed.

Lemma V2_run_fed_inv p limit sched : fed_inv p limit (V2_run p sched (V2_init limit)).
Proof.
  assert (origin_inv p (V2_run p sched (V2_init limit)) ∧
          fed_inv p limit (V2_run p sched (V2_init limit))) as [_ ?]; [| done].
  apply V2_run_invariant; [split; [apply origin_inv_init | apply fed_inv_init] |].
  intros st st' [Ho Hf] Hmove. split; [by eapply origin_inv_step | by eapply fed_inv_step].
Qed.

Lemma spawn_inv_step p st st' : spawn_inv p st → V2_moves p st st' → spawn_inv p st'.
Proof.
  unfold spawn_inv. intros Hinv Hmove.
  destruct Hmove as [st' Hmain | k t pc' st' Hk Hmove].
  - destruct Hmain; simpl; rewrite ?H in *; simpl in *;
      rewrite ?fmap_app, <- ?app_assoc; simpl; try done.
    by destruct (headBlock (p_instance p)).
  - assert (v_main st' = v_main st ∧ v_tasks st' = v_tasks st) as [Hm Ht]
      by by destruct Hmove.
    simpl. rewrite Hm, Ht, list_fmap_insert. simpl.
    rewrite list_insert_id; [done |]. by rewrite list_lookup_fmap, Hk.
Qed.

Lemma V2_run_spawn_inv p limit sched : spawn_inv p (V2_run p sched (V2_init limit)).
Proof.
  apply V2_run_invariant; [done |]. intros st st'. apply spawn_inv_step.
Qed.

(** When the typed tag-value search has returned without a fatal error,
    its collector is the empty collector fed values of the blocks of
    the registry and, without a cap, fed exactly the values of all the
    blocks, in some order. *)
Lemma V2_returned_fed p limit sched :
  Forall (V2_quiet p) (allBlocks (p_instance p)) →
  is_Some (V2_result (V2_run p sched (V2_init limit))) →
  ∃ vs,
    v_valueCollector (V2_run p sched (V2_init limit)) =
      foldl ValueCollect (v_valueCollector (V2_init limit)) vs ∧
    (∀ v, v ∈ vs → ∃ b, b ∈ allBlocks (p_instance p) ∧ v ∈ (V2_block p b).1) ∧
    (¬ p_maxBlocks p > 0 →
     vs ≡ₚ concat ((λ b, (V2_block p b).1) <$> V2_order (p_instance p))).
Proof.
  intros Hq [r Hr]. apply V2_result_returned in Hr.
  destruct (V2_run_fed_inv p limit sched) as (vs & Hcol & Hfrom & Hexact).
  pose proof (V2_run_spawn_inv p limit sched) as Hspawn.
  destruct (V2_run_wg_inv p limit sched) as (Hwg & Hzero & _).
  destruct (V2_run_quiet_inv p limit sched Hq) as (Herr & _).
  set (st := V2_run p sched (V2_init limit)) in *.
  exists vs. split; [done |]. split; [done |]. intros Hcap.
  specialize (Hexact Hcap Herr).
  unfold spawn_inv in Hspawn. rewrite Hr in Hspawn, Hzero. simpl in Hspawn.
  rewrite app_nil_r in Hspawn. rewrite <- Hspawn.
  rewrite Hzero in Hwg. symmetry in Hwg.
  assert (Forall (λ t, live t = false) (v_tasks st)) as Hdone.
  { apply Forall_lookup. intros k t Hk. by apply (count_tasks_zero live _ k t Hwg Hk). }
  clear -Hexact Hdone. revert Hexact.
  assert (concat (pending_values <$> v_tasks st) = [] ∧
          concat (called_values p <$> v_tasks st) =
            concat ((λ b, (V2_block p b).1) <$> (t_block <$> v_tasks st))) as [-> ->].
  { induction Hdone as [| t ts Ht _ [IH1 IH2]]; [done |].
    rewrite !fmap_cons. cbn [concat]. rewrite IH1, IH2.
    unfold pending_values, called_values, live, past_call in *.
    by destruct (t_pc t). }
  by rewrite app_nil_r.
Qed.

Lemma SearchTagValuesV2_entry_params ctx req i limit p userID :
  ctx_orgID ctx = Some userID →
  SearchTagValuesV2_entry ctx req i = inr (limit, p) →
  limit = MaxBytesPerTagValuesQuery (limits i) userID ∧
  p_instance p = i ∧
  ∀ b, (V2_block p b).1 =
         SearchTagValuesV2_block_values ctx (ParseIdentifier (tvr_TagName req)).1
           (ExtractMatchers (tvr_Query req)) b.
Proof.
  intros Hu. unfold SearchTagValuesV2_entry, ExtractOrgID. rewrite Hu.
  destruct (ParseIdentifier (tvr_TagName req)) as [tag [e |]]; [done |].
  destruct (is_ID_intrinsic tag); [done |].
  intros [= <- <-]. split; [done |]. split; [done |].
  intros b. unfold V2_block, SearchTagValuesV2_block_values. simpl.
  by destruct (IsEmptyQuery _).
Qed.

Lemma searched_blocks_maxBlocksOf (limit : Z) (blocks : list Searcher) :
  searched_blocks (maxBlocksOf limit) blocks = searched_blocks limit blocks.
Proof.
  unfold searched_blocks, maxBlocksOf.
  destruct (bool_decide (limit > 0)) eqn:Hl; [by rewrite Hl |].
  by rewrite bool_decide_false by lia.
Qed.

(** C8. In the three tag-enumeration surfaces a collector over its byte
    limit is not an error.  The exceeded flag latches: a collector that
    has overflowed ignores what it is given next.  When no block raises
    a fatal error, each surface returns a successful response that
    holds the partial set, and logs the warning when the collector
    overflowed:
    - [SearchTagsV2] answers with the scopes and tags held by the
      collector that was fed, one after the other, the tags of all the
      blocks of the registry up to its overflow (and the intrinsic
      scope when the scope is none);
    - [SearchTagValues] answers with the values held by the collector
      that was fed the values of the blocks the block cap lets through,
      up to its overflow;
    - [SearchTagValuesV2], under every schedule that brings it to its
      return (and every schedule can be continued to one), answers
      with the values held by the collector that was fed values of
      blocks of the registry, up to its overflow; without a block cap
      these are the values of all the blocks, in an order the schedule
      decides. *)
Theorem collector_overflow_is_not_an_error ctx i userID :
  ctx_orgID ctx = Some userID →
  let limit := MaxBytesPerTagValuesQuery (limits i) userID in
  ((∀ (d : DistinctString) s, Exceeded d = true → Collect d s = d) ∧
   (∀ (d : ScopedDistinctString) scope s,
      ScopedExceeded d = true → ScopedCollect d scope s = d) ∧
   (∀ (d : DistinctValue TagValue) v, ValueExceeded d = true → ValueCollect d v = d)) ∧
  (∀ req,
     let a := AttributeScopeFromString (tags_Scope req) in
     let q := ExtractMatchers (tags_Query req) in
     tags_Scope req ≠ ParamScopeIntrinsic →
     a ≠ AttributeScopeUnknown →
     Forall (SearchTagsV2_quiet ctx a q) (allBlocks i) →
     let dv :=
       foldl (λ d '(t, scope), ScopedCollect d (AttributeScope_String scope) t)
         (NewScopedDistinctString limit)
         (concat (SearchTagsV2_block_tags ctx a q <$> allBlocks i)) in
     ∃ resp,
       (SearchTagsV2 ctx req i).1 = Ok resp ∧
       (∀ name t,
          (∃ s, s ∈ Scopes resp ∧ scope_Name s = name ∧ t ∈ scope_Tags s) ↔
          holds dv name t ∨
          (a = AttributeScopeNone ∧ name = ParamScopeIntrinsic ∧
           t ∈ GetVirtualIntrinsicValues)) ∧
       (ScopedExceeded dv = true → tagsWarning ∈ (SearchTagsV2 ctx req i).2)) ∧
  (∀ tagName,
     MaxBlocksPerTagValuesQuery (limits i) userID ≤ MaxInt64 →
     Forall (SearchTagValues_quiet ctx tagName) (allBlocks i) →
     let dv :=
       foldl Collect (NewDistinctString limit)
         (concat ((λ b, (SearchTagValues_ b ctx tagName).1) <$>
                  searched_blocks (MaxBlocksPerTagValuesQuery (limits i) userID)
                    (allBlocks i))) in
     ∃ resp,
       (SearchTagValues ctx tagName i).1 = Ok resp ∧
       (∀ v, v ∈ TagValues resp ↔ v ∈ ds_values dv) ∧
       (Exceeded dv = true → tagValuesWarning ∈ (SearchTagValues ctx tagName i).2)) ∧
  (∀ req limit' p sched,
     SearchTagValuesV2_entry ctx req i = inr (limit', p) →
     Forall (V2_quiet p) (allBlocks i) →
     let values :=
       SearchTagValuesV2_block_values ctx (ParseIdentifier (tvr_TagName req)).1
         (ExtractMatchers (tvr_Query req)) in
     (∃ more, is_Some (SearchTagValuesV2 ctx req i (sched ++ more)).1) ∧
     (∀ r, (SearchTagValuesV2 ctx req i sched).1 = Some r →
        ∃ resp vs,
          let dv :=
            foldl ValueCollect
              (NewDistinctValue limit
                 (λ v : TagValue, strlen (tv_Type v) + strlen (tv_Value v))) vs in
          r = Ok resp ∧
          (∀ v, v ∈ TagValuesV2 resp ↔ v ∈ dv_values dv) ∧
          (∀ v, v ∈ vs → ∃ b, b ∈ allBlocks i ∧ v ∈ values b) ∧
          (¬ p_maxBlocks p > 0 → vs ≡ₚ concat (values <$> V2_order i)) ∧
          (ValueExceeded dv = true →
           tagValuesWarning ∈ (SearchTagValuesV2 ctx req i sched).2))).
Proof.
  intros Hu limit. destruct (tag_surfaces_quiet ctx i userID Hu) as (Htags & Hvals & Htyped).
  split; [| split; [| split]].
  - split; [apply Collect_latch |].
    split; [apply ScopedCollect_latch | apply ValueCollect_latch].
  - intros req a q Hscope Hknown Hq dv.
    specialize (Htags req Hscope Hknown Hq).
    pose proof (SearchTagsV2_locked_fed ctx a q limit i Hq) as Hfed.
    fold a q limit in Htags.
    destruct (SearchTagsV2_locked ctx a q limit i) as [[r dv'] tr].
    simpl in Hfed. unfold collectTags in Hfed. fold dv in Hfed. subst dv'.
    destruct Htags as [Hr Hw].
    exists (SearchTagsV2_response a dv). split; [done |]. split; [| done].
    intros name t. apply SearchTagsV2_response_scopes.
  - intros tagName Hle Hq dv.
    specialize (Hvals tagName Hq). fold limit in Hvals.
    assert (maxBlocksOf (MaxBlocksPerTagValuesQuery (limits i) userID) ≤ MaxInt64) as Hle'.
    { unfold maxBlocksOf. case_bool_decide; [done |]. by unfold MaxInt64. }
    pose proof (SearchTagValues_locked_fed ctx tagName limit _ i Hle' Hq) as Hfed.
    rewrite searched_blocks_maxBlocksOf in Hfed. fold dv in Hfed.
    destruct (SearchTagValues_locked ctx tagName limit _ i) as [[r st] tr].
    simpl in Hfed. rewrite Hfed in Hvals. destruct Hvals as [Hr Hw].
    exists (mkSearchTagValuesResponse (Strings dv)). split; [done |]. split; [| done].
    intros v. simpl. unfold Strings. apply elem_of_elements.
  - intros req limit' p sched Hentry Hq values.
    destruct (SearchTagValuesV2_entry_params ctx req i limit' p userID Hu Hentry)
      as (-> & Hi & Hblock).
    fold limit in Hentry.
    destruct (Htyped req limit p sched Hentry Hq) as [Hterm Hret].
    split; [done |]. intros r Hr.
    destruct (Hret r Hr) as [-> Hw].
    assert (is_Some (V2_result (V2_run p sched (V2_init limit)))) as Hsome.
    { unfold SearchTagValuesV2 in Hr. rewrite Hentry in Hr. simpl in Hr. by eexists. }
    rewrite <- Hi in Hq.
    destruct (V2_returned_fed p limit sched Hq Hsome) as (vs & Hcol & Hfrom & Hexact).
    rewrite Hi in Hfrom, Hexact.
    exists (V2_response (v_valueCollector (V2_run p sched (V2_init limit)))), vs.
    simpl in Hcol. rewrite Hcol in *. split; [done |]. split; [| split; [| split]].
    + intros v. simpl. unfold Values. apply elem_of_elements.
    + intros v Hv. destruct (Hfrom v Hv) as (b & Hb & Hvb).
      exists b. split; [done |]. unfold values. by rewrite <- Hblock.
    + intros Hcap. rewrite (Hexact Hcap).
      assert ((λ b, (V2_block p b).1) <$> V2_order i = values <$> V2_order i) as ->; [| done].
      apply list_fmap_ext. intros _ b _. apply Hblock.
    + done.
Qed.

End Properties.

(** * Concrete runs *)

Import Fixture.
Import collector.

(** [run_of t H] evaluates the closed term [t] and records the outcome
    as [H : t = value]. *)
Ltac run_of t H :=
  let v := eval vm_compute in t in
  assert (t = v) as H by (vm_compute; reflexivity).

Lemma includeBlock_window_witness :
  includeBlock (mkBlockMeta "b1" 100000000000 200999999999)
               (mkSearchRequest "" 0 150 160) = true.
Proof.
  apply (proj2 (includeBlock_window (mkBlockMeta "b1" 100000000000 200999999999)
                  (mkSearchRequest "" 0 150 160)
                  ltac:(split; unfold is_uint32; simpl; lia))); simpl.
  - lia.
  - lia.
  - split; vm_compute; discriminate.
Defined.

(** The blocks of the fixture raise no error. *)
Lemma block_tags_quiet ctx a q id traces tags values :
  SearchTagsV2_quiet ctx a q (block id traces tags values).
Proof. unfold SearchTagsV2_quiet. simpl. by case_match. Qed.

Lemma block_values_quiet ctx tagName id traces tags values :
  SearchTagValues_quiet ctx tagName (block id traces tags values).
Proof. done. Qed.

Lemma block_V2_quiet p id traces tags values : V2_quiet p (block id traces tags values).
Proof. unfold V2_quiet, V2_block. simpl. by case_match. Qed.

(** Limit 2 on a head block of three traces: two come back. *)
Lemma Search_limit_witness :
  let req := mkSearchRequest "" 2 0 0 in
  let sched := [(0, false); (1, false)]%nat in
  let resp := mkSearchResponse [trace "t2" 7; trace "t1" 5] (Some (mkSearchMetrics 1 10)) in
  SearchRequest_wf req ∧
  Search_schedule req (registry 0 0) sched ∧
  (Search tenant req (registry 0 0) sched).1 = Ok resp ∧
  Z.of_nat (length (Traces resp)) ≤ 2.
Proof.
  intros req sched resp.
  assert (SearchRequest_wf req) as Hwf by (split; unfold is_uint32; simpl; lia).
  assert ((Search tenant req (registry 0 0) sched).1 = Ok resp)
    as Hok by (vm_compute; reflexivity).
  split; [exact Hwf |]. split; [unfold Search_schedule; vm_compute; reflexivity |].
  split; [exact Hok |].
  exact (Search_limit tenant req (registry 0 0) sched resp Hwf Hok).
Defined.

(** No limit in the request: the default of 20 applies, and all five
    traces of the registry come back, most recent first. *)
Example Search_default_limit :
  let run := Search tenant (mkSearchRequest "" 0 0 0) (registry 0 0)
               [(1, false); (0, false)]%nat in
  ∃ resp, run.1 = Ok resp ∧
          TraceID <$> Traces resp = ["t5"; "t4"; "t3"; "t2"; "t1"]%string.
Proof. eexists. split; [vm_compute; reflexivity | reflexivity]. Qed.

(** Two complete blocks fail: the call returns the error stored last, in
    either order of the two tasks. *)
Example Search_last_writer_wins :
  let req := mkSearchRequest "" 10 0 0 in
  (Search tenant req two_failing [(0, false); (1, false)]%nat).1 = Err (ErrorString "index") ∧
  (Search tenant req two_failing [(1, false); (0, false)]%nat).1 = Err (ErrorString "disk").
Proof. vm_compute. done. Qed.


(** The typed tag-value search on a registry whose head block is nil:
    the call returns and the head lock is still held. *)
Lemma SearchTagValuesV2_nil_head_lock_witness :
  let req := mkSearchTagValuesRequest "service.name" "" in
  let run := SearchTagValuesV2 tenant req (headless 0 0) in_turn in
  headBlock (headless 0 0) = None ∧
  run.1 = Some (Ok (mkSearchTagValuesV2Response
                      [mkTagValue "string" "w"; mkTagValue "string" "z"])) ∧
  run.2 = [EvRLock headBlockMtx; EvRLock blocksMtx;
           EvCall "blk-1" OpSearchTagValuesV2; EvCall "wal-1" OpSearchTagValuesV2;
           EvRUnlock blocksMtx] ∧
  held headBlockMtx run.2 = 1.
Proof.
  intros req run.
  assert (run.1 = Some (Ok (mkSearchTagValuesV2Response
                              [mkTagValue "string" "w"; mkTagValue "string" "z"])))
    as Hret by (vm_compute; reflexivity).
  split; [reflexivity |]. split; [exact Hret |]. split; [vm_compute; reflexivity |].
  exact (SearchTagValuesV2_nil_head_lock tenant req (headless 0 0) in_turn 0
           (mkV2Params tenant (Named "service.name") ""%string 0 (headless 0 0)) _
           eq_refl eq_refl Hret).
Defined.

(** With a head block the lock can be held at the return as well: the
    head task calls [wg.Done] before its deferred unlock. *)
Example SearchTagValuesV2_head_unlocks_late :
  let req := mkSearchTagValuesRequest "service.name" "" in
  let at_return := SearchTagValuesV2 tenant req (registry 0 0) (take 33 head_unlocks_last) in
  let later := SearchTagValuesV2 tenant req (registry 0 0) head_unlocks_last in
  is_Some at_return.1 ∧ held headBlockMtx at_return.2 = 1 ∧
  held headBlockMtx later.2 = 0.
Proof. vm_compute. split; [by eexists | done]. Qed.

(** C2 (as stated) fails on the typed tag-value search: the head task
    releases the head lock while the caller still holds the blocks lock,
    so the two locks are not released in reverse order. *)
Lemma lock_order_counterexample :
  let run := SearchTagValuesV2 tenant (mkSearchTagValuesRequest "service.name" "")
               (registry 0 0) in_turn in
  is_Some run.1 ∧
  run.2 = [EvRLock headBlockMtx; EvRLock blocksMtx;
           EvCall "head" OpSearchTagValuesV2; EvRUnlock headBlockMtx;
           EvCall "blk-1" OpSearchTagValuesV2; EvCall "wal-1" OpSearchTagValuesV2;
           EvRUnlock blocksMtx] ∧
  release_order 0 run.2 = false ∧
  lock_order run.2 = false.
Proof. vm_compute. split; [by eexists | done]. Qed.

Lemma SearchTagValuesV2_ID_intrinsics_witness :
  let req := mkSearchTagValuesRequest "trace:id" "" in
  ParseIdentifier (tvr_TagName req) = (TraceIDAttr, None) ∧
  (SearchTagValuesV2 tenant req (registry 0 0) in_turn).2 = [] ∧
  (SearchTagValuesV2 tenant req (registry 0 0) in_turn).1 =
    Some (Ok (mkSearchTagValuesV2Response [])).
Proof.
  intros req. split; [reflexivity |].
  destruct (SearchTagValuesV2_ID_intrinsics tenant req (registry 0 0) in_turn TraceIDAttr
              eq_refl (or_introl eq_refl)) as [Htrace Hret].
  split; [exact Htrace |]. apply Hret. by eexists.
Defined.

(** A cap of 2 blocks on a registry of 3: both tag-value surfaces search
    2 blocks. *)
Lemma block_cap_witness :
  let req := mkSearchTagValuesRequest "service.name" "" in
  ctx_orgID tenant = Some "tenant-1"%string ∧
  Z.of_nat (calls (SearchTagValues tenant "service.name" (registry 0 2)).2) ≤ 2 ∧
  Z.of_nat (calls (SearchTagValuesV2 tenant req (registry 0 2) in_turn).2) ≤ 2 ∧
  calls (SearchTagValues tenant "service.name" (registry 0 0)).2 = 3%nat ∧
  calls (SearchTagValuesV2 tenant req (registry 0 0) in_turn).2 = 3%nat.
Proof.
  intros req. split; [reflexivity |].
  pose proof (block_cap tenant (registry 0 2) "tenant-1" eq_refl) as (Hflat & Htyped & _).
  pose proof (block_cap tenant (registry 0 0) "tenant-1" eq_refl) as (_ & _ & Hopen).
  destruct (Hopen eq_refl) as [Hopen_flat Hopen_typed].
  split; [| split; [| split]].
  - apply Hflat. vm_compute. split; [done | discriminate].
  - apply Htyped; [done | vm_compute; discriminate].
  - apply Hopen_flat; [done |].
    unfold allBlocks. simpl. repeat constructor; apply block_values_quiet.
  - apply (Hopen_typed req 0
             (mkV2Params (E := externals) tenant (Named "service.name") ""%string 0
                (registry 0 0)) in_turn
             eq_refl).
    + unfold allBlocks. simpl. repeat constructor; apply block_V2_quiet.
    + vm_compute. by eexists.
Defined.

Example cap_of_two_is_reached :
  calls (SearchTagValues tenant "service.name" (registry 0 2)).2 = 2%nat ∧
  calls (SearchTagValuesV2 tenant (mkSearchTagValuesRequest "service.name" "")
           (registry 0 2) in_turn).2 = 2%nat.
Proof. vm_compute. done. Qed.

(** On the registry with a nil head block trace search panics, and the
    tag surfaces succeed. *)
Lemma nil_head_block_witness :
  ctx_orgID tenant = Some "tenant-1"%string ∧
  headBlock (headless 0 0) = None ∧
  (Search tenant (mkSearchRequest "" 5 0 0) (headless 0 0) [(0, false)]%nat).1 = Panic ∧
  (∃ resp, (SearchTagsV2 tenant (mkSearchTagsRequest "" "") (headless 0 0)).1 = Ok resp) ∧
  (∃ resp, (SearchTagValues tenant "service.name" (headless 0 0)).1 = Ok resp).
Proof.
  split; [reflexivity |]. split; [reflexivity |].
  pose proof (proj2 (nil_head_block tenant (headless 0 0) "tenant-1" eq_refl) eq_refl)
    as (Hsearch & _ & _ & _ & Htags & Hvalues & _).
  split; [apply Hsearch |]. split.
  - apply Htags; [done | done |].
    simpl. repeat constructor; apply block_tags_quiet.
  - apply Hvalues. simpl. repeat constructor; apply block_values_quiet.
Defined.

(** The scope [intrinsic] is answered with the intrinsic names, and so is
    every scope that resolves to none: with the scope "none" the flat
    response of the registry holds "duration" and "status" next to the tags
    of the blocks. *)
Lemma SearchTags_intrinsic_scope_witness :
  (∃ resp, SearchTags tenant ParamScopeIntrinsic (registry 0 0) = (Ok resp, []) ∧
           ∀ t, t ∈ TagNames resp ↔ t ∈ ["duration"; "status"]%string) ∧
  (∃ resp, (SearchTags tenant "none" (registry 0 0)).1 = Ok resp ∧
           ∀ t, t ∈ ["duration"; "status"]%string → t ∈ TagNames resp).
Proof.
  destruct (SearchTags_intrinsic_scope tenant (registry 0 0))
    as (_ & Hintrinsic & _ & Hnone & _).
  split; [apply Hintrinsic; by eexists |].
  run_of (SearchTags tenant "none" (registry 0 0)) Hrun.
  match type of Hrun with
  | _ = (Ok ?resp, ?tr) =>
    exists resp; split; [by rewrite Hrun |];
    apply (Hnone "none"%string resp tr); [done | done | reflexivity | exact Hrun]
  end.
Defined.

(** C6 (as stated) fails for the scope [intrinsic] and for the scope
    "none".  On a registry without blocks the typed response to either is
    the intrinsic scope alone; the flat response is made of the intrinsic
    tag names, whereas dropping the intrinsic scope would leave it
    empty. *)
Lemma SearchTags_intrinsic_counterexample :
  let v2 := mkSearchTagsV2Response
              [mkSearchTagsV2Scope ParamScopeIntrinsic GetVirtualIntrinsicValues] in
  GetVirtualIntrinsicValues = ["duration"; "status"]%string ∧
  (SearchTagsV2 tenant (mkSearchTagsRequest "intrinsic" "") empty).1 = Ok v2 ∧
  (SearchTags tenant "intrinsic" empty).1 =
    Ok (mkSearchTagsResponse ["status"; "duration"]%string) ∧
  AttributeScopeFromString "none" = AttributeScopeNone ∧
  (SearchTagsV2 tenant (mkSearchTagsRequest "none" "") empty).1 = Ok v2 ∧
  (SearchTags tenant "none" empty).1 =
    Ok (mkSearchTagsResponse ["status"; "duration"]%string) ∧
  Strings (flatten_without_intrinsic (Scopes v2)) = [].
Proof. vm_compute. done. Qed.

(** Overflow in the three surfaces.  A byte limit of 1: the typed tag-name
    search keeps "a" and the flat tag-value search keeps "x"; a byte limit
    of 7: the typed tag-value search keeps the value "x", of 7 bytes with
    its type.  Each overflows on the next entry, logs the warning and
    still succeeds. *)
Lemma collector_overflow_witness :
  let req := mkSearchTagValuesRequest "service.name" "" in
  ctx_orgID tenant = Some "tenant-1"%string ∧
  (∃ resp,
     (SearchTagsV2 tenant (mkSearchTagsRequest "span" "") (registry 1 0)).1 = Ok resp ∧
     (∃ s, s ∈ Scopes resp ∧ scope_Name s = "span"%string ∧ "a"%string ∈ scope_Tags s) ∧
     tagsWarning ∈ (SearchTagsV2 tenant (mkSearchTagsRequest "span" "") (registry 1 0)).2) ∧
  (∃ resp,
     (SearchTagValues tenant "service.name" (registry 1 0)).1 = Ok resp ∧
     "x"%string ∈ TagValues resp ∧ "y"%string ∉ TagValues resp ∧
     tagValuesWarning ∈ (SearchTagValues tenant "service.name" (registry 1 0)).2) ∧
  (∃ resp vs,
     (SearchTagValuesV2 tenant req (registry 7 0) in_turn).1 = Some (Ok resp) ∧
     vs ≡ₚ mkTagValue "string" <$> ["x"; "y"; "w"; "z"]%string ∧
     ∀ v, v ∈ TagValuesV2 resp ↔
          v ∈ dv_values
                (foldl ValueCollect
                   (NewDistinctValue 7
                      (λ v : TagValue, strlen (tv_Type v) + strlen (tv_Value v))) vs)).
Proof.
  intros req. split; [reflexivity |].
  pose proof (proj2 (collector_overflow_is_not_an_error tenant (registry 1 0)
                       "tenant-1" eq_refl)) as (Htags & Hvals & _).
  pose proof (proj2 (proj2 (proj2 (collector_overflow_is_not_an_error tenant (registry 7 0)
                                     "tenant-1" eq_refl)))) as Htyped.
  split; [| split].
  - pose proof (Htags (mkSearchTagsRequest "span" "")) as H. cbv zeta in H.
    destruct H as (resp & Hok & Hmem & Hwarn);
      [done | vm_compute; discriminate |
       unfold allBlocks; simpl; repeat constructor; apply block_tags_quiet |].
    exists resp. split; [exact Hok |]. split; [| apply Hwarn; vm_compute; reflexivity].
    apply (proj2 (Hmem "span"%string "a"%string)). left.
    match goal with
    | |- holds ?dv _ _ => run_of (sds_cols dv !! "span"%string) Hcol
    end.
    match type of Hcol with
    | _ = Some ?col =>
      exists col; split; [exact Hcol |];
      apply (@bool_decide_unpack _ (gset_elem_of_dec (K := string) "a"%string col));
      vm_compute; exact I
    end.
  - pose proof (Hvals "service.name"%string) as H. cbv zeta in H.
    destruct H as (resp & Hok & Hmem & Hwarn);
      [vm_compute; discriminate |
       unfold allBlocks; simpl; repeat constructor; apply block_values_quiet |].
    exists resp. split; [exact Hok |].
    split; [| split; [| apply Hwarn; vm_compute; reflexivity]].
    + apply Hmem. apply (bool_decide_unpack _). vm_compute. exact I.
    + intros Hy. apply Hmem in Hy. apply (bool_decide_pack _) in Hy.
      vm_compute in Hy. exact Hy.
  - pose proof (Htyped req 7
                  (mkV2Params (E := externals) tenant (Named "service.name") ""%string 0
                     (registry 7 0)) in_turn eq_refl) as H.
    cbv zeta in H. destruct H as [_ Hret].
    { unfold allBlocks. simpl. repeat constructor; apply block_V2_quiet. }
    run_of (SearchTagValuesV2 tenant req (registry 7 0) in_turn).1 Hrun.
    destruct (Hret _ Hrun) as (resp & vs & Hr & Hmem & _ & Hperm & _).
    exists resp, vs. split; [by rewrite Hrun, Hr |].
    split; [apply Hperm; simpl; lia | exact Hmem].
Defined.

(** ** Concrete runs of the further properties *)

(** A block that starts 0.999999999 s after second 160 is included for
    the window [150, 160]. *)
Lemma includeBlock_nanoseconds_witness :
  includeBlock (mkBlockMeta "b1" 160999999999 300000000000)
               (mkSearchRequest "" 0 150 160) = true.
Proof.
  apply (includeBlock_nanoseconds (mkBlockMeta "b1" 160999999999 300000000000)
           (mkSearchRequest "" 0 150 160)
           ltac:(split; unfold is_uint32; simpl; lia) ltac:(simpl; lia) ltac:(simpl; lia)).
  simpl. lia.
Defined.

Lemma includeBlock_overlap_witness :
  ∃ t, Unix 100000000000 ≤ t ≤ Unix 200999999999 ∧ 150 ≤ t ≤ 160.
Proof.
  apply (includeBlock_overlap (mkBlockMeta "b1" 100000000000 200999999999)
           (mkSearchRequest "" 0 150 160)
           ltac:(split; unfold is_uint32; simpl; lia) ltac:(simpl; lia) ltac:(simpl; lia)
           ltac:(simpl; lia) ltac:(simpl; lia)).
  vm_compute. reflexivity.
Defined.

Lemma includeBlock_widen_witness :
  includeBlock (mkBlockMeta "b1" 100000000000 200999999999)
               (mkSearchRequest "" 0 100 300) = true.
Proof.
  apply (includeBlock_widen (mkBlockMeta "b1" 100000000000 200999999999)
           (mkSearchRequest "" 0 150 160) (mkSearchRequest "" 0 100 300)
           ltac:(split; unfold is_uint32; simpl; lia)
           ltac:(split; unfold is_uint32; simpl; lia)
           ltac:(simpl; lia) ltac:(simpl; lia) ltac:(simpl; lia) ltac:(simpl; lia)).
  vm_compute. reflexivity.
Defined.

(** Two complete blocks fail: the error returned is the bare error of
    one of them. *)
Lemma Search_error_origin_witness :
  let req := mkSearchRequest "" 10 0 0 in
  (Search tenant req two_failing [(0, false); (1, false)]%nat).1 = Err (ErrorString "index") ∧
  errors_Is (ErrorString "index") ErrUnsupported = false ∧
  errors_Is (ErrorString "index") Canceled = false ∧
  ∃ b c, b ∈ allBlocks two_failing ∧ includeBlock (Meta b) req = true ∧
         (Search_block (mkContext (ctx_orgID tenant) c) req b).2 = Some (ErrorString "index").
Proof.
  intros req.
  assert ((Search tenant req two_failing [(0, false); (1, false)]%nat).1
          = Err (ErrorString "index")) as Hrun by (vm_compute; reflexivity).
  split; [exact Hrun |].
  exact (Search_error_origin tenant req two_failing [(0, false); (1, false)]%nat
           (ErrorString "index") Hrun).
Defined.

Lemma Search_all_skipped_witness :
  (Search tenant (mkSearchRequest "" 5 0 0) all_skipped [(1, true); (0, false)]%nat).1 =
    Ok (mkSearchResponse [] (Some (mkSearchMetrics 0 0))).
Proof.
  apply Search_all_skipped; [by eexists |].
  intros b c Hb. unfold allBlocks in Hb. simpl in Hb.
  rewrite !elem_of_cons in Hb.
  destruct Hb as [-> | [-> | [-> | Hb]]]; [| | | by apply elem_of_nil in Hb];
    eexists; (split; [reflexivity |]); vm_compute; auto.
Defined.

(** With a limit of 3 the head block of the fixture, which holds three
    traces, answers alone. *)
Lemma Search_head_fills_limit_witness :
  ∃ r, Search tenant (mkSearchRequest "" 3 0 0) (registry 0 0) [(0, false); (1, false)]%nat =
         (Ok r, [EvRLock headBlockMtx; EvCall "head" OpSearch; EvRUnlock headBlockMtx]) ∧
       Z.of_nat (length (Traces r)) = 3.
Proof.
  apply (Search_head_fills_limit tenant (mkSearchRequest "" 3 0 0) (registry 0 0)
           [(0, false); (1, false)]%nat head
           (mkSearchResponse [trace "t1" 5; trace "t2" 7; trace "t3" 9]
              (Some (mkSearchMetrics 1 10)))).
  - split; unfold is_uint32; simpl; lia.
  - reflexivity.
  - reflexivity.
  - reflexivity.
  - simpl. repeat (apply NoDup_cons; split; [rewrite ?elem_of_cons, elem_of_nil; naive_solver |]).
    apply NoDup_nil_2.
  - vm_compute. discriminate.
Defined.

Lemma Search_head_failure_witness :
  Search tenant (mkSearchRequest "" 5 0 0) failing_head [(0, false); (1, false)]%nat =
    (Err (ErrorString "disk"),
     [EvRLock headBlockMtx; EvCall "head" OpSearch;
      EvLog LevelError "error searching block"; EvRUnlock headBlockMtx]).
Proof.
  apply (Search_head_failure tenant (mkSearchRequest "" 5 0 0) failing_head
           [(0, false); (1, false)]%nat (failing "head" (ErrorString "disk"))
           (ErrorString "disk")); reflexivity.
Defined.


Lemma locks_released_at_return_witness :
  held headBlockMtx (Search tenant (mkSearchRequest "" 10 0 0) two_failing
                       [(0, false); (1, false)]%nat).2 = 0 ∧
  held blocksMtx (SearchTagValues tenant "service.name" two_failing).2 = 0.
Proof.
  split.
  - apply (proj1 (locks_released_at_return tenant two_failing headBlockMtx)). by eexists.
  - apply (proj2 (proj2 (proj2 (locks_released_at_return tenant two_failing blocksMtx)))).
Defined.

(** The first failing complete block stops the flat tag-value search;
    its error comes back wrapped twice. *)
Lemma SearchTagValues_error_origin_witness :
  let e := Errorf "unexpected error searching complete block (blk-a)"
             (Errorf "unexpected error searching tag values (service.name)"
                (ErrorString "disk")) in
  (SearchTagValues tenant "service.name" two_failing).1 = Err e ∧
  ((ctx_orgID tenant = None ∧ e = ErrNoOrgID) ∨
   ∃ k b e0, b ∈ kind_blocks two_failing k ∧
             (SearchTagValues_ b tenant "service.name").2 = Some e0 ∧
             errors_Is e0 ErrUnsupported = false ∧
             e = block_error k b
                   (Errorf "unexpected error searching tag values (service.name)" e0) ∧
             errors_Is e e0 = true ∧
             last (call_ids (SearchTagValues tenant "service.name" two_failing).2)
             = Some (blockID b)).
Proof.
  intros e.
  assert ((SearchTagValues tenant "service.name" two_failing).1 = Err e) as Hrun
    by (vm_compute; reflexivity).
  split; [exact Hrun |].
  exact (SearchTagValues_error_origin tenant "service.name" two_failing e Hrun).
Defined.

(** Without limits the flat tag-value search returns the values of all
    three blocks of the fixture. *)
Lemma SearchTagValues_values_witness :
  ∃ resp, (SearchTagValues tenant "service.name" (registry 0 0)).1 = Ok resp ∧
          NoDup (TagValues resp) ∧
          (∀ v, v ∈ TagValues resp →
                ∃ b, b ∈ allBlocks (registry 0 0) ∧
                     v ∈ (SearchTagValues_ b tenant "service.name").1) ∧
          "z"%string ∈ TagValues resp.
Proof.
  run_of (SearchTagValues tenant "service.name" (registry 0 0)).1 Hrun.
  match type of Hrun with
  | _ = Ok ?resp =>
    exists resp; split; [exact Hrun |];
    destruct (SearchTagValues_values tenant "service.name" (registry 0 0) resp Hrun)
      as (Hnd & Hsound & Hcomplete)
  end.
  split; [exact Hnd |]. split; [exact Hsound |].
  apply (Hcomplete "tenant-1"%string eq_refl ltac:(simpl; lia) ltac:(simpl; lia) wal).
  - unfold allBlocks. simpl. rewrite !elem_of_cons. auto.
  - simpl. rewrite elem_of_cons. auto.
Defined.

Lemma SearchTagsV2_error_origin_witness :
  let req := mkSearchTagsRequest "" "" in
  let e := Errorf "unexpected error searching complete block (blk-a)"
             (Errorf "unexpected error searching tags" (ErrorString "disk")) in
  (SearchTagsV2 tenant req two_failing).1 = Err e ∧
  ((ctx_orgID tenant = None ∧ e = ErrNoOrgID) ∨
   (AttributeScopeFromString (tags_Scope req) = AttributeScopeUnknown ∧
    e = ErrorString ("unknown scope: " +:+ tags_Scope req)) ∨
   ∃ k b e1, b ∈ kind_blocks two_failing k ∧
             SearchTagsV2_block_error tenant (AttributeScopeFromString (tags_Scope req))
               (ExtractMatchers (tags_Query req)) b e1 ∧
             e = block_error k b e1 ∧
             last (call_ids (SearchTagsV2 tenant req two_failing).2) = Some (blockID b)).
Proof.
  intros req e.
  assert ((SearchTagsV2 tenant req two_failing).1 = Err e) as Hrun
    by (vm_compute; reflexivity).
  split; [exact Hrun |].
  exact (SearchTagsV2_error_origin tenant req two_failing e Hrun).
Defined.

(** A byte limit of 1: the head block's second value overflows it, and
    the two blocks that follow are not called. *)
Lemma sequential_search_stops_witness :
  let st := mkTagValuesState 0 (NewDistinctString 1) in
  SearchTagValues_range tenant "service.name" 0 "complete" ([head] ++ [wal; blk]) st =
    SearchTagValues_range tenant "service.name" 0 "complete" [head] st ∧
  calls (SearchTagValues_range tenant "service.name" 0 "complete" ([head] ++ [wal; blk]) st).2
  = 1%nat.
Proof.
  intros st.
  pose proof (proj1 (sequential_search_stops tenant "complete" [head] [wal; blk])
                "service.name"%string 0 st) as H.
  rewrite H.
  - split; [reflexivity | vm_compute; reflexivity].
  - left. vm_compute. reflexivity.
Defined.

(** After the caller has started the head task, the head lock is
    held. *)
Lemma SearchTagValuesV2_searches_under_lock_witness :
  let p := mkV2Params (E := externals) tenant (Named "service.name") ""%string 0
             (registry 0 0) in
  let st := V2_run p [0; 0; 1]%nat (V2_init 0) in
  v_tasks st !! 0%nat = Some (mkTask HeadTask head TCap) ∧
  held headBlockMtx (v_trace st) = 1.
Proof.
  intros p st.
  assert (v_tasks st !! 0%nat = Some (mkTask HeadTask head TCap)) as Hk
    by (vm_compute; reflexivity).
  split; [exact Hk |].
  exact (proj1 (SearchTagValuesV2_searches_under_lock p 0 [0; 0; 1]%nat) 0%nat
           (mkTask HeadTask head TCap) Hk ltac:(discriminate)).
Defined.

Lemma SearchTagValuesV2_error_origin_witness :
  let req := mkSearchTagValuesRequest "service.name" "" in
  ∃ e, (SearchTagValuesV2 tenant req two_failing in_turn).1 = Some (Err e) ∧
       ∃ limit p k b e0,
         SearchTagValuesV2_entry tenant req two_failing = inr (limit, p) ∧
         b ∈ kind_blocks two_failing k ∧ (V2_block p b).2 = Some e0 ∧
         e = block_error k b e0 ∧ errors_Is e e0 = true.
Proof.
  intros req.
  run_of (SearchTagValuesV2 tenant req two_failing in_turn).1 Hrun.
  match type of Hrun with
  | _ = Some (Err ?e) =>
    exists e; split; [exact Hrun |];
    destruct (SearchTagValuesV2_error_origin tenant req two_failing in_turn e Hrun)
      as [[Hnone _] | [Hparse | H]]; [discriminate | discriminate | exact H]
  end.
Defined.

(** A head block that does not support the search fails the typed
    tag-value search. *)
Lemma SearchTagValuesV2_tolerates_no_error_witness :
  let req := mkSearchTagValuesRequest "service.name" "" in
  ∃ r e, (SearchTagValuesV2 tenant req unsupported_head in_turn).1 = Some r ∧ r = Err e.
Proof.
  intros req. eexists. 
  assert ((SearchTagValuesV2 tenant req unsupported_head in_turn).1 =
          Some (Err (Errorf "unexpected error searching head block (head)" ErrUnsupported)))
    as Hrun by (vm_compute; reflexivity).
  destruct (SearchTagValuesV2_tolerates_no_error tenant req unsupported_head in_turn 0
              (mkV2Params (E := externals) tenant (Named "service.name") ""%string 0
                 unsupported_head)
              "tenant-1" (failing "head" ErrUnsupported) ErrUnsupported _
              eq_refl eq_refl ltac:(simpl; lia)
              ltac:(unfold allBlocks; simpl; rewrite !elem_of_cons; auto)
              eq_refl Hrun) as [e He].
  exists e. split; [exact Hrun | exact He].
Defined.

(** Without limits the typed tag-value search returns the values of all
    three blocks of the fixture. *)
Lemma SearchTagValuesV2_values_witness :
  let req := mkSearchTagValuesRequest "service.name" "" in
  let p := mkV2Params (E := externals) tenant (Named "service.name") ""%string 0
             (registry 0 0) in
  ∃ resp, (SearchTagValuesV2 tenant req (registry 0 0) in_turn).1 = Some (Ok resp) ∧
          NoDup (TagValuesV2 resp) ∧
          (∀ v, v ∈ TagValuesV2 resp →
                ∃ b, b ∈ allBlocks (registry 0 0) ∧ v ∈ (V2_block p b).1) ∧
          mkTagValue "string" "z" ∈ TagValuesV2 resp.
Proof.
  intros req p.
  run_of (SearchTagValuesV2 tenant req (registry 0 0) in_turn).1 Hrun.
  match type of Hrun with
  | _ = Some (Ok ?resp) =>
    exists resp; split; [exact Hrun |];
    destruct (SearchTagValuesV2_values tenant req (registry 0 0) in_turn 0 p resp
                eq_refl Hrun) as (Hnd & Hsound & Hcomplete)
  end.
  split; [exact Hnd |]. split; [exact Hsound |].
  apply (Hcomplete ltac:(lia) eq_refl wal).
  - unfold allBlocks. simpl. rewrite !elem_of_cons. auto.
  - simpl. rewrite elem_of_cons. auto.
Defined.

(** The typed tag-name search on the fixture with the empty scope: the
    span scope collected from the blocks, then the intrinsic scope. *)
Lemma SearchTagsV2_scopes_witness :
  let req := mkSearchTagsRequest "" "" in
  ∃ resp collected,
    (SearchTagsV2 tenant req (registry 0 0)).1 = Ok resp ∧
    Scopes resp =
      collected ++ [mkSearchTagsV2Scope ParamScopeIntrinsic GetVirtualIntrinsicValues] ∧
    NoDup (scope_Name <$> collected) ∧
    ∃ s, s ∈ collected ∧ scope_Name s = "span"%string ∧ "c"%string ∈ scope_Tags s.
Proof.
  intros req.
  assert (tags_Scope req ≠ ParamScopeIntrinsic) as Hscope by discriminate.
  run_of (SearchTagsV2 tenant req (registry 0 0)).1 Hrun.
  match type of Hrun with
  | _ = Ok ?resp =>
    exists resp;
    destruct (SearchTagsV2_scopes tenant req (registry 0 0) resp Hscope Hrun)
      as (collected & Hscopes & Hnd & Hsound & Hcomplete)
  end.
  exists collected. split; [exact Hrun |].
  split; [exact Hscopes |]. split; [exact Hnd |].
  apply (Hcomplete "tenant-1"%string eq_refl ltac:(simpl; lia)).
  exists wal, ScopeSpan. split; [| split; [| reflexivity]].
  - unfold allBlocks. simpl. rewrite !elem_of_cons. auto.
  - apply list_elem_of_singleton. reflexivity.
Defined.

Lemma rejected_requests_touch_nothing_witness :
  SearchTagValues anonymous "service.name" (registry 0 0) = (Err ErrNoOrgID, []) ∧
  SearchTagsV2 tenant (mkSearchTagsRequest "event" "") (registry 0 0) =
    (Err (ErrorString "unknown scope: event"), []) ∧
  SearchTagValuesV2 tenant (mkSearchTagValuesRequest "" "") (registry 0 0) in_turn =
    (Some (Err (ErrorString "empty identifier")), []).
Proof.
  destruct (rejected_requests_touch_nothing anonymous (registry 0 0)) as [Hanon _].
  destruct (rejected_requests_touch_nothing tenant (registry 0 0)) as [_ Htenant].
  destruct (Hanon eq_refl) as (_ & _ & Hvalues & _).
  destruct (Htenant ltac:(by eexists)) as [Hscope Hparse].
  split; [apply Hvalues |]. split.
  - apply (Hscope (mkSearchTagsRequest "event" "")); [discriminate | reflexivity].
  - apply (Hparse (mkSearchTagValuesRequest "" "") in_turn). reflexivity.
Defined.
